(** * ReconciliationSystem: a shallow embedding of the Go sources

    The development follows the package layout of the repository:
    - [ingest]      : [ingest/payment.go], [ingest/settlements.go]
    - [db]          : [db/batch.go]
    - [utils]       : [utils/parser.go]
    - [controllers] : [controllers/reconcile_controller.go],
                      [controllers/ingest_controller.go]
    - [views]       : [views/report_view.go]

    Go [float64] values are binary64 primitive floats, Go [int] values are
    integers with 64-bit wrap-around written out where the code computes
    with them, Go maps are [gmap]s, slices are lists.  Calls into the Go
    standard library ([strconv], [strings], [time], [encoding/json]) go
    through the [GoRuntime] interface; the relational store reached through
    [config.DB] is an explicit state with a script of injected faults.
    What the surroundings decide is an input: the readings of the clock,
    the order in which a map is visited, the order in which the engine
    returns the rows of a query without [ORDER BY], the interleaving of
    the goroutines, and whether the runtime obtains the memory that a
    [make] asks for in proportion to a configured size. *)

From Stdlib Require Import ZArith List Ascii String Uint63 Floats.
From stdpp Require Import base gmap strings list fin_maps.

Local Open Scope string_scope.
Local Open Scope list_scope.
Local Open Scope Z_scope.

(** ** Go values shared by the packages *)

(** A Go [error] value.  [Errorf] is an error made by [fmt.Errorf],
    [io_EOF] the end-of-input sentinel, [LibErr] an error reported by a
    library or by the store driver. *)
Inductive error : Type :=
| Errorf (msg : string)
| io_EOF
| LibErr (origin : string) (code : nat).

(** [time.Time]: an instant, counted in nanoseconds from the zero value
    of the type (January 1, year 1, 00:00:00 UTC). *)
Record Time : Type := mkTime { sinceZero : Z }.

Definition zeroTime : Time := mkTime 0.

Definition IsZero (t : Time) : bool := Z.eqb (sinceZero t) 0.

(** The zero value of [float64]. *)
Definition f0 : float := 0%float.

(** The functions of the Go standard library the sources call.  A call
    that returns [(v, err)] in Go returns the pair here, [None] being a
    nil error. *)
Class GoRuntime : Type := {
  strconv_ParseFloat : string -> float * option error;
  strconv_Atoi : string -> Z * option error;
  strings_TrimSpace : string -> string;
  time_Parse : string -> string -> Time * option error;
  json_Marshal : gmap string string -> string
}.

(** The outcome of a Go function returning [(value, error)] where the
    value is meaningful only when the error is nil. *)
Inductive Result (A : Type) : Type :=
| Ok (a : A)
| Err (e : error).
Arguments Ok {A} a.
Arguments Err {A} e.

(** Reading [m[k]] in a Go map: the zero value when the key is absent. *)
Definition mapGet {V : Type} (zero : V) (m : gmap string V) (k : string) : V :=
  default zero (m !! k).

(** The left-to-right float64 sum of a list, from the zero value. *)
Definition sumFloat (l : list float) : float :=
  fold_left PrimFloat.add l f0.

(** ** Package ingest *)
Module ingest.

Record Settlement : Type := mkSettlement {
  Settlement_ID : Z;
  Settlement_SettlementID : string;
  Settlement_SettlementStartDate : string;
  Settlement_SettlementEndDate : string;
  Settlement_DepositDate : string;
  Settlement_TotalAmount : float;
  Settlement_Currency : string;
  Settlement_TransactionType : string;
  Settlement_OrderID : string;
  Settlement_MerchantOrderID : string;
  Settlement_AdjustmentID : string;
  Settlement_ShipmentID : string;
  Settlement_MarketplaceName : string;
  Settlement_AmountType : string;
  Settlement_AmountDescription : string;
  Settlement_Amount : float;
  Settlement_FulfillmentID : string;
  Settlement_PostedDate : string;
  Settlement_PostedDateTime : Time;
  Settlement_OrderItemCode : string;
  Settlement_MerchantOrderItemID : string;
  Settlement_MerchantAdjustmentItemID : string;
  Settlement_SKU : string;
  Settlement_QuantityPurchased : Z;
  Settlement_RawData : string
}.

Record Payment : Type := mkPayment {
  Payment_ID : Z;
  Payment_OrderID : string;
  Payment_Date : Time;
  Payment_SettlementID : string;
  Payment_Type : string;
  Payment_SKU : string;
  Payment_Description : string;
  Payment_Quantity : Z;
  Payment_Marketplace : string;
  Payment_AccountType : string;
  Payment_Fulfillment : string;
  Payment_TaxCollectionModel : string;
  Payment_ProductSales : float;
  Payment_ProductSalesTax : float;
  Payment_ShippingCredits : float;
  Payment_ShippingCreditsTax : float;
  Payment_GiftWrapCredits : float;
  Payment_GiftwrapCreditsTax : float;
  Payment_RegulatoryFee : float;
  Payment_TaxOnRegulatoryFee : float;
  Payment_PromotionalRebates : float;
  Payment_PromotionalRebatesTax : float;
  Payment_MarketplaceWithheldTax : float;
  Payment_SellingFees : float;
  Payment_FBAFees : float;
  Payment_OtherTransactionFees : float;
  Payment_Other : float;
  Payment_Total : float;
  Payment_RawData : string
}.

Section Normalizer.
Context `{rt : GoRuntime}.

(** [parseFloat] of [ingest/payment.go]. *)
Definition parseFloat (s : string) : float :=
  if decide (s = "") then f0
  else match strconv_ParseFloat s with
       | (_, Some _) => f0
       | (val, None) => val
       end.

(** [parseSettlementFloat] of [ingest/settlements.go]. *)
Definition parseSettlementFloat (s : string) : float :=
  if decide (s = "") then f0
  else match strconv_ParseFloat s with
       | (_, Some _) => f0
       | (val, None) => val
       end.

(** The loop [for i, header := range headers] that fills [data]: at
    index [i] the entry is written when [i < len(row)]. *)
Fixpoint fillData (i : nat) (headers row : list string) (data : gmap string string)
  : gmap string string :=
  match headers with
  | [] => data
  | header :: rest =>
      fillData (S i) rest row
        (match row !! i with
         | Some field => <[strings_TrimSpace header := strings_TrimSpace field]> data
         | None => data
         end)
  end.

(** The map [data] of a row, from the empty map. *)
Definition rowData (headers row : list string) : gmap string string :=
  fillData 0 headers row ∅.

(** [PaymentFromCSVRow].  [now] is the reading of the wall clock that
    [time.Now()] gives if the call is reached. *)
Definition PaymentFromCSVRow (now : Time) (headers row : list string) : Result Payment :=
  if (length row <? length headers)%nat
  then Err (Errorf "row has fewer fields than headers")
  else
    let data := rowData headers row in
    let get := mapGet "" data in
    Ok {|
      Payment_ID := 0;
      Payment_OrderID := get "order id";
      Payment_SettlementID := get "settlement id";
      Payment_Type := get "type";
      Payment_SKU := get "sku";
      Payment_Description := get "description";
      Payment_Marketplace := get "marketplace";
      Payment_AccountType := get "account type";
      Payment_Fulfillment := get "fulfillment";
      Payment_TaxCollectionModel := get "tax collection model";
      Payment_Quantity :=
        (let val := get "quantity" in
         if decide (val = "") then 0 else fst (strconv_Atoi val));
      Payment_ProductSales := parseFloat (get "product sales");
      Payment_ProductSalesTax := parseFloat (get "product sales tax");
      Payment_ShippingCredits := parseFloat (get "shipping credits");
      Payment_ShippingCreditsTax := parseFloat (get "shipping credits tax");
      Payment_GiftWrapCredits := parseFloat (get "gift wrap credits");
      Payment_GiftwrapCreditsTax := parseFloat (get "giftwrap credits tax");
      Payment_RegulatoryFee := parseFloat (get "Regulatory Fee");
      Payment_TaxOnRegulatoryFee := parseFloat (get "Tax On Regulatory Fee");
      Payment_PromotionalRebates := parseFloat (get "promotional rebates");
      Payment_PromotionalRebatesTax := parseFloat (get "promotional rebates tax");
      Payment_MarketplaceWithheldTax := parseFloat (get "marketplace withheld tax");
      Payment_SellingFees := parseFloat (get "selling fees");
      Payment_FBAFees := parseFloat (get "fba fees");
      Payment_OtherTransactionFees := parseFloat (get "other transaction fees");
      Payment_Other := parseFloat (get "other");
      Payment_Total := parseFloat (get "total");
      Payment_Date :=
        (let dateStr := get "date/time" in
         if decide (dateStr = "") then zeroTime
         else match time_Parse "Jan 2, 2006 3:04:05 PM MST" dateStr with
              | (t, None) => t
              | (_, Some _) =>
                  match time_Parse "2006-01-02" dateStr with
                  | (t, None) => t
                  | (_, Some _) => now
                  end
              end);
      Payment_RawData := json_Marshal data
    |}.

(** [SettlementFromTSVRow], with the same reading [now] of the clock. *)
Definition SettlementFromTSVRow (now : Time) (headers row : list string)
  : Result Settlement :=
  if (length row <? length headers)%nat
  then Err (Errorf "row has fewer fields than headers")
  else
    let data := rowData headers row in
    let get := mapGet "" data in
    Ok {|
      Settlement_ID := 0;
      Settlement_SettlementID := get "settlement-id";
      Settlement_SettlementStartDate := get "settlement-start-date";
      Settlement_SettlementEndDate := get "settlement-end-date";
      Settlement_DepositDate := get "deposit-date";
      Settlement_Currency := get "currency";
      Settlement_TransactionType := get "transaction-type";
      Settlement_OrderID := get "order-id";
      Settlement_MerchantOrderID := get "merchant-order-id";
      Settlement_AdjustmentID := get "adjustment-id";
      Settlement_ShipmentID := get "shipment-id";
      Settlement_MarketplaceName := get "marketplace-name";
      Settlement_AmountType := get "amount-type";
      Settlement_AmountDescription := get "amount-description";
      Settlement_FulfillmentID := get "fulfillment-id";
      Settlement_PostedDate := get "posted-date";
      Settlement_OrderItemCode := get "order-item-code";
      Settlement_MerchantOrderItemID := get "merchant-order-item-id";
      Settlement_MerchantAdjustmentItemID := get "merchant-adjustment-item-id";
      Settlement_SKU := get "sku";
      Settlement_TotalAmount := parseSettlementFloat (get "total-amount");
      Settlement_Amount := parseSettlementFloat (get "amount");
      Settlement_QuantityPurchased :=
        (let val := get "quantity-purchased" in
         if decide (val = "") then 0 else fst (strconv_Atoi val));
      Settlement_PostedDateTime :=
        (let dateStr := get "posted-date-time" in
         if decide (dateStr = "") then zeroTime
         else match time_Parse "2006-01-02 15:04:05 MST" dateStr with
              | (t, None) => t
              | (_, Some _) =>
                  match time_Parse "2006-01-02 15:04:05" dateStr with
                  | (t, None) => t
                  | (_, Some _) => now
                  end
              end);
      Settlement_RawData := json_Marshal data
    |}.

End Normalizer.

(** One iteration of the loop of [AggregateSettlementsByOrderID]:
    [orderTotals[settlement.OrderID] += settlement.Amount] under the
    guard [settlement.OrderID != ""]. *)
Definition aggregateStep (orderTotals : gmap string float) (settlement : Settlement)
  : gmap string float :=
  if decide (Settlement_OrderID settlement = "") then orderTotals
  else <[Settlement_OrderID settlement :=
           PrimFloat.add (mapGet f0 orderTotals (Settlement_OrderID settlement))
                         (Settlement_Amount settlement)]> orderTotals.

Definition AggregateSettlementsByOrderID (settlements : list Settlement)
  : gmap string float :=
  fold_left aggregateStep settlements ∅.

(** The amounts of the line items bearing key [K], in input order. *)
Definition amountsOf (K : string) (items : list Settlement) : list float :=
  Settlement_Amount <$> filter (fun s => Settlement_OrderID s = K) items.

End ingest.

(** ** Package models *)
Module models.

(** [models.Record], a row of the table [records]. *)
Record Record_ : Type := mkRecord {
  Record_ID : Z;
  Record_Source : string;
  Record_OrderID : string;
  Record_Date : Time;
  Record_TotalAmount : float;
  Record_RawData : string
}.

(** [models.ReconciledRecord], a row of the table [reconciled_records]. *)
Record ReconciledRecord : Type := mkReconciledRecord {
  ReconciledRecord_ID : Z;
  ReconciledRecord_PaymentsRecordID : Z;
  ReconciledRecord_SettlementsRecordID : Z;
  ReconciledRecord_AmountDifference : float
}.

End models.

(** ** The store behind [config.DB]

    The two tables of [schema.sql] with their identity sequences.  The
    engine is not part of the repository: a statement either succeeds
    with the effect its SQL text describes, or fails and leaves the tables
    as they were.  Which calls fail is given by [faults], read one entry
    per call to the store; past its end every call succeeds.  A value is
    stored as it is passed (the column types of the engine are not
    modelled). *)
Module config.
Import models.

Record DB : Type := mkDB {
  records : list Record_;
  reconciled_records : list ReconciledRecord;
  records_id_seq : Z;
  reconciled_records_id_seq : Z;
  faults : list (option error)
}.

(** The outcome of the next call to the store. *)
Definition nextFault (db : DB) : option error * DB :=
  match faults db with
  | [] => (None, db)
  | f :: rest =>
      (f, mkDB (records db) (reconciled_records db) (records_id_seq db)
               (reconciled_records_id_seq db) rest)
  end.

(** The values of one row of
    [INSERT INTO records (source, order_id, date, total_amount, raw_data)]. *)
Definition RecordValues : Type := (string * string * Time * float * string)%type.

(** The rows that a list of value tuples becomes, with identifiers drawn
    from [seq] onwards. *)
Fixpoint assignIDs (seq : Z) (vals : list RecordValues) : list Record_ :=
  match vals with
  | [] => []
  | (src, oid, d, total, raw) :: rest =>
      mkRecord seq src oid d total raw :: assignIDs (seq + 1) rest
  end.

(** [DB.Exec] of an [INSERT INTO records ... VALUES] statement with the
    given rows (one row for the single-row text, several for the
    multi-row text). *)
Definition Exec_insert_records (vals : list RecordValues) (db : DB) : DB * option error :=
  match nextFault db with
  | (Some e, db') => (db', Some e)
  | (None, db') =>
      (mkDB (records db' ++ assignIDs (records_id_seq db') vals)
            (reconciled_records db')
            (records_id_seq db' + Z.of_nat (length vals))
            (reconciled_records_id_seq db')
            (faults db'), None)
  end.

(** [DB.Exec("DELETE FROM reconciled_records")]. *)
Definition Exec_delete_reconciled (db : DB) : DB * option error :=
  match nextFault db with
  | (Some e, db') => (db', Some e)
  | (None, db') =>
      (mkDB (records db') [] (records_id_seq db')
            (reconciled_records_id_seq db') (faults db'), None)
  end.

(** [DB.Exec] of [INSERT INTO reconciled_records (payments_record_id,
    settlements_record_id, amount_difference) VALUES ($1, $2, $3)]. *)
Definition Exec_insert_reconciled (paymentId settlementId : Z) (diff : float) (db : DB)
  : DB * option error :=
  match nextFault db with
  | (Some e, db') => (db', Some e)
  | (None, db') =>
      (mkDB (records db')
            (reconciled_records db' ++
               [mkReconciledRecord (reconciled_records_id_seq db')
                                   paymentId settlementId diff])
            (records_id_seq db')
            (reconciled_records_id_seq db' + 1)
            (faults db'), None)
  end.

(** A row of the join of [RunReconciliation]:
    [p.id, p.order_id, p.total_amount, s.id, s.total_amount]. *)
Definition JoinRow : Type := (Z * string * float * Z * float)%type.

(** The rows of
    [SELECT ... FROM records p JOIN records s ON p.order_id = s.order_id
     WHERE p.source = 'payments' AND s.source = 'settlements'],
    in the order of a nested scan of the table (SQL fixes no order). *)
Definition joinRows (rs : list Record_) : list JoinRow :=
  p ← rs;
  s ← rs;
  if decide (Record_OrderID p = Record_OrderID s
             ∧ Record_Source p = "payments"
             ∧ Record_Source s = "settlements")
  then [(Record_ID p, Record_OrderID p, Record_TotalAmount p,
         Record_ID s, Record_TotalAmount s)]
  else [].

(** [DB.Query] of the join. *)
Definition Query_join (db : DB) : DB * Result (list JoinRow) :=
  match nextFault db with
  | (Some e, db') => (db', Err e)
  | (None, db') => (db', Ok (joinRows (records db')))
  end.

(** [DB.Query] of the join by an engine that returns the rows in the
    order [engineOrder] puts them in: the statement has no [ORDER BY], so
    the order is the engine's.  [Query_join] is the case of the engine that
    returns the rows as the nested scan finds them. *)
Definition Query_join_in (engineOrder : list JoinRow -> list JoinRow) (db : DB)
  : DB * Result (list JoinRow) :=
  match nextFault db with
  | (Some e, db') => (db', Err e)
  | (None, db') => (db', Ok (engineOrder (joinRows (records db'))))
  end.

(** A prepared statement, [*sqlx.Stmt]. *)
Record Stmt : Type := mkStmt { Stmt_query : string }.

(** [DB.Preparex]. *)
Definition Preparex (query : string) (db : DB) : DB * Result Stmt :=
  match nextFault db with
  | (Some e, db') => (db', Err e)
  | (None, db') => (db', Ok (mkStmt query))
  end.

(** A transaction, [*sqlx.Tx]: the rows inserted inside it and not yet
    visible in the table, and whether it was committed or rolled back. *)
Record Tx : Type := mkTx {
  Tx_pending : list Record_;
  Tx_done : bool
}.

(** [DB.Beginx]. *)
Definition Beginx (db : DB) : DB * Result Tx :=
  match nextFault db with
  | (Some e, db') => (db', Err e)
  | (None, db') => (db', Ok (mkTx [] false))
  end.

(** [txStmt.Exec] of the prepared single-row insert inside [tx]: the row
    takes the next identifier and stays pending. *)
Definition Tx_Exec (vals : RecordValues) (tx : Tx) (db : DB) : DB * Tx * option error :=
  match nextFault db with
  | (Some e, db') => (db', tx, Some e)
  | (None, db') =>
      (mkDB (records db') (reconciled_records db')
            (records_id_seq db' + 1)
            (reconciled_records_id_seq db') (faults db'),
       mkTx (Tx_pending tx ++ assignIDs (records_id_seq db') [vals]) (Tx_done tx),
       None)
  end.

(** The error [sql.ErrTxDone]. *)
Definition ErrTxDone : error := LibErr "sql: transaction has already been committed or rolled back" 0.

(** [tx.Commit]: the pending rows become rows of the table; a failed
    commit ends the transaction without them. *)
Definition Tx_Commit (tx : Tx) (db : DB) : DB * Tx * option error :=
  if Tx_done tx then (db, tx, Some ErrTxDone)
  else match nextFault db with
       | (Some e, db') => (db', mkTx [] true, Some e)
       | (None, db') =>
           (mkDB (records db' ++ Tx_pending tx) (reconciled_records db')
                 (records_id_seq db') (reconciled_records_id_seq db') (faults db'),
            mkTx [] true, None)
       end.

(** [tx.Rollback]: drops the pending rows; on a finished transaction it
    does nothing and reports [ErrTxDone]. *)
Definition Tx_Rollback (tx : Tx) (db : DB) : DB * Tx * option error :=
  if Tx_done tx then (db, tx, Some ErrTxDone)
  else (db, mkTx [] true, None).

(** [DB.Exec("DELETE FROM records")]. *)
Definition Exec_delete_records (db : DB) : DB * option error :=
  match nextFault db with
  | (Some e, db') => (db', Some e)
  | (None, db') =>
      (mkDB [] (reconciled_records db') (records_id_seq db')
            (reconciled_records_id_seq db') (faults db'), None)
  end.

(** [DB.Exec("ALTER SEQUENCE records_id_seq RESTART WITH 1")]. *)
Definition Exec_restart_records_id_seq (db : DB) : DB * option error :=
  match nextFault db with
  | (Some e, db') => (db', Some e)
  | (None, db') =>
      (mkDB (records db') (reconciled_records db') 1
            (reconciled_records_id_seq db') (faults db'), None)
  end.

(** [DB.Exec("ALTER SEQUENCE reconciled_records_id_seq RESTART WITH 1")]. *)
Definition Exec_restart_reconciled_records_id_seq (db : DB) : DB * option error :=
  match nextFault db with
  | (Some e, db') => (db', Some e)
  | (None, db') =>
      (mkDB (records db') (reconciled_records db') (records_id_seq db') 1
            (faults db'), None)
  end.

End config.

(** ** Go [int] arithmetic *)

(** The value an [int] (64 bits, two's complement) takes for the
    mathematical result [z]. *)
Definition wrap64 (z : Z) : Z := (z + 2 ^ 63) mod 2 ^ 64 - 2 ^ 63.

(** The outcome of running a loop with fuel: the value returned, a
    run-time panic, or fuel exhausted before the loop ended. *)
Inductive Outcome (A : Type) : Type :=
| Returns (a : A)
| Panics
| OutOfFuel.
Arguments Returns {A} a.
Arguments Panics {A}.
Arguments OutOfFuel {A}.

(** The slice expression [s[i:j]]: a panic unless [0 <= i <= j <= len(s)]. *)
Definition slice {A : Type} (s : list A) (i j : Z) : option (list A) :=
  if (0 <=? i) && (i <=? j) && (j <=? Z.of_nat (length s))
  then Some (take (Z.to_nat (j - i)) (drop (Z.to_nat i) s))
  else None.

(** ** Package db *)
Module db.
Import models config.

Definition DefaultBatchSize : Z := 1000.
Definition DefaultWorkers : Z := 4.

Record BatchRecord : Type := mkBatchRecord {
  BatchRecord_Source : string;
  BatchRecord_OrderID : string;
  BatchRecord_Date : Time;
  BatchRecord_TotalAmount : float;
  BatchRecord_RawData : string
}.

(** The arguments [record.Source, record.OrderID, record.Date,
    record.TotalAmount, record.RawData] of an insert. *)
Definition valuesOf (record : BatchRecord) : RecordValues :=
  (BatchRecord_Source record, BatchRecord_OrderID record, BatchRecord_Date record,
   BatchRecord_TotalAmount record, BatchRecord_RawData record).

Definition insertQuery : string :=
  "INSERT INTO records (source, order_id, date, total_amount, raw_data) VALUES ($1, $2, $3, $4, $5)".

(** The three inserters.  The field [db] of the Go structs points to the
    store, which is passed explicitly here; the mutex of [BatchInserter]
    carries no data. *)
Record BatchInserter : Type := mkBatchInserter {
  BatchInserter_batchSize : Z;
  BatchInserter_workers : Z
}.

Record PreparedBatchInserter : Type := mkPreparedBatchInserter {
  PreparedBatchInserter_stmt : Stmt;
  PreparedBatchInserter_batchSize : Z;
  PreparedBatchInserter_workers : Z
}.

Record StreamingBatchInserter : Type := mkStreamingBatchInserter {
  StreamingBatchInserter_batchSize : Z;
  StreamingBatchInserter_workers : Z;
  StreamingBatchInserter_stmt : Stmt
}.

Definition NewBatchInserter (batchSize workers : Z) : BatchInserter :=
  let batchSize := if batchSize <=? 0 then DefaultBatchSize else batchSize in
  let workers := if workers <=? 0 then DefaultWorkers else workers in
  mkBatchInserter batchSize workers.

Definition NewPreparedBatchInserter (batchSize workers : Z) (db : DB)
  : DB * Result PreparedBatchInserter :=
  let batchSize := if batchSize <=? 0 then DefaultBatchSize else batchSize in
  let workers := if workers <=? 0 then DefaultWorkers else workers in
  match Preparex insertQuery db with
  | (db', Err e) => (db', Err e)
  | (db', Ok stmt) => (db', Ok (mkPreparedBatchInserter stmt batchSize workers))
  end.

Definition NewStreamingBatchInserter (batchSize workers : Z) (db : DB)
  : DB * Result StreamingBatchInserter :=
  let batchSize := if batchSize <=? 0 then DefaultBatchSize else batchSize in
  let workers := if workers <=? 0 then DefaultWorkers else workers in
  match Preparex insertQuery db with
  | (db', Err e) => (db', Err e)
  | (db', Ok stmt) => (db', Ok (mkStreamingBatchInserter batchSize workers stmt))
  end.

(** The loop [for i := 0; i < len(records); i += batchSize] of
    [createBatches], entered at index [i] with the batches made so far. *)
Fixpoint createBatchesLoop (fuel : nat) (batchSize : Z) (records : list BatchRecord)
    (i : Z) (batches : list (list BatchRecord)) : Outcome (list (list BatchRecord)) :=
  match fuel with
  | O => OutOfFuel
  | S fuel' =>
      if i <? Z.of_nat (length records) then
        let end_ := wrap64 (i + batchSize) in
        let end_ := if end_ >? Z.of_nat (length records)
                    then Z.of_nat (length records) else end_ in
        match slice records i end_ with
        | None => Panics
        | Some batch =>
            createBatchesLoop fuel' batchSize records (wrap64 (i + batchSize))
                              (batches ++ [batch])
        end
      else Returns batches
  end.

(** [BatchInserter.createBatches]; one unit of fuel per record and one
    for the last test of the loop. *)
Definition BatchInserter_createBatches (bi : BatchInserter) (records : list BatchRecord)
  : Outcome (list (list BatchRecord)) :=
  createBatchesLoop (S (length records)) (BatchInserter_batchSize bi) records 0 [].

(** [PreparedBatchInserter.createBatches], the same loop. *)
Definition PreparedBatchInserter_createBatches (pbi : PreparedBatchInserter)
    (records : list BatchRecord) : Outcome (list (list BatchRecord)) :=
  createBatchesLoop (S (length records)) (PreparedBatchInserter_batchSize pbi) records 0 [].

(** [BatchInserter.insertBatch]: one multi-row [INSERT] run by
    [db.Exec].  The text of the statement, with five placeholders per
    record, and the flat list of arguments, five per record in the order
    of the batch, stand for the rows passed here. *)
Definition BatchInserter_insertBatch (bi : BatchInserter) (batch : list BatchRecord)
    (db : DB) : DB * option error :=
  match batch with
  | [] => (db, None)
  | _ => Exec_insert_records (valuesOf <$> batch) db
  end.

(** The loop [for _, record := range batch] of the prepared
    [insertBatch]: stops at the first failed insert. *)
Fixpoint execAll (batch : list BatchRecord) (tx : Tx) (db : DB) : DB * Tx * option error :=
  match batch with
  | [] => (db, tx, None)
  | record :: rest =>
      match Tx_Exec (valuesOf record) tx db with
      | (db', tx', Some e) => (db', tx', Some e)
      | (db', tx', None) => execAll rest tx' db'
      end
  end.

(** [PreparedBatchInserter.insertBatch].  The deferred [tx.Rollback()]
    runs after the result is fixed, on every path that opened [tx];
    [tx.Stmtx] binds the prepared statement to [tx] and has no effect on
    the store. *)
Definition PreparedBatchInserter_insertBatch (pbi : PreparedBatchInserter)
    (batch : list BatchRecord) (db : DB) : DB * option error :=
  match batch with
  | [] => (db, None)
  | _ =>
      match Beginx db with
      | (db1, Err e) => (db1, Some e)
      | (db1, Ok tx) =>
          match execAll batch tx db1 with
          | (db2, tx2, Some e) =>
              let '(db3, _, _) := Tx_Rollback tx2 db2 in (db3, Some e)
          | (db2, tx2, None) =>
              let '(db3, tx3, r) := Tx_Commit tx2 db2 in
              let '(db4, _, _) := Tx_Rollback tx3 db3 in (db4, r)
          end
      end
  end.

(** [StreamingBatchInserter.insertBatch], the same text as the prepared
    one. *)
Definition StreamingBatchInserter_insertBatch (sbi : StreamingBatchInserter)
    (batch : list BatchRecord) (db : DB) : DB * option error :=
  match batch with
  | [] => (db, None)
  | _ =>
      match Beginx db with
      | (db1, Err e) => (db1, Some e)
      | (db1, Ok tx) =>
          match execAll batch tx db1 with
          | (db2, tx2, Some e) =>
              let '(db3, _, _) := Tx_Rollback tx2 db2 in (db3, Some e)
          | (db2, tx2, None) =>
              let '(db3, tx3, r) := Tx_Commit tx2 db2 in
              let '(db4, _, _) := Tx_Rollback tx3 db3 in (db4, r)
          end
      end
  end.

(** How a call ends that asks the runtime for memory in proportion to a
    number it is given: as an [Outcome] says, or with the fatal error
    "out of memory" of the runtime, which ends the process; it is no
    panic, and nothing recovers it. *)
Inductive Process (A : Type) : Type :=
| Ends (outcome : Outcome A)
| OutOfMemory.
Arguments Ends {A} outcome.
Arguments OutOfMemory {A}.

(** The size of a [BatchRecord] in bytes (three strings, a [time.Time]
    and a [float64]) and the largest allocation of the runtime, on 64-bit
    platforms. *)
Definition sizeofBatchRecord : Z := 80.
Definition maxAlloc : Z := 2 ^ 48.

(** Whether [make([]BatchRecord, 0, cap)] panics ("makeslice: cap out of
    range"): on a negative capacity and on one whose memory exceeds
    [maxAlloc].  A capacity that passes is then asked of the runtime,
    which obtains the memory or ends the process. *)
Definition makeslicePanics (cap : Z) : bool :=
  (cap <? 0) || (maxAlloc <? cap * sizeofBatchRecord).

(** The loop [for record := range recordChan] of [StreamInsertRecords]
    and the statements after it; [recordChan] holds the records the
    channel delivers before it is closed, [batch] the buffer. *)
Fixpoint streamLoop (sbi : StreamingBatchInserter) (recordChan : list BatchRecord)
    (batch : list BatchRecord) (db : DB) : DB * option error :=
  match recordChan with
  | [] =>
      if (0 <? length batch)%nat
      then StreamingBatchInserter_insertBatch sbi batch db
      else (db, None)
  | record :: rest =>
      let batch := batch ++ [record] in
      if Z.of_nat (length batch) >=? StreamingBatchInserter_batchSize sbi
      then match StreamingBatchInserter_insertBatch sbi batch db with
           | (db', Some e) => (db', Some e)
           | (db', None) => streamLoop sbi rest [] db'
           end
      else streamLoop sbi rest batch db
  end.

(** [StreamingBatchInserter.StreamInsertRecords].  Its first statement,
    [make([]BatchRecord, 0, sbi.batchSize)], asks for the memory of the
    whole buffer before a record is read; [obtained] tells whether the
    runtime obtains it (a buffer of no record asks for nothing).  The
    appends stay within that buffer. *)
Definition StreamInsertRecords (sbi : StreamingBatchInserter) (obtained : bool)
    (recordChan : list BatchRecord) (db : DB) : Process (DB * option error) :=
  if makeslicePanics (StreamingBatchInserter_batchSize sbi) then Ends Panics
  else if (0 <? StreamingBatchInserter_batchSize sbi) && negb obtained then OutOfMemory
  else Ends (Returns (streamLoop sbi recordChan [] db)).

(** *** The worker pool of [BatchInserter.BatchInsertRecords]

    The goroutines interleave at their actions on shared objects: a
    receive from [batchChan], the one [db.Exec] of [insertBatch], a send on
    [errorChan].  A schedule (the list of the workers that act, in order)
    gives one interleaving. *)

(** Where a worker goroutine is: at the head of its loop
    [for batch := range batchChan], about to call [insertBatch(batch)],
    about to send its error on [errorChan], or returned. *)
Inductive WorkerState : Type :=
| Receiving
| Inserting (batch : list BatchRecord)
| Sending (err : error)
| Finished.

(** The shared state: the closed channel of batches, the channel of
    errors, the workers, the store. *)
Record Pool : Type := mkPool {
  Pool_batchChan : list (list BatchRecord);
  Pool_errorChan : list error;
  Pool_workers : list WorkerState;
  Pool_db : DB
}.

(** One action of worker [w] in [BatchInserter.worker].  A send on the
    full [errorChan] (capacity [bi.workers]) blocks: the worker stays
    where it is. *)
Definition workerStep (bi : BatchInserter) (pool : Pool) (w : nat) : Pool :=
  match Pool_workers pool !! w with
  | Some Receiving =>
      match Pool_batchChan pool with
      | [] =>
          mkPool [] (Pool_errorChan pool) (<[w := Finished]> (Pool_workers pool))
                 (Pool_db pool)
      | batch :: rest =>
          mkPool rest (Pool_errorChan pool)
                 (<[w := Inserting batch]> (Pool_workers pool)) (Pool_db pool)
      end
  | Some (Inserting batch) =>
      match BatchInserter_insertBatch bi batch (Pool_db pool) with
      | (db', Some err) =>
          mkPool (Pool_batchChan pool) (Pool_errorChan pool)
                 (<[w := Sending err]> (Pool_workers pool)) db'
      | (db', None) =>
          mkPool (Pool_batchChan pool) (Pool_errorChan pool)
                 (<[w := Receiving]> (Pool_workers pool)) db'
      end
  | Some (Sending err) =>
      if Z.of_nat (length (Pool_errorChan pool)) <? BatchInserter_workers bi
      then mkPool (Pool_batchChan pool) (Pool_errorChan pool ++ [err])
                  (<[w := Finished]> (Pool_workers pool)) (Pool_db pool)
      else pool
  | Some Finished => pool
  | None => pool
  end.

Definition isFinished (st : WorkerState) : bool :=
  match st with
  | Finished => true
  | _ => false
  end.

(** The size in bytes of an [error] (an interface value) and of the
    header of a channel (Go 1.24, 64-bit platforms). *)
Definition sizeofError : Z := 16.
Definition hchanSize : Z := 104.

(** Whether [make(chan T, size)] panics ("makechan: size out of range"),
    for elements of [elemSize] bytes: on a negative size and on a buffer
    that, with the header, exceeds [maxAlloc]. *)
Definition makechanPanics (elemSize size : Z) : bool :=
  (size <? 0) || (maxAlloc - hchanSize <? elemSize * size).

(** [BatchInserter.BatchInsertRecords] under a schedule.
    [make(chan error, bi.workers)] panics on a size out of range.
    [obtained] tells whether the runtime obtains the memory that grows
    with [bi.workers], the buffer of [errorChan] and the stacks of the
    worker goroutines; without it the process ends, with no worker there
    is none to obtain.  (The buffer of [batchChan] has 24 bytes for each
    batch and there are no more batches than records, of 80 bytes each,
    in the slice given; like the slices of [createBatches], it is taken to
    be there.)  [wg.Wait()] returns when all workers have returned; a
    schedule that ends before is out of fuel.  The loop over the closed
    [errorChan] returns its first error. *)
Definition BatchInserter_BatchInsertRecords (bi : BatchInserter) (obtained : bool)
    (schedule : list nat) (records : list BatchRecord) (db : DB)
  : Process (DB * option error) :=
  match records with
  | [] => Ends (Returns (db, None))
  | _ =>
      match BatchInserter_createBatches bi records with
      | Returns batches =>
          if makechanPanics sizeofError (BatchInserter_workers bi) then Ends Panics
          else if (0 <? BatchInserter_workers bi) && negb obtained then OutOfMemory
          else
            let pool :=
              fold_left (workerStep bi) schedule
                (mkPool batches []
                        (replicate (Z.to_nat (BatchInserter_workers bi)) Receiving) db) in
            if forallb isFinished (Pool_workers pool)
            then Ends (Returns (Pool_db pool, head (Pool_errorChan pool)))
            else Ends OutOfFuel
      | Panics => Ends Panics
      | OutOfFuel => Ends OutOfFuel
      end
  end.

End db.

(** ** Package utils *)
Module utils.
Import models config ingest.

(** [strings.Contains]. *)
Fixpoint Contains (s substr : string) : bool :=
  String.prefix substr s ||
  match s with
  | EmptyString => false
  | String _ s' => Contains s' substr
  end.

(** A [csv.Reader] over an opened file: the outcomes of the calls to
    [Read] still to come; after the last of them [Read] returns
    [io.EOF]. *)
Definition Reader : Type := list (Result (list string)).

Definition Read (reader : Reader) : Result (list string) * Reader :=
  match reader with
  | [] => (Err io_EOF, [])
  | r :: rest => (r, rest)
  end.

(** The loop [for i := 0; i < 20; i++] of [ParseAndStorePayments], with
    [n] iterations left: the error of a failed read, or the value of
    [headers] when the loop ends (nil when no line matched). *)
Fixpoint scanHeaders (n : nat) (reader : Reader) : Result (list string) * Reader :=
  match n with
  | O => (Ok [], reader)
  | S n' =>
      match Read reader with
      | (Err e, reader') => (Err e, reader')
      | (Ok line, reader') =>
          if (0 <? length line)%nat && Contains (hd "" line) "date/time"
          then (Ok line, reader')
          else scanHeaders n' reader'
      end
  end.

(** What [ParseAndStorePayments] returns and prints: the error (nil as
    [None]) and, when it gets there, the count of processed records. *)
Definition IngestReport : Type := (option error * option Z)%type.

Section Payments.
Context `{rt : GoRuntime}.

(** The loop [for { line, err := reader.Read() ... }] over the data
    rows; [clock k] is the wall-clock reading while row [k] of the loop is
    normalized.  The result of [config.DB.Exec] is dropped. *)
Fixpoint storePayments (clock : nat -> Time) (k : nat) (headers : list string)
    (reader : Reader) (db : DB) (recordsProcessed : Z) : DB * Z :=
  match reader with
  | [] => (db, recordsProcessed)
  | Err _ :: _ => (db, recordsProcessed)
  | Ok line :: reader' =>
      if (length line =? 0)%nat
      then storePayments clock (S k) headers reader' db recordsProcessed
      else
        match PaymentFromCSVRow (clock k) headers line with
        | Err _ => storePayments clock (S k) headers reader' db recordsProcessed
        | Ok payment =>
            if bool_decide (Payment_OrderID payment = "")
               || PrimFloat.eqb (Payment_Total payment) f0
            then storePayments clock (S k) headers reader' db recordsProcessed
            else
              let '(db', _) :=
                Exec_insert_records
                  [("payments", Payment_OrderID payment, Payment_Date payment,
                    Payment_Total payment, Payment_RawData payment)] db in
              storePayments clock (S k) headers reader' db' (recordsProcessed + 1)
        end
  end.

(** [ParseAndStorePayments]; [opened] is the outcome of [os.Open]
    followed by [csv.NewReader]. *)
Definition ParseAndStorePayments (clock : nat -> Time) (opened : Result Reader) (db : DB)
  : DB * IngestReport :=
  match opened with
  | Err e => (db, (Some e, None))
  | Ok reader =>
      match scanHeaders 20 reader with
      | (Err e, _) => (db, (Some e, None))
      | (Ok headers, reader') =>
          if (length headers =? 0)%nat
          then (db, (Some (Errorf "headers not found"), None))
          else
            let '(db', recordsProcessed) := storePayments clock 0 headers reader' db 0 in
            (db', (None, Some recordsProcessed))
      end
  end.

End Payments.

(** [strings.Split(s, "\t")]: the pieces of [s] between tabs, one more
    than there are tabs. *)
Definition tab : ascii := ascii_of_nat 9.

Fixpoint SplitTab (s : string) : list string :=
  match s with
  | EmptyString => [EmptyString]
  | String c s' =>
      if Ascii.eqb c tab then EmptyString :: SplitTab s'
      else match SplitTab s' with
           | field :: fields => String c field :: fields
           | [] => [String c EmptyString]
           end
  end.

(** What [ParseAndStoreSettlements] returns and prints: the error and,
    when it gets there, the number of settlement line items and the number
    of orders. *)
Definition SettlementReport : Type := (option error * option (Z * Z))%type.

Section Settlements.
Context `{rt : GoRuntime}.

(** The loop [for scanner.Scan()] over the data lines; [lines] are the
    lines the scanner still yields, [clock k] the wall-clock reading while
    line [k] is normalized. *)
Fixpoint collectSettlements (clock : nat -> Time) (k : nat) (headers : list string)
    (lines : list string) (settlements : list Settlement) : list Settlement :=
  match lines with
  | [] => settlements
  | line :: rest =>
      if decide (line = "")
      then collectSettlements clock (S k) headers rest settlements
      else
        let fields := SplitTab line in
        if (length fields <? length headers)%nat
        then collectSettlements clock (S k) headers rest settlements
        else
          match SettlementFromTSVRow (clock k) headers fields with
          | Err _ => collectSettlements clock (S k) headers rest settlements
          | Ok settlement =>
              if decide (Settlement_OrderID settlement = "")
              then collectSettlements clock (S k) headers rest settlements
              else collectSettlements clock (S k) headers rest
                                      (settlements ++ [settlement])
          end
  end.

(** The body of the loop [for orderID, total := range orderTotals]: the
    search for the first settlement of the order, and the insert, whose
    result is dropped. *)
Definition storeOrderTotal (settlements : list Settlement) (db : DB)
    (entry : string * float) : DB :=
  let '(orderID, total) := entry in
  match List.find (fun s => bool_decide (Settlement_OrderID s = orderID)) settlements with
  | Some firstSettlement =>
      fst (Exec_insert_records
             [("settlements", orderID, Settlement_PostedDateTime firstSettlement,
               total, Settlement_RawData firstSettlement)] db)
  | None => db
  end.

(** [ParseAndStoreSettlements]; [opened] is the outcome of [os.Open] with
    the lines the scanner yields, [rangeOrder] the order in which [range]
    visits the entries of a map. *)
Definition ParseAndStoreSettlements (clock : nat -> Time)
    (rangeOrder : gmap string float -> list (string * float))
    (opened : Result (list string)) (db : DB) : DB * SettlementReport :=
  match opened with
  | Err e => (db, (Some e, None))
  | Ok [] => (db, (Some (Errorf "empty file"), None))
  | Ok (first :: rest) =>
      let headers := SplitTab first in
      let settlements := collectSettlements clock 0 headers rest [] in
      let orderTotals := AggregateSettlementsByOrderID settlements in
      (fold_left (storeOrderTotal settlements) (rangeOrder orderTotals) db,
       (None, Some (Z.of_nat (length settlements), Z.of_nat (size orderTotals))))
  end.

End Settlements.

End utils.

(** ** Package controllers *)
Module controllers.
Import models config.

(** The body of the loop [for rows.Next()] of [RunReconciliation] for
    one row of the join; the result of [config.DB.Exec] is dropped. *)
Definition reconcileRow (db : DB) (row : JoinRow) : DB :=
  let '(paymentId, orderId, paymentTotal, settlementId, settlementTotal) := row in
  let diff := PrimFloat.sub paymentTotal settlementTotal in
  fst (Exec_insert_reconciled paymentId settlementId diff db).

Definition RunReconciliation (db : DB) : DB * option error :=
  let '(db1, _) := Exec_delete_reconciled db in
  match Query_join db1 with
  | (db2, Err e) => (db2, Some e)
  | (db2, Ok rows) => (fold_left reconcileRow rows db2, None)
  end.

(** [RunReconciliation] over an engine that returns the rows of the join
    in the order [engineOrder] puts them in. *)
Definition RunReconciliation_in (engineOrder : list JoinRow -> list JoinRow) (db : DB)
  : DB * option error :=
  let '(db1, _) := Exec_delete_reconciled db in
  match Query_join_in engineOrder db1 with
  | (db2, Err e) => (db2, Some e)
  | (db2, Ok rows) => (fold_left reconcileRow rows db2, None)
  end.

(** [ClearExistingData]: four statements whose results are dropped. *)
Definition ClearExistingData (db : DB) : DB * option error :=
  let '(db1, _) := Exec_delete_reconciled db in
  let '(db2, _) := Exec_delete_records db1 in
  let '(db3, _) := Exec_restart_records_id_seq db2 in
  let '(db4, _) := Exec_restart_reconciled_records_id_seq db3 in
  (db4, None).

Section Ingest.
Context `{rt : GoRuntime}.

(** [IngestAllFiles]; the two files are given as the outcomes of opening
    them, each parser has its clock. *)
Definition IngestAllFiles (paymentClock settlementClock : nat -> Time)
    (rangeOrder : gmap string float -> list (string * float))
    (paymentFile : Result utils.Reader) (settlementFile : Result (list string))
    (db : DB) : DB * option error :=
  match ClearExistingData db with
  | (db1, Some e) => (db1, Some e)
  | (db1, None) =>
      match utils.ParseAndStorePayments paymentClock paymentFile db1 with
      | (db2, (Some e, _)) => (db2, Some e)
      | (db2, (None, _)) =>
          let '(db3, (r, _)) :=
            utils.ParseAndStoreSettlements settlementClock rangeOrder settlementFile db2 in
          (db3, r)
      end
  end.

End Ingest.

End controllers.

(** ** Package views *)
Module views.
Import models config.

(** A row of the query of the report:
    [p.order_id, p.total_amount, s.total_amount, r.amount_difference]. *)
Definition ReportRow : Type := (string * float * float * float)%type.

(** The rows of
    [SELECT ... FROM reconciled_records r
     JOIN records p ON r.payments_record_id = p.id
     JOIN records s ON r.settlements_record_id = s.id],
    as a nested scan finds them. *)
Definition reportRows (db : DB) : list ReportRow :=
  r ← reconciled_records db;
  p ← records db;
  if decide (ReconciledRecord_PaymentsRecordID r = Record_ID p)
  then s ← records db;
       if decide (ReconciledRecord_SettlementsRecordID r = Record_ID s)
       then [(Record_OrderID p, Record_TotalAmount p, Record_TotalAmount s,
              ReconciledRecord_AmountDifference r)]
       else []
  else [].

(** [DB.Query] of the report by an engine that returns the rows in the
    order [engineOrder] puts them in: the statement has no [ORDER BY]. *)
Definition Query_report (engineOrder : list ReportRow -> list ReportRow) (db : DB)
  : DB * Result (list ReportRow) :=
  match nextFault db with
  | (Some e, db') => (db', Err e)
  | (None, db') => (db', Ok (engineOrder (reportRows db')))
  end.

(** The file [output/reconciliation_report.csv]: absent, or the records
    written to it. *)
Definition ReportFile : Type := option (list (list string)).

Definition reportHeader : list string :=
  ["order_id"; "status"; "payments_total"; "settlements_total"; "difference"].

Section Report.
(** [strconv.FormatFloat(x, 'f', 2, 64)]. *)
Variable FormatFloat : float -> string.

(** What [rows.Scan] returns for a row: nil, or the error of a column
    that cannot be converted. *)
Variable Scan : ReportRow -> option error.

(** The record written for one row of the query. *)
Definition reportRecord (row : ReportRow) : list string :=
  let '(orderID, paymentsTotal, settlementsTotal, difference) := row in
  let status := if negb (PrimFloat.eqb difference f0) then "unreconciled" else "reconciled" in
  [orderID; status; FormatFloat paymentsTotal; FormatFloat settlementsTotal;
   FormatFloat difference].

(** The loop [for rows.Next()]: a row that cannot be scanned ends it with
    the error, after the records written so far. *)
Fixpoint writeRows (rows : list ReportRow) (written : list (list string))
  : list (list string) * option error :=
  match rows with
  | [] => (written, None)
  | row :: rest =>
      match Scan row with
      | Some e => (written, Some e)
      | None => writeRows rest (written ++ [reportRecord row])
      end
  end.

(** [GenerateCSVReport]; [created] is the outcome of [os.Create], [file]
    the report file before the call.  The results of [os.MkdirAll] and of
    the writes are dropped; the deferred [Flush] and [Close] leave in the
    file what was written. *)
Definition GenerateCSVReport (engineOrder : list ReportRow -> list ReportRow)
    (created : option error) (file : ReportFile) (db : DB)
  : DB * ReportFile * option error :=
  match Query_report engineOrder db with
  | (db', Err e) => (db', file, Some e)
  | (db', Ok rows) =>
      match created with
      | Some e => (db', file, Some e)
      | None =>
          let '(written, r) := writeRows rows [reportHeader] in
          (db', Some written, r)
      end
  end.

End Report.

End views.

(** ** A runtime to compute with

    An instance of [GoRuntime] that runs inside Rocq, for evaluating the
    embedding on sample files.  It covers the inputs of the samples:
    plain decimal numerals, dates in the layout [2006-01-02], ASCII white
    space, and field texts that need no JSON escaping. *)
Module sample.

Definition isSpace (c : ascii) : bool :=
  let n := nat_of_ascii c in
  (n =? 32)%nat || ((9 <=? n)%nat && (n <=? 13)%nat).

Fixpoint trimLeft (s : string) : string :=
  match s with
  | String c s' => if isSpace c then trimLeft s' else s
  | EmptyString => EmptyString
  end.

Fixpoint trimRight (s : string) : string :=
  match s with
  | EmptyString => EmptyString
  | String c s' =>
      match trimRight s' with
      | EmptyString => if isSpace c then EmptyString else String c EmptyString
      | t => String c t
      end
  end.

Definition TrimSpace (s : string) : string := trimRight (trimLeft s).

Definition digitOf (c : ascii) : option Z :=
  let n := Z.of_nat (nat_of_ascii c) in
  if (48 <=? n) && (n <=? 57) then Some (n - 48) else None.

(** The value of a non-empty string of decimal digits, read after [acc]. *)
Fixpoint digitsFrom (acc : Z) (s : string) : option Z :=
  match s with
  | EmptyString => Some acc
  | String c s' =>
      match digitOf c with
      | Some d => digitsFrom (10 * acc + d) s'
      | None => None
      end
  end.

Definition digits (s : string) : option Z :=
  match s with
  | EmptyString => None
  | _ => digitsFrom 0 s
  end.

Definition ErrSyntax (fn : string) : error := LibErr fn 1.
Definition ErrRange (fn : string) : error := LibErr fn 2.

(** Splits a numeral at its first ['.'], if any. *)
Fixpoint splitDot (s : string) : string * option string :=
  match s with
  | EmptyString => (EmptyString, None)
  | String c s' =>
      if Ascii.eqb c "."%char then (EmptyString, Some s')
      else let '(a, b) := splitDot s' in (String c a, b)
  end.

Definition dropSign (s : string) : bool * string :=
  match s with
  | String c s' =>
      if Ascii.eqb c "-"%char then (true, s')
      else if Ascii.eqb c "+"%char then (false, s')
      else (false, s)
  | EmptyString => (false, s)
  end.

Definition floatOfZ (z : Z) : float := PrimFloat.of_uint63 (Uint63.of_Z z).

(** Numerals [[+-]ddd[.ddd]] with at most 15 digits: the quotient of two
    exactly represented integers, correctly rounded. *)
Definition ParseFloat (s : string) : float * option error :=
  let '(neg, body) := dropSign s in
  let '(ip, fp) := splitDot body in
  let fp := default EmptyString fp in
  match digits (ip ++ fp) with
  | None => (f0, Some (ErrSyntax "strconv.ParseFloat"))
  | Some m =>
      if (15 <? String.length (ip ++ fp))%nat
      then (f0, Some (ErrRange "strconv.ParseFloat"))
      else
        let v := PrimFloat.div (floatOfZ m)
                               (floatOfZ (10 ^ Z.of_nat (String.length fp))) in
        (if neg then PrimFloat.opp v else v, None)
  end.

Definition Atoi (s : string) : Z * option error :=
  let '(neg, body) := dropSign s in
  match digits body with
  | None => (0, Some (ErrSyntax "strconv.Atoi"))
  | Some m =>
      if (18 <? String.length body)%nat
      then (if neg then - 2 ^ 63 else 2 ^ 63 - 1, Some (ErrRange "strconv.Atoi"))
      else (if neg then - m else m, None)
  end.

Definition isLeap (y : Z) : bool :=
  ((y mod 4 =? 0) && negb (y mod 100 =? 0)) || (y mod 400 =? 0).

Definition daysIn (y m : Z) : Z :=
  if m =? 2 then (if isLeap y then 29 else 28)
  else if (m =? 4) || (m =? 6) || (m =? 9) || (m =? 11) then 30 else 31.

(** Days from January 1 of year 1 to the given day of the proleptic
    Gregorian calendar. *)
Definition daysSinceYear1 (y m d : Z) : Z :=
  let y' := if m <=? 2 then y - 1 else y in
  let era := y' / 400 in
  let yoe := y' - era * 400 in
  let mp := if 2 <? m then m - 3 else m + 9 in
  let doy := (153 * mp + 2) / 5 + d - 1 in
  let doe := yoe * 365 + yoe / 4 - yoe / 100 + doy in
  era * 146097 + doe - 306.

Definition ErrParse : error := LibErr "time.Parse" 1.

(** [time.Parse] for the layout [2006-01-02] and texts [YYYY-MM-DD];
    every other layout or text is a parse error. *)
Definition Parse (layout value : string) : Time * option error :=
  if negb (String.eqb layout "2006-01-02") || negb (String.length value =? 10)%nat
  then (zeroTime, Some ErrParse)
  else
    match digits (substring 0 4 value), digits (substring 5 2 value),
          digits (substring 8 2 value) with
    | Some y, Some m, Some d =>
        if String.eqb (substring 4 1 value) "-" && String.eqb (substring 7 1 value) "-"
           && (1 <=? m) && (m <=? 12) && (1 <=? d) && (d <=? daysIn y m)
        then (mkTime (daysSinceYear1 y m d * 86400 * 1000000000), None)
        else (zeroTime, Some ErrParse)
    | _, _, _ => (zeroTime, Some ErrParse)
    end.

(** Keys in increasing order, as [json.Marshal] writes a map. *)
Fixpoint insertSorted (kv : string * string) (l : list (string * string))
  : list (string * string) :=
  match l with
  | [] => [kv]
  | kv' :: rest =>
      if String.leb (fst kv) (fst kv') then kv :: l else kv' :: insertSorted kv rest
  end.

Definition dquote : ascii := ascii_of_nat 34.

Definition quote (s : string) : string := String dquote (s ++ String dquote EmptyString).

Fixpoint joinMembers (l : list (string * string)) : string :=
  match l with
  | [] => EmptyString
  | [(k, v)] => quote k ++ ":" ++ quote v
  | (k, v) :: rest => quote k ++ ":" ++ quote v ++ "," ++ joinMembers rest
  end.

Definition Marshal (data : gmap string string) : string :=
  "{" ++ joinMembers (foldr insertSorted [] (map_to_list data)) ++ "}".

#[export] Instance runtime : GoRuntime := {|
  strconv_ParseFloat := ParseFloat;
  strconv_Atoi := Atoi;
  strings_TrimSpace := TrimSpace;
  time_Parse := Parse;
  json_Marshal := Marshal
|}.

(** A wall clock for the samples: October 30, 2026, midnight UTC. *)
Definition now : Time := mkTime (daysSinceYear1 2026 10 30 * 86400 * 1000000000).

(** Decimal digits of a natural number. *)
Fixpoint decimalDigits (fuel : nat) (n : Z) (acc : string) : string :=
  match fuel with
  | O => acc
  | S fuel' =>
      let acc' := String (ascii_of_nat (Z.to_nat (48 + n mod 10))) acc in
      if n <? 10 then acc' else decimalDigits fuel' (n / 10) acc'
  end.

Definition decimal (n : Z) : string := decimalDigits (Z.to_nat (Z.log2_up (n + 2))) n "".

(** The hundredths nearest to the finite number [m * 2^e], ties to
    even. *)
Definition hundredths (m e : Z) : Z :=
  if 0 <=? e then m * 100 * 2 ^ e
  else
    let d := 2 ^ (- e) in
    let q := (m * 100) / d in
    let r := (m * 100) mod d in
    if (2 * r <? d) then q
    else if (d <? 2 * r) then q + 1
    else if Z.even q then q else q + 1.

(** [strconv.FormatFloat(x, 'f', 2, 64)] for zeros and finite numbers. *)
Definition FormatFloat (x : float) : string :=
  match Prim2SF x with
  | S754_zero s => (if s then "-0.00" else "0.00")
  | S754_finite s m e =>
      let h := hundredths (Zpos m) e in
      let cents := decimal (h mod 100) in
      (if s then "-" else "") ++ decimal (h / 100) ++ "."
      ++ (if h mod 100 <? 10 then "0" else "") ++ cents
  | S754_infinity s => (if s then "-Inf" else "+Inf")
  | S754_nan => "NaN"
  end.

(** Sample payment rows. *)
Definition paymentHeaders : list string := ["date/time"; "order id"; "total"].
Definition rowWithoutDate : list string := [""; "ORD001"; "100.00"].
Definition rowWithBadDate : list string := ["soon"; "ORD001"; "100.00"].

(** A settlement line item with the given order key and amount. *)
Definition lineItem (item : string * float) : ingest.Settlement :=
  ingest.mkSettlement 0 "S1" "" "" "" 0 "USD" "Order" (fst item) "" "" "" "" "" ""
                      (snd item) "" "" now "" "" "" "" 1 "{}".

(** Sample records for the batch loader. *)
Definition batchRecord (orderID : string) (total : float) : db.BatchRecord :=
  db.mkBatchRecord "payments" orderID now total "{}".

Definition fiveRecords : list db.BatchRecord :=
  [batchRecord "ORD001" 100; batchRecord "ORD002" 150; batchRecord "ORD003" 20;
   batchRecord "ORD004" 75; batchRecord "ORD005" 5].

(** An empty store in which every call succeeds. *)
Definition emptyDB : config.DB := config.mkDB [] [] 1 1 [].

(** The error of a store call that fails in the samples. *)
Definition storeDown : error := LibErr "pq: connection refused" 7.

(** An empty store in which the transaction opens, two inserts succeed
    and the third fails. *)
Definition thirdInsertFails : config.DB :=
  config.mkDB [] [] 1 1 [None; None; None; Some storeDown].

(** A payment file: two lines of preamble, the header, then a valid
    row, a row with total 0.00, a short row, a row without order key, and
    a second valid row. *)
Definition paymentFile : utils.Reader :=
  [Ok ["Statement"; "March"];
   Ok ["All amounts in USD"];
   Ok paymentHeaders;
   Ok ["2026-03-01"; "ORD001"; "100.00"];
   Ok ["2026-03-02"; "ORD003"; "0.00"];
   Ok ["2026-03-03"; "ORD004"];
   Ok ["2026-03-04"; ""; "12.50"];
   Ok ["2026-03-05"; "ORD002"; "150.00"]].

(** A payment file of three lines, none of them a header. *)
Definition fileWithoutHeader : utils.Reader :=
  [Ok ["Statement"; "March"];
   Ok ["2026-03-01"; "ORD001"; "100.00"];
   Ok ["2026-03-05"; "ORD002"; "150.00"]].

(** A settlement file: the header, two line items for ORD001, an empty
    line, a line item without order key, a short line and a line item for
    ORD002. *)
Definition settlementFile : list string :=
  [String.concat (String utils.tab EmptyString) ["order-id"; "amount"; "posted-date-time"];
   String.concat (String utils.tab EmptyString) ["ORD001"; "60.00"; "2026-03-01"];
   String.concat (String utils.tab EmptyString) ["ORD001"; "40.00"; "2026-03-02"];
   "";
   String.concat (String utils.tab EmptyString) [""; "9.99"; "2026-03-02"];
   String.concat (String utils.tab EmptyString) ["ORD009"; "1.00"];
   String.concat (String utils.tab EmptyString) ["ORD002"; "145.00"; "2026-03-03"]].

(** An order in which [range] may visit a map. *)
Definition rangeOrder (m : gmap string float) : list (string * float) :=
  reverse (map_to_list m).

(** The wall clock of the samples does not move. *)
Definition clock (k : nat) : Time := now.

(** A store after ingestion: ORD001 and ORD002 on both sides, ORD007
    paid but not settled, and a stale reconciliation row. *)
Definition ledgerRecords : list models.Record_ :=
  [models.mkRecord 1 "payments" "ORD001" now 100 "{}";
   models.mkRecord 2 "payments" "ORD002" now 150 "{}";
   models.mkRecord 3 "payments" "ORD007" now 30 "{}";
   models.mkRecord 4 "settlements" "ORD001" now 100 "{}";
   models.mkRecord 5 "settlements" "ORD002" now 145 "{}"].

Definition ledger : config.DB :=
  config.mkDB ledgerRecords [models.mkReconciledRecord 1 9 9 0] 6 2 [].

(** The same store, in which the insert for the first matched pair
    fails (after a successful delete and a successful query). *)
Definition ledgerFirstInsertFails : config.DB :=
  config.mkDB ledgerRecords [models.mkReconciledRecord 1 9 9 0] 6 2
              [None; None; Some storeDown].

(** The same store, in which the join query fails. *)
Definition ledgerQueryFails : config.DB :=
  config.mkDB ledgerRecords [models.mkReconciledRecord 1 9 9 0] 6 2
              [None; Some storeDown].

(** A store without rows in which the first transaction runs through
    and the commit of the second fails. *)
Definition secondCommitFails : config.DB :=
  config.mkDB [] [] 1 1 [None; None; None; None; None; None; None; Some storeDown].

(** An empty store whose next call fails. *)
Definition nextCallFails : config.DB := config.mkDB [] [] 1 1 [Some storeDown].

(** An empty store whose second call fails. *)
Definition secondCallFails : config.DB := config.mkDB [] [] 1 1 [None; Some storeDown].

(** A schedule in which [workers] goroutines act in turn, [rounds]
    times each. *)
Definition roundRobin (workers rounds : nat) : list nat :=
  concat (replicate rounds (seq 0 workers)).

End sample.

(** ** The timestamp rule in the words of the specification *)
Module spec.

(** "Date/time fields attempt a primary format, then a fallback format,
    then default to the current wall-clock time if both fail." *)
Definition timestampPerSpec `{rt : GoRuntime} (now : Time) (primary fallback : string)
    (dateStr : string) : Time :=
  match time_Parse primary dateStr with
  | (t, None) => t
  | (_, Some _) =>
      match time_Parse fallback dateStr with
      | (t, None) => t
      | (_, Some _) => now
      end
  end.

End spec.

(** ** Predicates used to state the properties *)
Module statements.
Import models config db ingest utils.

(** All batches but the last one hold exactly [batchSize] records. *)
Definition fullButLast (batchSize : Z) (batches : list (list BatchRecord)) : Prop :=
  forall (k : nat) (b : list BatchRecord),
    batches !! k = Some b -> (S k < length batches)%nat ->
    Z.of_nat (length b) = batchSize.

(** Every batch holds at least one and at most [batchSize] records. *)
Definition boundedBatches (batchSize : Z) (batches : list (list BatchRecord)) : Prop :=
  Forall (fun b => 1 <= Z.of_nat (length b) <= batchSize) batches.

(** What a batch insert may leave in the table [records]: on a nil
    error the rows of the batch, with fresh identifiers, after the rows
    that were there; on an error nothing but the rows that were there. *)
Definition allOrNothing (batch : list BatchRecord) (db : DB) (res : DB * option error)
  : Prop :=
  match snd res with
  | None =>
      records (fst res)
      = records db ++ assignIDs (records_id_seq db) (valuesOf <$> batch)
  | Some _ => records (fst res) = records db
  end.

(** Every call to the store succeeds. *)
Definition noFaults (db : DB) : Prop := Forall (fun f => f = None) (faults db).

(** A line "whose first field contains the header marker token". *)
Definition isHeaderLine (line : list string) : bool :=
  (0 <? length line)%nat && Contains (hd "" line) "date/time".

(** The data rows a reader yields: the lines read before the first
    failed read (the end of the input included). *)
Fixpoint rowsRead (reader : Reader) : list (list string) :=
  match reader with
  | Ok line :: rest => line :: rowsRead rest
  | _ => []
  end.

(** "A row is accepted into the output sequence only if normalization
    succeeds AND the resulting order key is non-empty AND the resulting
    total is non-zero": the values stored for an accepted row. *)
Definition acceptedRow `{rt : GoRuntime} (now : Time) (headers line : list string)
  : option RecordValues :=
  match PaymentFromCSVRow now headers line with
  | Ok p =>
      if decide (Payment_OrderID p ≠ "" ∧ PrimFloat.eqb (Payment_Total p) f0 = false)
      then Some ("payments", Payment_OrderID p, Payment_Date p, Payment_Total p,
                 Payment_RawData p)
      else None
  | Err _ => None
  end.

(** The accepted rows of a file, in file order; row [k] is normalized
    under the clock reading [clock k]. *)
Fixpoint acceptedRows `{rt : GoRuntime} (clock : nat -> Time) (k : nat)
    (headers : list string) (lines : list (list string)) : list RecordValues :=
  match lines with
  | [] => []
  | line :: rest =>
      option_list (acceptedRow (clock k) headers line)
      ++ acceptedRows clock (S k) headers rest
  end.

(** The rows of [reconciled_records] that the loop of
    [RunReconciliation] leaves for the rows of the join, when the inserts
    meet the faults [fs] in order: a failed insert leaves no row and the
    next row of the join is handled all the same. *)
Fixpoint insertedResults (seq : Z) (rows : list JoinRow) (fs : list (option error))
  : list ReconciledRecord :=
  match rows with
  | [] => []
  | (paymentId, _, paymentTotal, settlementId, settlementTotal) :: rest =>
      match fs with
      | Some _ :: fs' => insertedResults seq rest fs'
      | _ =>
          mkReconciledRecord seq paymentId settlementId
                             (PrimFloat.sub paymentTotal settlementTotal)
          :: insertedResults (seq + 1) rest (tail fs)
      end
  end.

(** [rr] is a reconciliation result for the order key [K]: a row of
    [reconciled_records] whose two references point to rows of [records]
    with order key [K]. *)
Definition resultFor (db : DB) (K : string) (rr : ReconciledRecord) : Prop :=
  rr ∈ reconciled_records db
  ∧ exists p s,
      p ∈ records db ∧ s ∈ records db
      ∧ Record_ID p = ReconciledRecord_PaymentsRecordID rr
      ∧ Record_ID s = ReconciledRecord_SettlementsRecordID rr
      ∧ Record_OrderID p = K ∧ Record_OrderID s = K.

(** [p] and [s] are a matched pair: a payments row and a settlements row
    with the same order key. *)
Definition matchedPair (db : DB) (p s : Record_) : Prop :=
  p ∈ records db ∧ s ∈ records db
  ∧ Record_Source p = "payments" ∧ Record_Source s = "settlements"
  ∧ Record_OrderID p = Record_OrderID s.

(** The row of [records] that [ParseAndStoreSettlements] makes for an
    entry [(K, total)] of the order totals: source, key and total as
    given, date and raw data of the first settlement of the order. *)
Definition settlementRowOf (settlements : list Settlement) (entry : string * float)
    (r : Record_) : Prop :=
  Record_Source r = "settlements"
  ∧ Record_OrderID r = entry.1
  ∧ Record_TotalAmount r = entry.2
  ∧ exists before first after,
      settlements = before ++ first :: after
      ∧ Settlement_OrderID first = entry.1
      ∧ (forall s, s ∈ before -> Settlement_OrderID s ≠ entry.1)
      ∧ Record_Date r = Settlement_PostedDateTime first
      ∧ Record_RawData r = Settlement_RawData first.

(** The store after inserts of the rows [vals] into [records] that took
    [k] calls, none of which failed. *)
Definition afterInserts (vals : list RecordValues) (k : nat) (db : DB) : DB :=
  mkDB (records db ++ assignIDs (records_id_seq db) vals)
       (reconciled_records db)
       (records_id_seq db + Z.of_nat (length vals))
       (reconciled_records_id_seq db)
       (drop k (faults db)).

(** The values [ParseAndStoreSettlements] stores for an entry of the
    order totals, if the order has a first settlement. *)
Definition orderTotalValues (settlements : list Settlement) (entry : string * float)
  : option RecordValues :=
  match List.find (fun s => bool_decide (Settlement_OrderID s = entry.1)) settlements with
  | Some firstSettlement =>
      Some ("settlements", entry.1, Settlement_PostedDateTime firstSettlement,
            entry.2, Settlement_RawData firstSettlement)
  | None => None
  end.

(** The error of a payment file and of a settlement file: the file that
    cannot be opened, the header that is not found, the empty file. *)
Definition paymentError (file : Result Reader) : option error :=
  match file with
  | Err e => Some e
  | Ok reader =>
      match scanHeaders 20 reader with
      | (Err e, _) => Some e
      | (Ok headers, _) =>
          if (length headers =? 0)%nat then Some (Errorf "headers not found") else None
      end
  end.

Definition settlementError (file : Result (list string)) : option error :=
  match file with
  | Err e => Some e
  | Ok [] => Some (Errorf "empty file")
  | Ok (_ :: _) => None
  end.

(** The values of the rows that a payment file and a settlement file
    give, in the order of their inserts. *)
Definition paymentValues `{rt : GoRuntime} (clock : nat -> Time) (file : Result Reader)
  : list RecordValues :=
  match file with
  | Err _ => []
  | Ok reader =>
      match scanHeaders 20 reader with
      | (Err _, _) => []
      | (Ok headers, reader') =>
          if (length headers =? 0)%nat then []
          else acceptedRows clock 0 headers (rowsRead reader')
      end
  end.

Definition settlementValues `{rt : GoRuntime} (clock : nat -> Time)
    (rangeOrder : gmap string float -> list (string * float))
    (file : Result (list string)) : list RecordValues :=
  match file with
  | Ok (first :: rest) =>
      let settlements := collectSettlements clock 0 (SplitTab first) rest [] in
      omap (orderTotalValues settlements)
           (rangeOrder (AggregateSettlementsByOrderID settlements))
  | _ => []
  end.

(** The identifying content of a reconciliation result. *)
Definition resultKey (rr : ReconciledRecord) : Z * Z * float :=
  (ReconciledRecord_PaymentsRecordID rr, ReconciledRecord_SettlementsRecordID rr,
   ReconciledRecord_AmountDifference rr).

(** The rows of the join that the pair of rows [p], [s] gives. *)
Definition joinPair (p s : Record_) : list JoinRow :=
  if decide (Record_OrderID p = Record_OrderID s
             ∧ Record_Source p = "payments"
             ∧ Record_Source s = "settlements")
  then [(Record_ID p, Record_OrderID p, Record_TotalAmount p,
         Record_ID s, Record_TotalAmount s)]
  else [].

(** The record of the report for a row of the join of
    [RunReconciliation]: order key, status, the two totals and their
    difference. *)
Definition reportRecordOf (FormatFloat : float -> string) (row : JoinRow) : list string :=
  views.reportRecord FormatFloat
    (row.1.1.1.2, row.1.1.2, row.2, PrimFloat.sub row.1.1.2 row.2).

(** The batches that workers hold, about to insert them. *)
Definition heldBatches (ws : list WorkerState) : list (list BatchRecord) :=
  omap (fun st => match st with Inserting batch => Some batch | _ => None end) ws.

(** The number of workers about to send an error, and of workers that
    have returned. *)
Definition isSending (st : WorkerState) : bool :=
  match st with
  | Sending _ => true
  | _ => false
  end.

Definition sendingCount (ws : list WorkerState) : nat :=
  length (List.filter isSending ws).

Definition finishedCount (ws : list WorkerState) : nat :=
  length (List.filter isFinished ws).

(** What the worker pool of [BatchInsertRecords] keeps true at every
    action, for the batches [batches] it was given and the store [db0] it
    started from.  There are [bi.workers] workers; [errorChan] holds at
    most one error per returned worker, and exactly one while batches are
    left in [batchChan]; every batch is in one place: stored (its rows in
    the table, in the order of the inserts), failed, held by a worker or
    still in [batchChan]; every failed batch has its error in [errorChan]
    or with a worker about to send it. *)
Definition poolInvariant (bi : BatchInserter) (batches : list (list BatchRecord))
    (db0 : DB) (pool : Pool) : Prop :=
  Z.of_nat (length (Pool_workers pool)) = BatchInserter_workers bi
  ∧ (length (Pool_errorChan pool) <= finishedCount (Pool_workers pool))%nat
  ∧ (Pool_batchChan pool ≠ [] ->
     (finishedCount (Pool_workers pool) <= length (Pool_errorChan pool))%nat)
  ∧ exists stored failed : list (list BatchRecord),
      records (Pool_db pool)
      = records db0 ++ assignIDs (records_id_seq db0) (valuesOf <$> concat stored)
      ∧ records_id_seq (Pool_db pool)
        = records_id_seq db0 + Z.of_nat (length (concat stored))
      ∧ stored ++ failed ++ heldBatches (Pool_workers pool) ++ Pool_batchChan pool
        ≡ₚ batches
      ∧ length failed
        = (length (Pool_errorChan pool) + sendingCount (Pool_workers pool))%nat.

(** A bound on the actions worker [w] has left before it returns: two
    for each batch in [batchChan] (the receive and the insert), and what
    its place in the loop still asks for. *)
Definition stepsLeft (pool : Pool) (w : nat) : nat :=
  match Pool_workers pool !! w with
  | Some Receiving => 2 * length (Pool_batchChan pool) + 1
  | Some (Inserting _) => 2 * length (Pool_batchChan pool) + 2
  | Some (Sending _) => 1
  | Some Finished => 0
  | None => 0
  end.

(** The pool in which no insert has failed. *)
Definition quietPool (pool : Pool) : Prop :=
  noFaults (Pool_db pool)
  ∧ Pool_errorChan pool = []
  ∧ sendingCount (Pool_workers pool) = 0%nat.

(** What the pool of one worker keeps true: the batches are taken in
    their order; [rest] are the batches not stored, from the one the
    worker holds or has failed on. *)
Definition sequentialPool (batches : list (list BatchRecord)) (db0 : DB) (pool : Pool)
  : Prop :=
  exists stored rest : list (list BatchRecord),
    stored ++ rest = batches
    ∧ records (Pool_db pool)
      = records db0 ++ assignIDs (records_id_seq db0) (valuesOf <$> concat stored)
    ∧ records_id_seq (Pool_db pool)
      = records_id_seq db0 + Z.of_nat (length (concat stored))
    ∧ match Pool_workers pool with
      | [Receiving] => Pool_errorChan pool = [] ∧ rest = Pool_batchChan pool
      | [Inserting batch] =>
          Pool_errorChan pool = [] ∧ rest = batch :: Pool_batchChan pool
      | [Sending _] => Pool_errorChan pool = [] ∧ rest ≠ []
      | [Finished] => Pool_errorChan pool = [] <-> rest = []
      | _ => False
      end.

(** The store that a call leaves when it returns. *)
Definition storeAfter (outcome : Process (DB * option error)) (db : DB) : DB :=
  match outcome with
  | Ends (Returns (db', _)) => db'
  | _ => db
  end.

End statements.

(** * Properties *)

(** ** Properties of the store *)
Module config_facts.
Import models config statements.

(** Reading the next fault leaves the tables and the sequences alone. *)
Lemma nextFault_tables (db : DB) :
  records (snd (nextFault db)) = records db
  ∧ reconciled_records (snd (nextFault db)) = reconciled_records db
  ∧ records_id_seq (snd (nextFault db)) = records_id_seq db
  ∧ reconciled_records_id_seq (snd (nextFault db)) = reconciled_records_id_seq db.
Proof. unfold nextFault. by destruct (faults db). Qed.

(** The next fault is the head of the script. *)
Lemma nextFault_cons (db : DB) (f : option error) (rest : list (option error)) :
  faults db = f :: rest ->
  fst (nextFault db) = f ∧ faults (snd (nextFault db)) = rest.
Proof. intros Hf. unfold nextFault. by rewrite Hf. Qed.

(** In a store without faults the next call succeeds, and so do the
    calls after it. *)
Lemma noFaults_next (db : DB) :
  noFaults db ->
  fst (nextFault db) = None ∧ noFaults (snd (nextFault db)).
Proof.
  unfold noFaults, nextFault. intros Hno.
  destruct (faults db) as [|f rest] eqn:Hf; cbn [fst snd].
  - split; [done|]. by rewrite Hf.
  - inversion Hno; subst. by split.
Qed.

(** A property of the first [n] answers holds of every stretch inside
    them. *)
Lemma Forall_take_drop {A : Type} (P : A -> Prop) (l : list A) (j k n : nat) :
  (j + k <= n)%nat ->
  Forall P (take n l) ->
  Forall P (take k (drop j l)).
Proof.
  intros Hle Hall. rewrite take_drop_commute. apply Forall_drop.
  replace (take (j + k) l) with (take (j + k) (take n l))
    by (rewrite take_take; f_equal; lia).
  by apply Forall_take.
Qed.

(** A call succeeds when the script of faults answers nil or has no
    answer left; it uses up that answer. *)
Lemma nextFault_succeeds (db : DB) :
  Forall (fun f => f = None) (take 1 (faults db)) ->
  fst (nextFault db) = None ∧ faults (snd (nextFault db)) = drop 1 (faults db).
Proof.
  unfold nextFault. destruct (faults db) as [|f rest] eqn:Hf; cbn [fst snd take drop].
  - by rewrite Hf.
  - rewrite take_0. intros Hno. by inversion Hno.
Qed.

End config_facts.

(** ** Properties of the settlement aggregator *)
Module ingest_facts.
Import ingest.

Lemma amountsOf_cons_eq (s : Settlement) (items : list Settlement) :
  amountsOf (Settlement_OrderID s) (s :: items)
  = Settlement_Amount s :: amountsOf (Settlement_OrderID s) items.
Proof.
  unfold amountsOf. rewrite filter_cons_True by done. reflexivity.
Qed.

Lemma amountsOf_cons_ne (K : string) (s : Settlement) (items : list Settlement) :
  Settlement_OrderID s ≠ K ->
  amountsOf K (s :: items) = amountsOf K items.
Proof.
  intros Hne. unfold amountsOf. rewrite filter_cons_False by done. reflexivity.
Qed.

Lemma amountsOf_absent (K : string) (items : list Settlement) :
  K ∉ Settlement_OrderID <$> items -> amountsOf K items = [].
Proof.
  induction items as [|s items IH]; intros Hnot; [reflexivity|].
  rewrite fmap_cons, not_elem_of_cons in Hnot. destruct Hnot as [Hs Hrest].
  rewrite amountsOf_cons_ne by congruence. auto.
Qed.

(** The loop invariant of the aggregation, for an arbitrary map built so
    far: a key borne by some remaining item ends with the running total
    extended by the remaining amounts, any other key is untouched. *)
Lemma aggregate_fold_lookup (items : list Settlement) :
  forall (m : gmap string float) (K : string),
    fold_left aggregateStep items m !! K =
      if decide (K ≠ "" ∧ K ∈ Settlement_OrderID <$> items)
      then Some (fold_left PrimFloat.add (amountsOf K items) (mapGet f0 m K))
      else m !! K.
Proof.
  induction items as [|s items IH]; intros m K; simpl.
  - case_decide as H; [|done]. destruct H as [_ H]. by apply elem_of_nil in H.
  - rewrite IH. clear IH.
    assert (K ∈ Settlement_OrderID <$> s :: items
            ↔ Settlement_OrderID s = K ∨ K ∈ Settlement_OrderID <$> items) as Hmem.
    { rewrite fmap_cons, elem_of_cons. intuition congruence. }
    unfold aggregateStep.
    destruct (decide (Settlement_OrderID s = "")) as [He|Hne].
    + destruct (decide (Settlement_OrderID s = K)) as [Hk|Hk].
      * subst K. repeat case_decide; intuition congruence.
      * rewrite amountsOf_cons_ne by done.
        repeat case_decide; intuition congruence.
    + destruct (decide (Settlement_OrderID s = K)) as [Hk|Hk].
      * subst K. rewrite amountsOf_cons_eq. cbn [fold_left].
        unfold mapGet at 1. rewrite lookup_insert_eq. cbn [default].
        destruct (decide (Settlement_OrderID s ∈ Settlement_OrderID <$> items))
          as [Hin|Hout].
        -- repeat case_decide; intuition congruence.
        -- rewrite (amountsOf_absent _ _ Hout). cbn [fold_left].
           repeat case_decide; intuition congruence.
      * rewrite amountsOf_cons_ne by done.
        unfold mapGet at 1. rewrite !lookup_insert_ne by done.
        repeat case_decide; intuition congruence.
Qed.

(** C2. For every list of settlement line items and every key [K], the
    aggregation holds an entry for [K] exactly when [K] is non-empty and
    some line item bears it, and that entry is the (left-to-right float64)
    sum of the [Amount] fields of all line items bearing [K]; in
    particular the empty key is never a key of the output. *)
Theorem aggregate_exact_sums (items : list Settlement) (K : string) :
  AggregateSettlementsByOrderID items !! K =
    (if decide (K ≠ "" ∧ K ∈ Settlement_OrderID <$> items)
     then Some (sumFloat (amountsOf K items))
     else None)
  ∧ AggregateSettlementsByOrderID items !! "" = None.
Proof.
  unfold AggregateSettlementsByOrderID. rewrite !aggregate_fold_lookup.
  split.
  - case_decide; done.
  - case_decide as H; [|done]. by destruct H.
Qed.

(** Two line items of 60.00 and 40.00 for ORD001, one item without order
    key: the aggregation holds 100.00 for ORD001 and nothing else. *)
Example aggregate_two_line_items :
  AggregateSettlementsByOrderID
    (sample.lineItem <$> [("ORD001", 60%float); ("", 7%float); ("ORD001", 40%float)])
  = {[ "ORD001" := 100%float ]}.
Proof. vm_compute. reflexivity. Qed.

Section NormalizerFacts.
Context `{rt : GoRuntime}.

Lemma parseFloat_default (s : string) :
  s = "" ∨ snd (strconv_ParseFloat s) ≠ None -> parseFloat s = f0.
Proof.
  intros [->|Hfail]; unfold parseFloat.
  - reflexivity.
  - case_decide; [reflexivity|].
    destruct (strconv_ParseFloat s) as [val [e|]]; [reflexivity|].
    by destruct Hfail.
Qed.

Lemma parseSettlementFloat_default (s : string) :
  s = "" ∨ snd (strconv_ParseFloat s) ≠ None -> parseSettlementFloat s = f0.
Proof.
  intros [->|Hfail]; unfold parseSettlementFloat.
  - reflexivity.
  - case_decide; [reflexivity|].
    destruct (strconv_ParseFloat s) as [val [e|]]; [reflexivity|].
    by destruct Hfail.
Qed.

(** The only error of the normalizers is the short row. *)
Lemma PaymentFromCSVRow_long_enough (now : Time) (headers row : list string) :
  (length headers <= length row)%nat ->
  exists p, PaymentFromCSVRow now headers row = Ok p
    ∧ Payment_OrderID p = mapGet "" (rowData headers row) "order id"
    ∧ Payment_Total p = parseFloat (mapGet "" (rowData headers row) "total")
    ∧ Payment_Date p =
        (let dateStr := mapGet "" (rowData headers row) "date/time" in
         if decide (dateStr = "") then zeroTime
         else spec.timestampPerSpec now "Jan 2, 2006 3:04:05 PM MST" "2006-01-02" dateStr).
Proof.
  intros Hlen. unfold PaymentFromCSVRow.
  destruct (length row <? length headers)%nat eqn:Hlt.
  - apply Nat.ltb_lt in Hlt. lia.
  - eexists. split; [reflexivity|]. cbn [Payment_OrderID Payment_Total Payment_Date].
    split; [reflexivity|]. split; reflexivity.
Qed.

Lemma PaymentFromCSVRow_short (now : Time) (headers row : list string) :
  (length row < length headers)%nat ->
  PaymentFromCSVRow now headers row = Err (Errorf "row has fewer fields than headers").
Proof.
  intros Hlen. unfold PaymentFromCSVRow.
  apply Nat.ltb_lt in Hlen. by rewrite Hlen.
Qed.

Lemma SettlementFromTSVRow_long_enough (now : Time) (headers row : list string) :
  (length headers <= length row)%nat ->
  exists st, SettlementFromTSVRow now headers row = Ok st
    ∧ Settlement_OrderID st = mapGet "" (rowData headers row) "order-id"
    ∧ Settlement_Amount st = parseSettlementFloat (mapGet "" (rowData headers row) "amount")
    ∧ Settlement_PostedDateTime st =
        (let dateStr := mapGet "" (rowData headers row) "posted-date-time" in
         if decide (dateStr = "") then zeroTime
         else spec.timestampPerSpec now "2006-01-02 15:04:05 MST" "2006-01-02 15:04:05" dateStr).
Proof.
  intros Hlen. unfold SettlementFromTSVRow.
  destruct (length row <? length headers)%nat eqn:Hlt.
  - apply Nat.ltb_lt in Hlt. lia.
  - eexists. split; [reflexivity|].
    cbn [Settlement_OrderID Settlement_Amount Settlement_PostedDateTime].
    split; [reflexivity|]. split; reflexivity.
Qed.

(** C6. Numeric parsing never surfaces an error: an empty string and a
    string that [strconv.ParseFloat] rejects both yield 0.0, in
    [parseFloat] and in [parseSettlementFloat]; and a row that is long
    enough is normalized without error whatever its numeric fields hold,
    its total (payments) or amount (settlements) being 0.0 when that field
    holds such a string. *)
Theorem numeric_fields_never_fail (s : string) :
  s = "" ∨ snd (strconv_ParseFloat s) ≠ None ->
  parseFloat s = f0 ∧ parseSettlementFloat s = f0
  ∧ forall (now : Time) (headers row : list string),
      (length headers <= length row)%nat ->
      (exists p, PaymentFromCSVRow now headers row = Ok p
         ∧ (mapGet "" (rowData headers row) "total" = s -> Payment_Total p = f0))
      ∧ (exists st, SettlementFromTSVRow now headers row = Ok st
         ∧ (mapGet "" (rowData headers row) "amount" = s -> Settlement_Amount st = f0)).
Proof.
  intros Hs. split; [by apply parseFloat_default|].
  split; [by apply parseSettlementFloat_default|].
  intros now headers row Hlen. split.
  - destruct (PaymentFromCSVRow_long_enough now headers row Hlen)
      as (p & Hp & _ & Htotal & _).
    exists p. split; [done|]. intros Hfield. rewrite Htotal, Hfield.
    by apply parseFloat_default.
  - destruct (SettlementFromTSVRow_long_enough now headers row Hlen)
      as (st & Hst & _ & Hamount & _).
    exists st. split; [done|]. intros Hfield. rewrite Hamount, Hfield.
    by apply parseSettlementFloat_default.
Qed.

(** C7, as the code has it.  A row that is long enough is normalized,
    and its timestamp follows the rule of the specification (primary
    layout, then fallback layout, then the wall clock) when the date field
    is non-empty; when the date field is empty or absent the timestamp is
    the zero [time.Time]. *)
Theorem timestamp_of_normalized_row (now : Time) (headers row : list string) :
  (length headers <= length row)%nat ->
  (exists p, PaymentFromCSVRow now headers row = Ok p
     ∧ Payment_Date p =
         (let dateStr := mapGet "" (rowData headers row) "date/time" in
          if decide (dateStr = "") then zeroTime
          else spec.timestampPerSpec now "Jan 2, 2006 3:04:05 PM MST" "2006-01-02" dateStr))
  ∧ (exists st, SettlementFromTSVRow now headers row = Ok st
     ∧ Settlement_PostedDateTime st =
         (let dateStr := mapGet "" (rowData headers row) "posted-date-time" in
          if decide (dateStr = "") then zeroTime
          else spec.timestampPerSpec now "2006-01-02 15:04:05 MST" "2006-01-02 15:04:05"
                                     dateStr)).
Proof.
  intros Hlen. split.
  - destruct (PaymentFromCSVRow_long_enough now headers row Hlen)
      as (p & Hp & _ & _ & Hdate).
    by exists p.
  - destruct (SettlementFromTSVRow_long_enough now headers row Hlen)
      as (st & Hst & _ & _ & Hdate).
    by exists st.
Qed.

End NormalizerFacts.

#[local] Existing Instance sample.runtime.

(** A numeral with a thousands separator is rejected by the sample
    runtime, so [numeric_fields_never_fail] applies to it. *)
Lemma numeric_fields_never_fail_witness :
  parseFloat (rt := sample.runtime) "1,250.00" = f0
  ∧ parseSettlementFloat (rt := sample.runtime) "1,250.00" = f0
  ∧ forall (now : Time) (headers row : list string),
      (length headers <= length row)%nat ->
      (exists p, PaymentFromCSVRow now headers row = Ok p
         ∧ (mapGet "" (rowData headers row) "total" = "1,250.00" -> Payment_Total p = f0))
      ∧ (exists st, SettlementFromTSVRow now headers row = Ok st
         ∧ (mapGet "" (rowData headers row) "amount" = "1,250.00"
            -> Settlement_Amount st = f0)).
Proof.
  apply (numeric_fields_never_fail (rt := sample.runtime) "1,250.00").
  right. vm_compute. discriminate.
Defined.

(** C7 fails as stated: a payment row whose date field is empty is
    normalized with the zero time, although the rule of the specification
    gives the wall-clock reading, which is not zero. *)
Lemma empty_date_keeps_zero_time :
  exists p,
    PaymentFromCSVRow sample.now sample.paymentHeaders sample.rowWithoutDate = Ok p
    ∧ Payment_Date p = zeroTime
    ∧ IsZero (Payment_Date p) = true
    ∧ spec.timestampPerSpec sample.now "Jan 2, 2006 3:04:05 PM MST" "2006-01-02"
        (mapGet "" (rowData sample.paymentHeaders sample.rowWithoutDate) "date/time")
      = sample.now
    ∧ Payment_Date p ≠ sample.now.
Proof.
  eexists. split; [reflexivity|].
  split; [vm_compute; reflexivity|].
  split; [vm_compute; reflexivity|].
  split; [vm_compute; reflexivity|].
  vm_compute. discriminate.
Defined.

Lemma timestamp_of_normalized_row_witness :
  (exists p,
     PaymentFromCSVRow sample.now sample.paymentHeaders sample.rowWithBadDate = Ok p
     ∧ Payment_Date p =
         (let dateStr :=
            mapGet "" (rowData sample.paymentHeaders sample.rowWithBadDate) "date/time" in
          if decide (dateStr = "") then zeroTime
          else spec.timestampPerSpec sample.now "Jan 2, 2006 3:04:05 PM MST" "2006-01-02"
                                     dateStr))
  ∧ (exists st,
     SettlementFromTSVRow sample.now sample.paymentHeaders sample.rowWithBadDate = Ok st
     ∧ Settlement_PostedDateTime st =
         (let dateStr :=
            mapGet "" (rowData sample.paymentHeaders sample.rowWithBadDate)
                   "posted-date-time" in
          if decide (dateStr = "") then zeroTime
          else spec.timestampPerSpec sample.now "2006-01-02 15:04:05 MST"
                                     "2006-01-02 15:04:05" dateStr)).
Proof.
  apply (timestamp_of_normalized_row sample.now sample.paymentHeaders
           sample.rowWithBadDate).
  simpl. lia.
Defined.

End ingest_facts.

(** ** Properties of the batch loader *)
Module db_facts.
Import models config db statements config_facts.

Lemma wrap64_small (z : Z) : - 2 ^ 63 <= z < 2 ^ 63 -> wrap64 z = z.
Proof.
  intros Hz. unfold wrap64. rewrite Z.mod_small; lia.
Qed.

Lemma slice_in_range {A : Type} (s : list A) (i j : Z) :
  0 <= i <= j -> j <= Z.of_nat (length s) ->
  slice s i j = Some (take (Z.to_nat (j - i)) (drop (Z.to_nat i) s)).
Proof.
  intros Hij Hj. unfold slice.
  destruct (0 <=? i) eqn:H0; [|apply Z.leb_gt in H0; lia].
  destruct (i <=? j) eqn:H1; [|apply Z.leb_gt in H1; lia].
  destruct (j <=? Z.of_nat (length s)) eqn:H2; [|apply Z.leb_gt in H2; lia].
  reflexivity.
Qed.

Section CreateBatches.
Variable batchSize : Z.
Variable records : list BatchRecord.
Hypothesis batchSize_pos : 1 <= batchSize < 2 ^ 63.
Hypothesis records_fit : Z.of_nat (length records) <= 2 ^ 62.

(** The loop, entered at an index [i] inside the slice that is 0 or was
    reached by adding [batchSize], with enough fuel for the records left:
    it returns, adding batches that cut the rest of the records. *)
Lemma createBatchesLoop_spec (fuel : nat) :
  forall (i : Z) (acc : list (list BatchRecord)),
    0 <= i < Z.of_nat (length records) ->
    i = 0 ∨ batchSize <= i ->
    Z.of_nat (length records) - i < Z.of_nat fuel ->
    exists rest,
      createBatchesLoop fuel batchSize records i acc = Returns (acc ++ rest)
      ∧ concat rest = drop (Z.to_nat i) records
      ∧ boundedBatches batchSize rest
      ∧ fullButLast batchSize rest.
Proof.
  induction fuel as [|fuel IH]; intros i acc Hi Hmult Hfuel; [lia|].
  cbn [createBatchesLoop].
  destruct (i <? Z.of_nat (length records)) eqn:Htest;
    [|apply Z.ltb_ge in Htest; lia].
  assert (wrap64 (i + batchSize) = i + batchSize) as ->.
  { apply wrap64_small. lia. }
  destruct (Z_lt_le_dec (i + batchSize) (Z.of_nat (length records))) as [Hmore|Hlast].
  - (* a full batch, and records are left *)
    destruct (i + batchSize >? Z.of_nat (length records)) eqn:Hcmp;
      [rewrite Z.gtb_ltb in Hcmp; apply Z.ltb_lt in Hcmp; lia|].
    rewrite slice_in_range by lia.
    destruct (IH (i + batchSize)
                 (acc ++ [take (Z.to_nat (i + batchSize - i)) (drop (Z.to_nat i) records)]))
      as (rest & Hrun & Hcat & Hbound & Hfull); [lia|lia|lia|].
    replace (i + batchSize - i) with batchSize in * by lia.
    exists (take (Z.to_nat batchSize) (drop (Z.to_nat i) records) :: rest).
    assert (length (take (Z.to_nat batchSize) (drop (Z.to_nat i) records))
            = Z.to_nat batchSize) as Hlen.
    { rewrite length_take, length_drop. lia. }
    split; [|split; [|split]].
    + rewrite Hrun, <- app_assoc. reflexivity.
    + cbn [concat]. rewrite Hcat.
      replace (Z.to_nat (i + batchSize)) with (Z.to_nat i + Z.to_nat batchSize)%nat by lia.
      rewrite <- drop_drop. apply take_drop.
    + constructor; [rewrite Hlen; lia|done].
    + intros [|k] b Hk Hlt.
      * injection Hk as <-. rewrite Hlen. lia.
      * apply (Hfull k b); [done|]. cbn [length] in Hlt. lia.
  - (* the last batch *)
    assert ((if i + batchSize >? Z.of_nat (length records)
             then Z.of_nat (length records) else i + batchSize)
            = Z.of_nat (length records)) as ->.
    { destruct (i + batchSize >? Z.of_nat (length records)) eqn:Hcmp; [done|].
      rewrite Z.gtb_ltb in Hcmp. apply Z.ltb_ge in Hcmp. lia. }
    rewrite slice_in_range by lia.
    destruct fuel as [|fuel]; [lia|]. cbn [createBatchesLoop].
    destruct (i + batchSize <? Z.of_nat (length records)) eqn:Hexit;
      [apply Z.ltb_lt in Hexit; lia|].
    exists [take (Z.to_nat (Z.of_nat (length records) - i)) (drop (Z.to_nat i) records)].
    assert (take (Z.to_nat (Z.of_nat (length records) - i)) (drop (Z.to_nat i) records)
            = drop (Z.to_nat i) records) as Hall.
    { apply take_ge. rewrite length_drop. lia. }
    split; [done|]. split; [|split].
    + cbn [concat]. rewrite app_nil_r. exact Hall.
    + constructor; [|done]. rewrite Hall, length_drop. lia.
    + intros k b _ Hlt. cbn [length] in Hlt. lia.
Qed.

(** The loop from index 0 with the fuel [createBatches] gives it. *)
Lemma createBatchesLoop_from_start :
  exists batches,
    createBatchesLoop (S (length records)) batchSize records 0 [] = Returns batches
    ∧ concat batches = records
    ∧ boundedBatches batchSize batches
    ∧ fullButLast batchSize batches.
Proof.
  assert (records = [] ∨ 0 < Z.of_nat (length records)) as [Hnil|Hsome].
  { destruct records; [by left|right; cbn [length]; lia]. }
  - exists []. rewrite Hnil. split; [reflexivity|]. split; [reflexivity|].
    split; [constructor|]. intros k b Hk. by rewrite lookup_nil in Hk.
  - destruct (createBatchesLoop_spec (S (length records)) 0 [])
      as (rest & Hrun & Hcat & Hbound & Hfull); [lia|by left|lia|].
    exists rest. by rewrite Hrun.
Qed.

End CreateBatches.

(** C3. For every record list (a Go slice: at most [2^62] records) and
    every batch size of at least 1, [createBatches] of both inserters
    returns the same batches; concatenated in order they are the record
    list itself, every batch holds between 1 and [batchSize] records, and
    every batch but the last holds exactly [batchSize]. *)
Theorem createBatches_partitions (batchSize workers : Z) (stmt : Stmt)
    (records : list BatchRecord) :
  1 <= batchSize < 2 ^ 63 ->
  Z.of_nat (length records) <= 2 ^ 62 ->
  exists batches,
    BatchInserter_createBatches (mkBatchInserter batchSize workers) records
      = Returns batches
    ∧ PreparedBatchInserter_createBatches
        (mkPreparedBatchInserter stmt batchSize workers) records = Returns batches
    ∧ concat batches = records
    ∧ boundedBatches batchSize batches
    ∧ fullButLast batchSize batches.
Proof.
  intros Hsize Hfit.
  destruct (createBatchesLoop_from_start batchSize records Hsize Hfit)
    as (batches & Hrun & Hcat & Hbound & Hfull).
  exists batches. unfold BatchInserter_createBatches, PreparedBatchInserter_createBatches.
  cbn [BatchInserter_batchSize PreparedBatchInserter_batchSize]. done.
Qed.

Lemma createBatches_partitions_witness :
  exists batches,
    BatchInserter_createBatches (mkBatchInserter 2 4) sample.fiveRecords
      = Returns batches
    ∧ PreparedBatchInserter_createBatches
        (mkPreparedBatchInserter (mkStmt insertQuery) 2 4) sample.fiveRecords
      = Returns batches
    ∧ concat batches = sample.fiveRecords
    ∧ boundedBatches 2 batches
    ∧ fullButLast 2 batches.
Proof.
  apply (createBatches_partitions 2 4 (mkStmt insertQuery) sample.fiveRecords).
  - lia.
  - cbn [length sample.fiveRecords]. lia.
Defined.

(** Five records in batches of two, no record, and one record. *)
Example createBatches_five_by_two :
  BatchInserter_createBatches (mkBatchInserter 2 4) sample.fiveRecords
  = Returns [take 2 sample.fiveRecords;
             take 2 (drop 2 sample.fiveRecords);
             drop 4 sample.fiveRecords].
Proof. reflexivity. Qed.

Example createBatches_no_record :
  BatchInserter_createBatches (mkBatchInserter 1 4) [] = Returns [].
Proof. reflexivity. Qed.

Example createBatches_one_record :
  BatchInserter_createBatches (mkBatchInserter 1000 4) (take 1 sample.fiveRecords)
  = Returns [take 1 sample.fiveRecords].
Proof. reflexivity. Qed.

(** C10. No constructor rejects its sizing parameters: a batch size of 0
    or less becomes 1000 and a worker count of 0 or less becomes 4.
    [NewBatchInserter] always returns an inserter; the two constructors
    that prepare a statement fail exactly when [Preparex] fails, with its
    error, whatever the sizes are. *)
Theorem constructors_substitute_defaults (batchSize workers : Z) (db : DB) :
  (batchSize <= 0 ->
     BatchInserter_batchSize (NewBatchInserter batchSize workers) = 1000)
  ∧ (workers <= 0 ->
     BatchInserter_workers (NewBatchInserter batchSize workers) = 4)
  ∧ match Preparex insertQuery db with
    | (db', Err e) =>
        NewPreparedBatchInserter batchSize workers db = (db', Err e)
        ∧ NewStreamingBatchInserter batchSize workers db = (db', Err e)
    | (db', Ok stmt) =>
        exists pbi sbi,
          NewPreparedBatchInserter batchSize workers db = (db', Ok pbi)
          ∧ NewStreamingBatchInserter batchSize workers db = (db', Ok sbi)
          ∧ (batchSize <= 0 ->
               PreparedBatchInserter_batchSize pbi = 1000
               ∧ StreamingBatchInserter_batchSize sbi = 1000)
          ∧ (workers <= 0 ->
               PreparedBatchInserter_workers pbi = 4
               ∧ StreamingBatchInserter_workers sbi = 4)
    end.
Proof.
  assert (forall d v : Z, v <= 0 -> (if v <=? 0 then d else v) = d) as Hdef.
  { intros d v Hv. destruct (v <=? 0) eqn:Hc; [done|]. apply Z.leb_gt in Hc. lia. }
  split; [|split].
  - intros Hb. unfold NewBatchInserter. cbn [BatchInserter_batchSize].
    by rewrite Hdef.
  - intros Hw. unfold NewBatchInserter. cbn [BatchInserter_workers].
    by rewrite Hdef.
  - unfold NewPreparedBatchInserter, NewStreamingBatchInserter.
    destruct (Preparex insertQuery db) as [db' [stmt|e]]; [|done].
    eexists _, _. split; [reflexivity|]. split; [reflexivity|].
    cbn [PreparedBatchInserter_batchSize StreamingBatchInserter_batchSize
         PreparedBatchInserter_workers StreamingBatchInserter_workers].
    split; intros Hle; by rewrite Hdef.
Qed.

Lemma constructors_substitute_defaults_witness :
  BatchInserter_batchSize (NewBatchInserter (-5) 0) = 1000
  ∧ BatchInserter_workers (NewBatchInserter (-5) 0) = 4.
Proof.
  destruct (constructors_substitute_defaults (-5) 0 sample.emptyDB) as (Hb & Hw & _).
  split; [apply Hb; lia|apply Hw; lia].
Defined.

(** *** Atomicity of a batch insert *)

(** The inserts of a transaction do not touch the table; when all of
    them succeed, the rows of the batch are pending in order. *)
Lemma execAll_pending (batch : list BatchRecord) :
  forall (tx : Tx) (db : DB),
    records (execAll batch tx db).1.1 = records db
    ∧ Tx_done (execAll batch tx db).1.2 = Tx_done tx
    ∧ ((execAll batch tx db).2 = None ->
         Tx_pending (execAll batch tx db).1.2
         = Tx_pending tx ++ assignIDs (records_id_seq db) (valuesOf <$> batch)).
Proof.
  induction batch as [|record batch IH]; intros tx db; cbn [execAll].
  - cbn. by rewrite app_nil_r.
  - unfold Tx_Exec.
    destruct (nextFault_tables db) as (Hrec & _ & Hseq & _).
    destruct (nextFault db) as [[e|] db1]; cbn [fst snd] in *.
    + by rewrite Hrec.
    + specialize (IH (mkTx (Tx_pending tx ++ assignIDs (records_id_seq db1) [valuesOf record])
                           (Tx_done tx))
                     (mkDB (records db1) (reconciled_records db1) (records_id_seq db1 + 1)
                           (reconciled_records_id_seq db1) (faults db1))).
      cbn [records records_id_seq Tx_done Tx_pending] in IH.
      destruct IH as (IHrec & IHdone & IHpend).
      split; [by rewrite IHrec|]. split; [exact IHdone|].
      intros Hok. rewrite (IHpend Hok), Hseq, <- app_assoc, fmap_cons.
      cbn [assignIDs app]. by destruct (valuesOf record) as [[[[? ?] ?] ?] ?].
Qed.

(** When the first [k] inserts succeed and the next one fails with [e],
    the loop stops with [e]. *)
Lemma execAll_first_failure (batch : list BatchRecord) :
  forall (k : nat) (e : error) (rest : list (option error)) (tx : Tx) (db : DB),
    (k < length batch)%nat ->
    faults db = replicate k None ++ Some e :: rest ->
    (execAll batch tx db).2 = Some e.
Proof.
  induction batch as [|record batch IH]; intros k e rest tx db Hk Hf;
    cbn [length] in Hk; [lia|].
  cbn [execAll]. unfold Tx_Exec.
  destruct k as [|k]; cbn [replicate app] in Hf.
  - destruct (nextFault_cons db _ _ Hf) as [Hfst _].
    destruct (nextFault db) as [f db1]. cbn [fst] in Hfst. by subst f.
  - destruct (nextFault_cons db _ _ Hf) as [Hfst Hrest].
    destruct (nextFault db) as [f db1]. cbn [fst snd] in Hfst, Hrest. subst f.
    apply (IH k e rest); [lia|done].
Qed.

(** When the store answers nil to the inserts of the batch, the loop ends
    without an error, one answer used for each record. *)
Lemma execAll_succeeds (batch : list BatchRecord) :
  forall (tx : Tx) (db : DB),
    Forall (fun f => f = None) (take (length batch) (faults db)) ->
    (execAll batch tx db).2 = None
    ∧ faults (execAll batch tx db).1.1 = drop (length batch) (faults db).
Proof.
  induction batch as [|record batch IH]; intros tx db Hno; cbn [execAll length].
  - done.
  - unfold Tx_Exec.
    assert (Forall (fun f => f = None) (take 1 (faults db))) as Hfirst.
    { replace (take 1 (faults db)) with (take 1 (take (S (length batch)) (faults db)))
        by (rewrite take_take; f_equal; lia).
      by apply Forall_take. }
    destruct (nextFault_succeeds db Hfirst) as [Hnone Hrest].
    destruct (nextFault db) as [f db1]. cbn [fst snd] in Hnone, Hrest. subst f.
    match goal with
    | |- context [execAll batch ?tx' ?db'] => destruct (IH tx' db') as [Hr Hf]
    end.
    + cbn [faults]. rewrite Hrest.
      assert (take (length batch) (drop 1 (faults db))
              = drop 1 (take (S (length batch)) (faults db))) as ->.
      { destruct (faults db) as [|f rest]; [|reflexivity].
        cbn [drop]. by rewrite !take_nil. }
      by apply Forall_drop.
    + split; [exact Hr|]. rewrite Hf. cbn [faults]. by rewrite Hrest, drop_drop.
Qed.

(** C4. A batch insert is all or nothing, in both inserters and under
    every pattern of faults: it returns nil and the table [records] has
    gained exactly the rows of the batch, or it returns an error and the
    table holds none of them.  In the prepared inserter, when the
    transaction opens, [k] inserts succeed and the next record's insert
    fails with [e], the call returns [e] and the table is as it was; in
    the ad-hoc inserter the same holds when its one statement fails.
    The batch is committed as one transaction: when the store answers nil
    to the calls of the batch (in the prepared inserter [Beginx], one
    insert for each record and [Commit]; in the ad-hoc inserter its one
    statement), the call returns nil and the table has gained the rows of
    the batch, in order, after the rows that were there; when all inserts
    succeed and [Commit] fails with [e], or [Beginx] fails with [e], the
    call returns [e] and the table is as it was. *)
Theorem insertBatch_atomic (bi : BatchInserter) (pbi : PreparedBatchInserter)
    (batch : list BatchRecord) (db : DB) :
  allOrNothing batch db (PreparedBatchInserter_insertBatch pbi batch db)
  ∧ allOrNothing batch db (BatchInserter_insertBatch bi batch db)
  ∧ (forall (k : nat) (e : error) (rest : list (option error)),
       (k < length batch)%nat ->
       faults db = None :: replicate k None ++ Some e :: rest ->
       snd (PreparedBatchInserter_insertBatch pbi batch db) = Some e
       ∧ records (fst (PreparedBatchInserter_insertBatch pbi batch db)) = records db)
  ∧ (forall (e : error) (rest : list (option error)),
       batch ≠ [] ->
       faults db = Some e :: rest ->
       snd (BatchInserter_insertBatch bi batch db) = Some e
       ∧ records (fst (BatchInserter_insertBatch bi batch db)) = records db)
  ∧ (Forall (fun f => f = None) (take (length batch + 2) (faults db)) ->
     snd (PreparedBatchInserter_insertBatch pbi batch db) = None
     ∧ records (fst (PreparedBatchInserter_insertBatch pbi batch db))
       = records db ++ assignIDs (records_id_seq db) (valuesOf <$> batch))
  ∧ (Forall (fun f => f = None) (take 1 (faults db)) ->
     snd (BatchInserter_insertBatch bi batch db) = None
     ∧ records (fst (BatchInserter_insertBatch bi batch db))
       = records db ++ assignIDs (records_id_seq db) (valuesOf <$> batch))
  ∧ (forall (e : error) (rest : list (option error)),
       batch ≠ [] ->
       faults db = None :: replicate (length batch) None ++ Some e :: rest ->
       snd (PreparedBatchInserter_insertBatch pbi batch db) = Some e
       ∧ records (fst (PreparedBatchInserter_insertBatch pbi batch db)) = records db)
  ∧ (forall (e : error) (rest : list (option error)),
       batch ≠ [] ->
       faults db = Some e :: rest ->
       snd (PreparedBatchInserter_insertBatch pbi batch db) = Some e
       ∧ records (fst (PreparedBatchInserter_insertBatch pbi batch db)) = records db).
Proof.
  assert (allOrNothing batch db (PreparedBatchInserter_insertBatch pbi batch db)) as Hprep.
  { unfold allOrNothing, PreparedBatchInserter_insertBatch.
    destruct batch as [|record batch]; [cbn; by rewrite app_nil_r|].
    unfold Beginx.
    destruct (nextFault_tables db) as (Hrec & _ & Hseq & _).
    destruct (nextFault db) as [[e|] db1]; cbn [fst snd] in *; [done|].
    destruct (execAll_pending (record :: batch) (mkTx [] false) db1)
      as (Hrec2 & Hdone & Hpend).
    destruct (execAll (record :: batch) (mkTx [] false) db1) as [[db2 tx2] [e|]];
      cbn [fst snd Tx_done Tx_pending] in *.
    - unfold Tx_Rollback. rewrite Hdone. cbn. congruence.
    - unfold Tx_Commit. rewrite Hdone.
      destruct (nextFault_tables db2) as (Hrec3 & _).
      destruct (nextFault db2) as [[e|] db3]; cbn [fst snd] in *.
      + cbn. congruence.
      + cbn. rewrite Hrec3, Hrec2, Hrec, (Hpend eq_refl), Hseq. reflexivity. }
  assert (allOrNothing batch db (BatchInserter_insertBatch bi batch db)) as Hadhoc.
  { unfold allOrNothing, BatchInserter_insertBatch.
    destruct batch as [|record batch]; [cbn; by rewrite app_nil_r|].
    unfold Exec_insert_records.
    destruct (nextFault_tables db) as (Hrec & _ & Hseq & _).
    destruct (nextFault db) as [[e|] db1]; cbn [fst snd records] in *; [done|].
    by rewrite Hrec, Hseq. }
  split; [exact Hprep|]. split; [exact Hadhoc|]. split; [|split; [|split; [|split; [|split]]]].
  - intros k e rest Hk Hf.
    assert (snd (PreparedBatchInserter_insertBatch pbi batch db) = Some e) as Herr.
    { unfold PreparedBatchInserter_insertBatch.
      destruct batch as [|record batch]; [cbn [length] in Hk; lia|].
      unfold Beginx.
      destruct (nextFault_cons db _ _ Hf) as [Hfst Hrest].
      destruct (nextFault db) as [f db1]. cbn [fst snd] in Hfst, Hrest. subst f.
      pose proof (execAll_first_failure (record :: batch) k e rest (mkTx [] false) db1
                    Hk Hrest) as Hloop.
      destruct (execAll (record :: batch) (mkTx [] false) db1) as [[db2 tx2] r].
      cbn [snd] in Hloop. subst r.
      by destruct (Tx_Rollback tx2 db2) as [[db3 tx3] r3]. }
    split; [exact Herr|]. unfold allOrNothing in Hprep. by rewrite Herr in Hprep.
  - intros e rest Hne Hf.
    assert (snd (BatchInserter_insertBatch bi batch db) = Some e) as Herr.
    { unfold BatchInserter_insertBatch.
      destruct batch as [|record batch]; [done|].
      unfold Exec_insert_records.
      destruct (nextFault_cons db _ _ Hf) as [Hfst _].
      destruct (nextFault db) as [f db1]. cbn [fst] in Hfst. by subst f. }
    split; [exact Herr|]. unfold allOrNothing in Hadhoc. by rewrite Herr in Hadhoc.
  - intros Hall.
    assert (snd (PreparedBatchInserter_insertBatch pbi batch db) = None) as Hok.
    { unfold PreparedBatchInserter_insertBatch.
      destruct batch as [|record batch]; [done|].
      unfold Beginx.
      destruct (nextFault_succeeds db) as [Hbegin Hf1];
        [by apply (Forall_take_drop _ (faults db) 0 1 (length (record :: batch) + 2));
           [cbn [length]; lia|]|].
      destruct (nextFault db) as [f db1]. cbn [fst snd] in Hbegin, Hf1. subst f.
      destruct (execAll_succeeds (record :: batch) (mkTx [] false) db1) as [Hloop Hf2].
      { rewrite Hf1.
        by apply (Forall_take_drop _ (faults db) 1 _ (length (record :: batch) + 2));
          [cbn [length]; lia|]. }
      destruct (execAll_pending (record :: batch) (mkTx [] false) db1) as (_ & Hdone & _).
      destruct (execAll (record :: batch) (mkTx [] false) db1) as [[db2 tx2] r].
      cbn [fst snd Tx_done] in Hloop, Hf2, Hdone. subst r.
      unfold Tx_Commit. rewrite Hdone.
      destruct (nextFault_succeeds db2) as [Hcommit _].
      { rewrite Hf2, Hf1, drop_drop.
        by apply (Forall_take_drop _ (faults db) _ 1 (length (record :: batch) + 2));
          [cbn [length]; lia|]. }
      destruct (nextFault db2) as [f db3]. cbn [fst] in Hcommit. by subst f. }
    split; [exact Hok|]. unfold allOrNothing in Hprep. by rewrite Hok in Hprep.
  - intros Hall.
    assert (snd (BatchInserter_insertBatch bi batch db) = None) as Hok.
    { unfold BatchInserter_insertBatch.
      destruct batch as [|record batch]; [done|].
      unfold Exec_insert_records.
      destruct (nextFault_succeeds db Hall) as [Hexec _].
      destruct (nextFault db) as [f db1]. cbn [fst] in Hexec. by subst f. }
    split; [exact Hok|]. unfold allOrNothing in Hadhoc. by rewrite Hok in Hadhoc.
  - intros e rest Hne Hf.
    assert (snd (PreparedBatchInserter_insertBatch pbi batch db) = Some e) as Herr.
    { unfold PreparedBatchInserter_insertBatch.
      destruct batch as [|record batch]; [done|].
      unfold Beginx.
      destruct (nextFault_cons db _ _ Hf) as [Hbegin Hf1].
      destruct (nextFault db) as [f db1]. cbn [fst snd] in Hbegin, Hf1. subst f.
      destruct (execAll_succeeds (record :: batch) (mkTx [] false) db1) as [Hloop Hf2].
      { rewrite Hf1, take_app_length' by (by rewrite length_replicate).
        by apply Forall_replicate. }
      destruct (execAll_pending (record :: batch) (mkTx [] false) db1) as (_ & Hdone & _).
      destruct (execAll (record :: batch) (mkTx [] false) db1) as [[db2 tx2] r].
      cbn [fst snd Tx_done] in Hloop, Hf2, Hdone. subst r.
      rewrite Hf1, drop_app_length' in Hf2 by (by rewrite length_replicate).
      unfold Tx_Commit. rewrite Hdone.
      destruct (nextFault_cons db2 _ _ Hf2) as [Hcommit _].
      destruct (nextFault db2) as [f db3]. cbn [fst] in Hcommit. by subst f. }
    split; [exact Herr|]. unfold allOrNothing in Hprep. by rewrite Herr in Hprep.
  - intros e rest Hne Hf.
    assert (snd (PreparedBatchInserter_insertBatch pbi batch db) = Some e) as Herr.
    { unfold PreparedBatchInserter_insertBatch.
      destruct batch as [|record batch]; [done|].
      unfold Beginx.
      destruct (nextFault_cons db _ _ Hf) as [Hbegin _].
      destruct (nextFault db) as [f db1]. cbn [fst] in Hbegin. by subst f. }
    split; [exact Herr|]. unfold allOrNothing in Hprep. by rewrite Herr in Hprep.
Qed.

Lemma insertBatch_atomic_witness :
  snd (PreparedBatchInserter_insertBatch (mkPreparedBatchInserter (mkStmt insertQuery) 5 4)
         sample.fiveRecords sample.thirdInsertFails) = Some sample.storeDown
  ∧ records (fst (PreparedBatchInserter_insertBatch
                    (mkPreparedBatchInserter (mkStmt insertQuery) 5 4)
                    sample.fiveRecords sample.thirdInsertFails))
    = records sample.thirdInsertFails.
Proof.
  destruct (insertBatch_atomic (mkBatchInserter 5 4)
              (mkPreparedBatchInserter (mkStmt insertQuery) 5 4)
              sample.fiveRecords sample.thirdInsertFails) as (_ & _ & Hfail & _).
  apply (Hfail 2%nat sample.storeDown []).
  - cbn [length sample.fiveRecords]. lia.
  - reflexivity.
Defined.

(** A batch whose inserts and commit succeed lands as a whole. *)
Example insertBatch_commits_five :
  (Record_OrderID <$>
     records (fst (PreparedBatchInserter_insertBatch
                     (mkPreparedBatchInserter (mkStmt insertQuery) 5 4)
                     sample.fiveRecords sample.emptyDB)))
  = ["ORD001"; "ORD002"; "ORD003"; "ORD004"; "ORD005"].
Proof. reflexivity. Qed.

End db_facts.

(** ** Properties of the payment ingestor *)
Module utils_facts.
Import models config ingest utils statements config_facts.

(** Lines that are not header lines are passed over by the scan, one
    iteration each. *)
Lemma scanHeaders_skip (lines : list (list string)) :
  forall (n : nat) (reader : Reader),
    Forall (fun line => isHeaderLine line = false) lines ->
    scanHeaders (length lines + n) ((Ok <$> lines) ++ reader) = scanHeaders n reader.
Proof.
  induction lines as [|line lines IH]; intros n reader Hnone; [reflexivity|].
  inversion Hnone as [|? ? Hline Hrest]; subst.
  cbn [length Nat.add fmap list_fmap app scanHeaders Read].
  unfold isHeaderLine in Hline. rewrite Hline. by apply IH.
Qed.

Section PaymentsFacts.
Context `{rt : GoRuntime}.

Lemma acceptedRow_iff (now : Time) (headers line : list string) :
  is_Some (acceptedRow now headers line)
  ↔ exists p, PaymentFromCSVRow now headers line = Ok p
       ∧ Payment_OrderID p ≠ ""
       ∧ PrimFloat.eqb (Payment_Total p) f0 = false.
Proof.
  unfold acceptedRow. destruct (PaymentFromCSVRow now headers line) as [p|e].
  - case_decide as Hc.
    + split; [intros _; by exists p|intros _; by eexists].
    + split; [by intros [? ?]|]. intros (p' & [= <-] & Hk & Ht). by destruct Hc.
  - split; [by intros [? ?]|]. by intros (p' & ? & _).
Qed.

(** One turn of the loop over the data rows: an accepted row is
    inserted and counted, whatever the insert returns; any other row is
    passed over. *)
Lemma storePayments_step (clock : nat -> Time) (headers : list string) (k : nat)
    (line : list string) (reader : Reader) (db : DB) (n : Z) :
  headers ≠ [] ->
  storePayments clock k headers (Ok line :: reader) db n
  = match acceptedRow (clock k) headers line with
    | Some v =>
        storePayments clock (S k) headers reader (fst (Exec_insert_records [v] db)) (n + 1)
    | None => storePayments clock (S k) headers reader db n
    end.
Proof.
  intros Hheaders. cbn [storePayments]. unfold acceptedRow.
  destruct (length line =? 0)%nat eqn:Hempty.
  { rewrite ingest_facts.PaymentFromCSVRow_short; [done|].
    apply Nat.eqb_eq in Hempty. rewrite Hempty.
    destruct headers; [done|cbn [length]; lia]. }
  destruct (PaymentFromCSVRow (clock k) headers line) as [payment|err]; [|done].
  destruct (decide (Payment_OrderID payment = "")) as [Hkey|Hkey].
  { rewrite (bool_decide_eq_true_2 _ Hkey). cbn [orb].
    destruct (decide (_ ∧ _)) as [[Hc _]|_]; [by destruct Hc|done]. }
  rewrite (bool_decide_eq_false_2 _ Hkey). cbn [orb].
  destruct (PrimFloat.eqb (Payment_Total payment) f0) eqn:Htotal.
  { destruct (decide (_ ∧ _)) as [[_ Hc]|_]; [discriminate|done]. }
  destruct (decide (_ ∧ _)) as [_|Hc]; [|by destruct Hc].
  by destruct (Exec_insert_records _ db).
Qed.

(** The count the loop reports is the number of accepted rows among the
    rows read, whatever the store does. *)
Lemma storePayments_count (clock : nat -> Time) (headers : list string)
    (reader : Reader) :
  headers ≠ [] ->
  forall (k : nat) (db : DB) (n : Z),
    snd (storePayments clock k headers reader db n)
    = n + Z.of_nat (length (acceptedRows clock k headers (rowsRead reader))).
Proof.
  intros Hheaders.
  induction reader as [|[line|e] reader IH]; intros k db n.
  - cbn. lia.
  - rewrite storePayments_step by done. cbn [rowsRead acceptedRows].
    destruct (acceptedRow (clock k) headers line) as [v|];
      rewrite IH; cbn [option_list option_rect app length]; lia.
  - cbn. lia.
Qed.

(** When the store takes every insert, the loop adds the accepted rows
    to the table, and nothing else. *)
Lemma storePayments_records (clock : nat -> Time) (headers : list string)
    (reader : Reader) :
  headers ≠ [] ->
  forall (k : nat) (db : DB) (n : Z),
    noFaults db ->
    records (fst (storePayments clock k headers reader db n))
    = records db
      ++ assignIDs (records_id_seq db) (acceptedRows clock k headers (rowsRead reader)).
Proof.
  intros Hheaders.
  induction reader as [|[line|e] reader IH]; intros k db n Hno.
  - cbn. by rewrite app_nil_r.
  - rewrite storePayments_step by done. cbn [rowsRead acceptedRows].
    destruct (acceptedRow (clock k) headers line) as [v|];
      cbn [option_list option_rect app]; [|by apply IH].
    unfold Exec_insert_records.
    destruct (noFaults_next db Hno) as [Hfst Hno1].
    destruct (nextFault_tables db) as (Hrec & _ & Hseq & _).
    destruct (nextFault db) as [f db1]. cbn [fst snd] in *. subst f.
    rewrite IH by exact Hno1. cbn [fst records records_id_seq length].
    rewrite Hrec, Hseq, <- app_assoc.
    destruct v as [[[[src oid] d] total] raw]. cbn [assignIDs app].
    by replace (records_id_seq db + Z.of_nat 1) with (records_id_seq db + 1) by lia.
  - cbn. by rewrite app_nil_r.
Qed.

(** C5. When the header is found, [ParseAndStorePayments] returns no
    error and reports the number of accepted rows among the data rows it
    reads, a row being accepted if and only if its normalization succeeds,
    its order key is non-empty and its total is non-zero; when the store
    takes every insert, the accepted rows, in file order, are exactly the
    rows added to the table [records].  A row whose total is 0.0 is
    never accepted. *)
Theorem payments_stored_iff_accepted (clock : nat -> Time) (reader reader' : Reader)
    (headers : list string) (db : DB) :
  scanHeaders 20 reader = (Ok headers, reader') ->
  headers ≠ [] ->
  snd (ParseAndStorePayments clock (Ok reader) db)
  = (None, Some (Z.of_nat (length (acceptedRows clock 0 headers (rowsRead reader')))))
  ∧ (noFaults db ->
     records (fst (ParseAndStorePayments clock (Ok reader) db))
     = records db
       ++ assignIDs (records_id_seq db) (acceptedRows clock 0 headers (rowsRead reader')))
  ∧ (forall (now : Time) (line : list string),
       is_Some (acceptedRow now headers line)
       ↔ exists p, PaymentFromCSVRow now headers line = Ok p
            ∧ Payment_OrderID p ≠ ""
            ∧ PrimFloat.eqb (Payment_Total p) f0 = false)
  ∧ (forall (now : Time) (line : list string) (p : Payment),
       PaymentFromCSVRow now headers line = Ok p ->
       Payment_Total p = 0%float ->
       acceptedRow now headers line = None).
Proof.
  intros Hscan Hheaders.
  assert (ParseAndStorePayments clock (Ok reader) db
          = (fst (storePayments clock 0 headers reader' db 0),
             (None, Some (snd (storePayments clock 0 headers reader' db 0))))) as Hrun.
  { unfold ParseAndStorePayments. rewrite Hscan.
    destruct (length headers =? 0)%nat eqn:Hlen.
    { apply Nat.eqb_eq in Hlen. by destruct headers. }
    by destruct (storePayments clock 0 headers reader' db 0). }
  rewrite Hrun. cbn [fst snd]. split; [|split; [|split]].
  - rewrite storePayments_count by done. do 3 f_equal.
  - intros Hno. by apply storePayments_records.
  - intros now line. apply acceptedRow_iff.
  - intros now line p Hnorm Hzero. unfold acceptedRow. rewrite Hnorm, Hzero.
    destruct (decide _) as [[_ Hc]|Hc]; [|done]. vm_compute in Hc. discriminate.
Qed.

(** C8, as the code has it.  The scan reads at most 20 lines.  When the
    first 20 lines are read and none is a header line, the call fails with
    the header-not-found error, whatever follows; when a read fails (or
    the input ends) before a header line is met, the call fails with the
    error of that read; in each case the store is untouched and no data
    row is processed.  A header line met within the window, after lines
    that are not header lines, is the header, and the data rows start
    after it. *)
Theorem header_scan_window (clock : nat -> Time) (db : DB)
    (lines : list (list string)) (rest : Reader) :
  Forall (fun line => isHeaderLine line = false) lines ->
  (length lines = 20%nat ->
     ParseAndStorePayments clock (Ok ((Ok <$> lines) ++ rest)) db
     = (db, (Some (Errorf "headers not found"), None)))
  ∧ ((length lines < 20)%nat ->
     (forall e : error,
        ParseAndStorePayments clock (Ok ((Ok <$> lines) ++ Err e :: rest)) db
        = (db, (Some e, None)))
     ∧ ParseAndStorePayments clock (Ok (Ok <$> lines)) db = (db, (Some io_EOF, None))
     ∧ (forall header : list string,
          isHeaderLine header = true ->
          scanHeaders 20 ((Ok <$> lines) ++ Ok header :: rest) = (Ok header, rest))).
Proof.
  intros Hnone. split.
  - intros Hlen. unfold ParseAndStorePayments.
    replace 20%nat with (length lines + 0)%nat at 1 by lia.
    by rewrite scanHeaders_skip.
  - intros Hlen.
    assert (exists m, 20%nat = (length lines + S m)%nat) as [m Hm].
    { exists (19 - length lines)%nat. lia. }
    split; [|split].
    + intros e. unfold ParseAndStorePayments.
      rewrite Hm, scanHeaders_skip by done. reflexivity.
    + unfold ParseAndStorePayments.
      rewrite <- (app_nil_r (Ok <$> lines)), Hm, scanHeaders_skip by done. reflexivity.
    + intros header Hheader. rewrite Hm, scanHeaders_skip by done.
      cbn [scanHeaders Read]. unfold isHeaderLine in Hheader. by rewrite Hheader.
Qed.

End PaymentsFacts.

#[local] Existing Instance sample.runtime.

Lemma payments_stored_iff_accepted_witness :
  snd (ParseAndStorePayments sample.clock (Ok sample.paymentFile) sample.emptyDB)
  = (None,
     Some (Z.of_nat (length (acceptedRows sample.clock 0 sample.paymentHeaders
                               (rowsRead (drop 3 sample.paymentFile))))))
  ∧ records (fst (ParseAndStorePayments sample.clock (Ok sample.paymentFile)
                    sample.emptyDB))
    = records sample.emptyDB
      ++ assignIDs (records_id_seq sample.emptyDB)
           (acceptedRows sample.clock 0 sample.paymentHeaders
              (rowsRead (drop 3 sample.paymentFile))).
Proof.
  destruct (payments_stored_iff_accepted sample.clock sample.paymentFile
              (drop 3 sample.paymentFile) sample.paymentHeaders sample.emptyDB)
    as (Hcount & Hstored & _).
  - reflexivity.
  - discriminate.
  - split; [exact Hcount|]. apply Hstored. constructor.
Defined.

(** The sample file: of its five data rows, the rows of ORD001 and
    ORD002 are stored; the row with total 0.00, the short row and the row
    without order key are not. *)
Example paymentFile_stored :
  (fun r => (Record_ID r, Record_Source r, Record_OrderID r, Record_TotalAmount r))
    <$> records (fst (ParseAndStorePayments sample.clock (Ok sample.paymentFile)
                        sample.emptyDB))
  = [(1, "payments", "ORD001", 100%float); (2, "payments", "ORD002", 150%float)]
  ∧ snd (ParseAndStorePayments sample.clock (Ok sample.paymentFile) sample.emptyDB)
    = (None, Some 2).
Proof. split; vm_compute; reflexivity. Qed.

(** C8 fails as stated: a file of three lines without a header line
    fails with the end-of-input error of the reader, not with the
    header-not-found error. *)
Lemma short_file_fails_with_EOF :
  Forall (fun line => isHeaderLine line = false) (rowsRead sample.fileWithoutHeader)
  ∧ ParseAndStorePayments sample.clock (Ok sample.fileWithoutHeader) sample.emptyDB
    = (sample.emptyDB, (Some io_EOF, None))
  ∧ io_EOF ≠ Errorf "headers not found".
Proof.
  split; [|split].
  - repeat constructor.
  - reflexivity.
  - discriminate.
Defined.

Lemma header_scan_window_witness :
  ParseAndStorePayments sample.clock
    (Ok ((Ok <$> rowsRead sample.fileWithoutHeader)
         ++ Err sample.storeDown :: sample.paymentFile)) sample.emptyDB
  = (sample.emptyDB, (Some sample.storeDown, None)).
Proof.
  destruct (header_scan_window sample.clock sample.emptyDB
              (rowsRead sample.fileWithoutHeader) sample.paymentFile) as [_ Hshort].
  - repeat constructor.
  - destruct Hshort as [Herr _].
    + cbn [length rowsRead sample.fileWithoutHeader]. lia.
    + apply Herr.
Defined.

End utils_facts.

(** ** Properties of the reconciliation engine *)
Module controllers_facts.
Import models config controllers statements.

(** The loop over the rows of the join never stops early: whatever the
    inserts meet, every row is handled, and the table [records] is not
    touched. *)
Lemma reconcile_fold (rows : list JoinRow) :
  forall db : DB,
    records (fold_left reconcileRow rows db) = records db
    ∧ reconciled_records (fold_left reconcileRow rows db)
      = reconciled_records db
        ++ insertedResults (reconciled_records_id_seq db) rows (faults db).
Proof.
  induction rows as [|row rows IH]; intros db; cbn [fold_left insertedResults].
  - by rewrite app_nil_r.
  - destruct row as [[[[paymentId orderId] paymentTotal] settlementId] settlementTotal].
    destruct (IH (reconcileRow db (paymentId, orderId, paymentTotal, settlementId,
                                   settlementTotal))) as [Hrec Hres].
    rewrite Hrec, Hres. clear IH Hrec Hres.
    unfold reconcileRow, Exec_insert_reconciled, nextFault.
    destruct (faults db) as [|[e|] fs] eqn:Hf; cbn; rewrite ?Hf; try done.
    + by rewrite <- app_assoc.
    + by rewrite <- app_assoc.
Qed.

(** Every stored result comes from a row of the join. *)
Lemma insertedResults_sound (rows : list JoinRow) :
  forall (seq : Z) (fs : list (option error)) (rr : ReconciledRecord),
    rr ∈ insertedResults seq rows fs ->
    exists orderId paymentTotal settlementTotal,
      (ReconciledRecord_PaymentsRecordID rr, orderId, paymentTotal,
       ReconciledRecord_SettlementsRecordID rr, settlementTotal) ∈ rows
      ∧ ReconciledRecord_AmountDifference rr
        = PrimFloat.sub paymentTotal settlementTotal.
Proof.
  induction rows as [|row rows IH]; intros seq fs rr Hin; cbn [insertedResults] in Hin.
  - by apply elem_of_nil in Hin.
  - destruct row as [[[[paymentId orderId] paymentTotal] settlementId] settlementTotal].
    assert (forall seq' fs', rr ∈ insertedResults seq' rows fs' ->
              exists orderId0 paymentTotal0 settlementTotal0,
                (ReconciledRecord_PaymentsRecordID rr, orderId0, paymentTotal0,
                 ReconciledRecord_SettlementsRecordID rr, settlementTotal0)
                ∈ (paymentId, orderId, paymentTotal, settlementId, settlementTotal) :: rows
                ∧ ReconciledRecord_AmountDifference rr
                  = PrimFloat.sub paymentTotal0 settlementTotal0) as Hrest.
    { intros seq' fs' Hin'. destruct (IH seq' fs' rr Hin') as (o & pt & st & Hrow & Hd).
      exists o, pt, st. split; [by apply list_elem_of_further|done]. }
    assert (rr = mkReconciledRecord seq paymentId settlementId
                   (PrimFloat.sub paymentTotal settlementTotal) ->
            exists orderId0 paymentTotal0 settlementTotal0,
              (ReconciledRecord_PaymentsRecordID rr, orderId0, paymentTotal0,
               ReconciledRecord_SettlementsRecordID rr, settlementTotal0)
              ∈ (paymentId, orderId, paymentTotal, settlementId, settlementTotal) :: rows
              ∧ ReconciledRecord_AmountDifference rr
                = PrimFloat.sub paymentTotal0 settlementTotal0) as Hhere.
    { intros ->. exists orderId, paymentTotal, settlementTotal.
      split; [apply list_elem_of_here|done]. }
    destruct fs as [|[e|] fs].
    + apply elem_of_cons in Hin as [Heq|Hin]; [by apply Hhere|by eapply Hrest].
    + by eapply Hrest.
    + apply elem_of_cons in Hin as [Heq|Hin]; [by apply Hhere|by eapply Hrest].
Qed.

(** When no insert fails, every row of the join has its result. *)
Lemma insertedResults_complete (rows : list JoinRow) :
  forall (seq : Z) (fs : list (option error))
         (paymentId : Z) (orderId : string) (paymentTotal : float)
         (settlementId : Z) (settlementTotal : float),
    Forall (fun f => f = None) fs ->
    (paymentId, orderId, paymentTotal, settlementId, settlementTotal) ∈ rows ->
    exists rr,
      rr ∈ insertedResults seq rows fs
      ∧ ReconciledRecord_PaymentsRecordID rr = paymentId
      ∧ ReconciledRecord_SettlementsRecordID rr = settlementId
      ∧ ReconciledRecord_AmountDifference rr
        = PrimFloat.sub paymentTotal settlementTotal.
Proof.
  induction rows as [|row rows IH];
    intros seq fs paymentId orderId paymentTotal settlementId settlementTotal Hno Hin.
  - by apply elem_of_nil in Hin.
  - assert (Forall (fun f => f = None) (tail fs)) as Hno'.
    { destruct fs; [done|]. by inversion Hno. }
    assert (insertedResults seq (row :: rows) fs
            = mkReconciledRecord seq row.1.1.1.1 row.1.2
                (PrimFloat.sub row.1.1.2 row.2)
              :: insertedResults (seq + 1) rows (tail fs)) as ->.
    { destruct row as [[[[a b] c] d] e]. cbn [insertedResults fst snd].
      destruct fs as [|[err|] fs]; [done| |done]. by inversion Hno. }
    apply elem_of_cons in Hin as [<-|Hin].
    + eexists. split; [apply list_elem_of_here|]. done.
    + destruct (IH (seq + 1) (tail fs) _ _ _ _ _ Hno' Hin) as (rr & Hrr & Hfields).
      exists rr. split; [by apply list_elem_of_further|done].
Qed.

(** The rows of the join are the matched pairs. *)
Lemma elem_of_joinRows (rs : list Record_) (paymentId : Z) (orderId : string)
    (paymentTotal : float) (settlementId : Z) (settlementTotal : float) :
  (paymentId, orderId, paymentTotal, settlementId, settlementTotal) ∈ joinRows rs
  ↔ exists p s,
      p ∈ rs ∧ s ∈ rs
      ∧ Record_Source p = "payments" ∧ Record_Source s = "settlements"
      ∧ Record_OrderID p = Record_OrderID s
      ∧ paymentId = Record_ID p ∧ orderId = Record_OrderID p
      ∧ paymentTotal = Record_TotalAmount p
      ∧ settlementId = Record_ID s ∧ settlementTotal = Record_TotalAmount s.
Proof.
  unfold joinRows. rewrite list_elem_of_bind. split.
  - intros (p & Hrow & Hp). apply list_elem_of_bind in Hrow as (s & Hrow & Hs).
    case_decide as Hc; [|by apply elem_of_nil in Hrow].
    apply list_elem_of_singleton in Hrow. injection Hrow as -> -> -> -> ->.
    destruct Hc as (Hk & Hsp & Hss). by exists p, s.
  - intros (p & s & Hp & Hs & Hsp & Hss & Hk & -> & -> & -> & -> & ->).
    exists p. split; [|done]. apply list_elem_of_bind. exists s. split; [|done].
    case_decide as Hc; [apply list_elem_of_singleton; done|]. by destruct Hc.
Qed.

(** Two rows of a table with distinct identifiers that have the same
    identifier are the same row. *)
Lemma same_id_same_row (rs : list Record_) (x y : Record_) :
  NoDup (Record_ID <$> rs) -> x ∈ rs -> y ∈ rs -> Record_ID x = Record_ID y -> x = y.
Proof.
  induction rs as [|r rs IH]; intros Hnd Hx Hy Hid; [by apply elem_of_nil in Hx|].
  rewrite fmap_cons in Hnd. apply NoDup_cons in Hnd as [Hfresh Hnd].
  apply elem_of_cons in Hx as [->|Hx]; apply elem_of_cons in Hy as [->|Hy].
  - reflexivity.
  - destruct Hfresh. rewrite Hid. by apply list_elem_of_fmap_2.
  - destruct Hfresh. rewrite <- Hid. by apply list_elem_of_fmap_2.
  - by apply IH.
Qed.

(** The run, step by step: the delete (its result dropped), the query
    (its error returned), then the loop from the store [db2] the query
    leaves. *)
Lemma RunReconciliation_steps (db : DB) :
  exists db2,
    records db2 = records db
    ∧ reconciled_records_id_seq db2 = reconciled_records_id_seq db
    ∧ reconciled_records db2
      = match faults db with
        | Some _ :: _ => reconciled_records db
        | _ => []
        end
    ∧ faults db2 = drop 2 (faults db)
    ∧ RunReconciliation db
      = match faults db with
        | _ :: Some e :: _ => (db2, Some e)
        | _ => (fold_left reconcileRow (joinRows (records db)) db2, None)
        end.
Proof.
  unfold RunReconciliation, Exec_delete_reconciled, Query_join, nextFault.
  destruct db as [rs rrs seq1 seq2 fs].
  destruct fs as [|[d|] [|[q|] fs]]; cbn; eexists; repeat split; reflexivity.
Qed.

(** C1. After a run in which every call to the store succeeds, over a
    table [records] whose identifiers are distinct: the run returns nil
    and leaves [records] as it was; a reconciliation result exists for an
    order key [K] if and only if [records] holds a payments row and a
    settlements row with order key [K]; every matched pair has a result
    row, and every result row belongs to a matched pair, with
    [amount_difference] the float64 difference of the payments total and
    the settlements total. *)
Theorem reconciliation_inner_join (db : DB) :
  noFaults db ->
  NoDup (Record_ID <$> records db) ->
  snd (RunReconciliation db) = None
  ∧ records (fst (RunReconciliation db)) = records db
  ∧ (forall K : string,
       (exists rr, resultFor (fst (RunReconciliation db)) K rr)
       ↔ (exists p, p ∈ records db ∧ Record_Source p = "payments" ∧ Record_OrderID p = K)
         ∧ (exists s, s ∈ records db ∧ Record_Source s = "settlements"
                      ∧ Record_OrderID s = K))
  ∧ (forall p s : Record_,
       matchedPair db p s ->
       exists rr,
         rr ∈ reconciled_records (fst (RunReconciliation db))
         ∧ ReconciledRecord_PaymentsRecordID rr = Record_ID p
         ∧ ReconciledRecord_SettlementsRecordID rr = Record_ID s
         ∧ ReconciledRecord_AmountDifference rr
           = PrimFloat.sub (Record_TotalAmount p) (Record_TotalAmount s))
  ∧ (forall rr : ReconciledRecord,
       rr ∈ reconciled_records (fst (RunReconciliation db)) ->
       exists p s,
         matchedPair db p s
         ∧ ReconciledRecord_PaymentsRecordID rr = Record_ID p
         ∧ ReconciledRecord_SettlementsRecordID rr = Record_ID s
         ∧ ReconciledRecord_AmountDifference rr
           = PrimFloat.sub (Record_TotalAmount p) (Record_TotalAmount s)).
Proof.
  intros Hno Hnd.
  destruct (RunReconciliation_steps db) as (db2 & Hrec2 & Hseq2 & Hres2 & Hf2 & Hrun).
  assert (RunReconciliation db
          = (fold_left reconcileRow (joinRows (records db)) db2, None)) as Hrun'.
  { rewrite Hrun. unfold noFaults in Hno.
    destruct (faults db) as [|d [|[e|] fs]]; try done.
    inversion Hno as [|? ? _ Hno']. by inversion Hno'. }
  assert (reconciled_records db2 = []) as Hempty.
  { rewrite Hres2. unfold noFaults in Hno.
    destruct (faults db) as [|[e|] fs]; try done. by inversion Hno. }
  assert (Forall (fun f => f = None) (faults db2)) as Hno2.
  { rewrite Hf2. by apply Forall_drop. }
  destruct (reconcile_fold (joinRows (records db)) db2) as [Hrecs Hresults].
  rewrite Hrec2 in Hrecs. rewrite Hempty, Hseq2 in Hresults. cbn [app] in Hresults.
  rewrite Hrun'. cbn [fst snd].
  assert (forall p s : Record_,
            matchedPair db p s ->
            exists rr,
              rr ∈ reconciled_records (fold_left reconcileRow (joinRows (records db)) db2)
              ∧ ReconciledRecord_PaymentsRecordID rr = Record_ID p
              ∧ ReconciledRecord_SettlementsRecordID rr = Record_ID s
              ∧ ReconciledRecord_AmountDifference rr
                = PrimFloat.sub (Record_TotalAmount p) (Record_TotalAmount s)) as Hcomplete.
  { intros p s (Hp & Hs & Hsp & Hss & Hk). rewrite Hresults.
    apply (insertedResults_complete _ _ _ _ (Record_OrderID p)); [done|].
    apply elem_of_joinRows. by exists p, s. }
  assert (forall rr : ReconciledRecord,
            rr ∈ reconciled_records (fold_left reconcileRow (joinRows (records db)) db2) ->
            exists p s,
              matchedPair db p s
              ∧ ReconciledRecord_PaymentsRecordID rr = Record_ID p
              ∧ ReconciledRecord_SettlementsRecordID rr = Record_ID s
              ∧ ReconciledRecord_AmountDifference rr
                = PrimFloat.sub (Record_TotalAmount p) (Record_TotalAmount s)) as Hsound.
  { intros rr Hrr. rewrite Hresults in Hrr.
    apply insertedResults_sound in Hrr as (o & pt & st & Hrow & Hdiff).
    apply elem_of_joinRows in Hrow
      as (p & s & Hp & Hs & Hsp & Hss & Hk & Hpid & _ & -> & Hsid & ->).
    exists p, s. by repeat split. }
  split; [reflexivity|]. split; [exact Hrecs|]. split; [|by split].
  intros K. split.
  - intros (rr & Hrr & p & s & Hp & Hs & Hpid & Hsid & HpK & HsK).
    rewrite Hrecs in Hp, Hs.
    destruct (Hsound rr Hrr) as (p0 & s0 & (Hp0 & Hs0 & Hsp & Hss & Hk) & Hpid0 & Hsid0 & _).
    assert (p = p0) as -> by (apply (same_id_same_row (records db)); congruence).
    assert (s = s0) as -> by (apply (same_id_same_row (records db)); congruence).
    split; [by exists p0|by exists s0].
  - intros [(p & Hp & Hsp & HpK) (s & Hs & Hss & HsK)].
    destruct (Hcomplete p s) as (rr & Hrr & Hpid & Hsid & _).
    { repeat split; try done. congruence. }
    exists rr. split; [exact Hrr|]. exists p, s. rewrite Hrecs. by repeat split.
Qed.

(** C9, as the code has it.  With [d], [q] and [fs] the outcomes of the
    delete, of the join query and of the inserts: a failed query aborts
    the run with its error before any insert; otherwise the run returns
    nil whatever the inserts meet, and the loop goes through every matched
    pair, a failed insert leaving no row and not stopping the loop. *)
Theorem reconciliation_ignores_insert_failures (db : DB) (d q : option error)
    (fs : list (option error)) :
  faults db = d :: q :: fs ->
  match q with
  | Some e =>
      snd (RunReconciliation db) = Some e
      ∧ reconciled_records (fst (RunReconciliation db))
        = match d with Some _ => reconciled_records db | None => [] end
  | None =>
      snd (RunReconciliation db) = None
      ∧ reconciled_records (fst (RunReconciliation db))
        = match d with Some _ => reconciled_records db | None => [] end
          ++ insertedResults (reconciled_records_id_seq db) (joinRows (records db)) fs
  end.
Proof.
  intros Hf.
  destruct (RunReconciliation_steps db) as (db2 & Hrec2 & Hseq2 & Hres2 & Hf2 & Hrun).
  rewrite Hf in Hres2, Hf2, Hrun. cbn [drop] in Hf2.
  destruct q as [e|]; rewrite Hrun; cbn [fst snd].
  - split; [reflexivity|]. rewrite Hres2. by destruct d.
  - split; [reflexivity|].
    destruct (reconcile_fold (joinRows (records db)) db2) as [_ Hresults].
    rewrite Hresults, Hres2, Hseq2, Hf2. by destruct d.
Qed.

Lemma reconciliation_inner_join_witness :
  (exists rr, resultFor (fst (RunReconciliation sample.ledger)) "ORD002" rr)
  ↔ (exists p, p ∈ records sample.ledger ∧ Record_Source p = "payments"
               ∧ Record_OrderID p = "ORD002")
    ∧ (exists s, s ∈ records sample.ledger ∧ Record_Source s = "settlements"
                 ∧ Record_OrderID s = "ORD002").
Proof.
  destruct (reconciliation_inner_join sample.ledger) as (_ & _ & Hiff & _).
  - constructor.
  - apply (bool_decide_unpack (NoDup (Record_ID <$> records sample.ledger))).
    vm_compute. exact I.
  - apply Hiff.
Defined.

(** The sample store: one result for ORD001 with difference 0, one for
    ORD002 with difference 5, none for the unsettled ORD007, and the stale
    row is gone. *)
Example ledger_reconciled :
  RunReconciliation sample.ledger
  = (mkDB sample.ledgerRecords
          [mkReconciledRecord 2 1 4 0; mkReconciledRecord 3 2 5 5] 6 4 [],
     None).
Proof. vm_compute. reflexivity. Qed.

(** The difference is signed: payments minus settlements. *)
Example difference_is_signed :
  reconcileRow sample.emptyDB (1, "ORD009", 100%float, 2, 120%float)
  = mkDB [] [mkReconciledRecord 1 1 2 (-20)%float] 1 2 [].
Proof. vm_compute. reflexivity. Qed.

(** C9 fails as stated: the insert for the first matched pair fails, and
    the run goes on to the second pair and returns nil. *)
Lemma failed_insert_does_not_abort :
  faults sample.ledgerFirstInsertFails = [None; None; Some sample.storeDown]
  ∧ RunReconciliation sample.ledgerFirstInsertFails
    = (mkDB sample.ledgerRecords [mkReconciledRecord 2 2 5 5] 6 3 [], None).
Proof. split; vm_compute; reflexivity. Defined.

Lemma reconciliation_ignores_insert_failures_witness :
  snd (RunReconciliation sample.ledgerQueryFails) = Some sample.storeDown
  ∧ reconciled_records (fst (RunReconciliation sample.ledgerQueryFails)) = [].
Proof.
  apply (reconciliation_ignores_insert_failures sample.ledgerQueryFails
           None (Some sample.storeDown) []).
  reflexivity.
Defined.

End controllers_facts.

(** * Further properties of the code *)

(** ** The field map of a row and the normalizers *)
Module ingest_more.
Import ingest.

Section FieldMap.
Context `{rt : GoRuntime}.

(** The loop that fills [data], one header further. *)
Lemma fillData_snoc (headers : list string) (h : string) :
  forall (i : nat) (row : list string) (data : gmap string string),
    fillData i (headers ++ [h]) row data
    = match row !! (i + length headers)%nat with
      | Some field =>
          <[strings_TrimSpace h := strings_TrimSpace field]> (fillData i headers row data)
      | None => fillData i headers row data
      end.
Proof.
  induction headers as [|h0 headers IH]; intros i row data; cbn [app fillData length].
  - by rewrite Nat.add_0_r.
  - rewrite IH. by replace (S i + length headers)%nat with (i + S (length headers))%nat by lia.
Qed.

(** The loop only reads the fields below [length headers]. *)
Lemma fillData_trailing (headers : list string) :
  forall (i : nat) (row extra : list string) (data : gmap string string),
    (i + length headers <= length row)%nat ->
    fillData i headers (row ++ extra) data = fillData i headers row data.
Proof.
  induction headers as [|h headers IH]; intros i row extra data Hlen;
    cbn [fillData length] in *; [reflexivity|].
  rewrite lookup_app_l by lia. destruct (row !! i); apply IH; lia.
Qed.

(** The keys of [data] are trimmed headers. *)
Lemma rowData_key_is_header (headers row : list string) (k : string) :
  is_Some (rowData headers row !! k) -> k ∈ strings_TrimSpace <$> headers.
Proof.
  unfold rowData. induction headers as [|h headers IH] using rev_ind.
  - cbn. rewrite lookup_empty. by intros [? ?].
  - rewrite fillData_snoc, fmap_app, elem_of_app. cbn [Nat.add fmap list_fmap].
    destruct (row !! length headers) as [field|]; [|by left; apply IH].
    destruct (decide (strings_TrimSpace h = k)) as [<-|Hk].
    + intros _. right. apply list_elem_of_here.
    + rewrite lookup_insert_ne by done. by left; apply IH.
Qed.

(** X1. Field mapping by header name: when the trimmed headers are
    pairwise distinct, the field map of a row holds, under the trimmed
    header of column [i], the trimmed field of column [i]. *)
Theorem rowData_lookup_distinct (headers row : list string) (i : nat) (h field : string) :
  NoDup (strings_TrimSpace <$> headers) ->
  headers !! i = Some h ->
  row !! i = Some field ->
  rowData headers row !! strings_TrimSpace h = Some (strings_TrimSpace field).
Proof.
  unfold rowData. revert i h field.
  induction headers as [|h0 headers IH] using rev_ind; intros i h field Hnd Hh Hf.
  - by rewrite lookup_nil in Hh.
  - rewrite fmap_app in Hnd. apply NoDup_app in Hnd as (Hnd & Hfresh & _).
    rewrite fillData_snoc. cbn [Nat.add].
    destruct (decide (i = length headers)) as [->|Hi].
    + rewrite list_lookup_middle in Hh by done. injection Hh as ->.
      rewrite Hf. apply lookup_insert_eq.
    + assert (headers !! i = Some h) as Hh'.
      { apply lookup_lt_Some in Hh as Hlt. rewrite length_app in Hlt. cbn in Hlt.
        rewrite lookup_app_l in Hh by lia. done. }
      assert (strings_TrimSpace h0 ≠ strings_TrimSpace h) as Hne.
      { intros Heq. apply (Hfresh (strings_TrimSpace h)).
        - apply list_elem_of_fmap_2. by eapply list_elem_of_lookup_2.
        - rewrite <- Heq. cbn. apply list_elem_of_here. }
      destruct (row !! length headers); [rewrite lookup_insert_ne by done|];
        by eapply IH.
Qed.

(** X2. A header that occurs twice: the later column wins. *)
Theorem rowData_last_column_wins (headers row : list string) (h field : string) :
  row !! length headers = Some field ->
  rowData (headers ++ [h]) row !! strings_TrimSpace h = Some (strings_TrimSpace field).
Proof.
  intros Hf. unfold rowData. rewrite fillData_snoc. cbn [Nat.add].
  rewrite Hf. apply lookup_insert_eq.
Qed.

(** X3. Fields beyond the last header are ignored: both normalizers
    give the same record with and without them. *)
Theorem normalizers_ignore_trailing_fields (now : Time) (headers row extra : list string) :
  (length headers <= length row)%nat ->
  PaymentFromCSVRow now headers (row ++ extra) = PaymentFromCSVRow now headers row
  ∧ SettlementFromTSVRow now headers (row ++ extra) = SettlementFromTSVRow now headers row.
Proof.
  intros Hlen.
  assert (rowData headers (row ++ extra) = rowData headers row) as Hdata.
  { unfold rowData. apply fillData_trailing. cbn. lia. }
  assert ((length (row ++ extra) <? length headers)%nat = false) as Hlong.
  { apply Nat.ltb_ge. rewrite length_app. lia. }
  assert ((length row <? length headers)%nat = false) as Hlong' by (apply Nat.ltb_ge; lia).
  unfold PaymentFromCSVRow, SettlementFromTSVRow.
  by rewrite Hlong, Hlong', Hdata.
Qed.

(** X4. A column the header does not name reads as the empty string:
    when no trimmed header is ["order id"], every normalized payment has an
    empty order key, and when none is ["total"] its total is 0.0. *)
Theorem missing_column_reads_empty (now : Time) (headers row : list string) (p : Payment) :
  PaymentFromCSVRow now headers row = Ok p ->
  ("order id" ∉ strings_TrimSpace <$> headers -> Payment_OrderID p = "")
  ∧ ("total" ∉ strings_TrimSpace <$> headers -> Payment_Total p = f0).
Proof.
  unfold PaymentFromCSVRow. destruct (length row <? length headers)%nat; [done|].
  intros [= <-]. cbn [Payment_OrderID Payment_Total].
  assert (forall k, k ∉ strings_TrimSpace <$> headers ->
                    mapGet "" (rowData headers row) k = "") as Hmiss.
  { intros k Hk. unfold mapGet.
    destruct (rowData headers row !! k) as [v|] eqn:Hv; [|done].
    destruct Hk. apply (rowData_key_is_header headers row). by rewrite Hv. }
  split; intros Hk; rewrite (Hmiss _ Hk); reflexivity.
Qed.

End FieldMap.

(** X5. Line items without order key do not count: the aggregation of a
    list is the aggregation of its items with a non-empty order key. *)
Theorem aggregate_skips_empty_keys (items : list Settlement) :
  AggregateSettlementsByOrderID (filter (fun s => Settlement_OrderID s ≠ "") items)
  = AggregateSettlementsByOrderID items.
Proof.
  unfold AggregateSettlementsByOrderID. generalize (∅ : gmap string float).
  induction items as [|s items IH]; intros m; [reflexivity|].
  destruct (decide (Settlement_OrderID s = "")) as [He|Hne].
  - rewrite filter_cons_False by (intros H; by apply H).
    cbn [fold_left]. rewrite IH. f_equal. unfold aggregateStep. by case_decide.
  - rewrite filter_cons_True by done. cbn [fold_left]. apply IH.
Qed.

#[local] Existing Instance sample.runtime.

Lemma rowData_lookup_distinct_witness :
  rowData sample.paymentHeaders sample.rowWithBadDate !! strings_TrimSpace "order id"
  = Some (strings_TrimSpace "ORD001").
Proof.
  apply (rowData_lookup_distinct sample.paymentHeaders sample.rowWithBadDate 1
           "order id" "ORD001").
  - apply (bool_decide_unpack (NoDup (strings_TrimSpace <$> sample.paymentHeaders))).
    vm_compute. exact I.
  - reflexivity.
  - reflexivity.
Defined.

Lemma rowData_last_column_wins_witness :
  rowData (["total"; "order id"] ++ ["total"]) ["1.00"; "ORD001"; "2.00"]
    !! strings_TrimSpace "total"
  = Some (strings_TrimSpace "2.00").
Proof.
  apply (rowData_last_column_wins ["total"; "order id"] ["1.00"; "ORD001"; "2.00"]
           "total" "2.00").
  reflexivity.
Defined.

Lemma normalizers_ignore_trailing_fields_witness :
  PaymentFromCSVRow sample.now sample.paymentHeaders (sample.rowWithBadDate ++ ["x"; "y"])
  = PaymentFromCSVRow sample.now sample.paymentHeaders sample.rowWithBadDate
  ∧ SettlementFromTSVRow sample.now sample.paymentHeaders (sample.rowWithBadDate ++ ["x"; "y"])
    = SettlementFromTSVRow sample.now sample.paymentHeaders sample.rowWithBadDate.
Proof.
  apply (normalizers_ignore_trailing_fields sample.now sample.paymentHeaders
           sample.rowWithBadDate ["x"; "y"]).
  cbn. lia.
Defined.

Lemma missing_column_reads_empty_witness :
  exists p,
    PaymentFromCSVRow sample.now ["date/time"; "Order ID"; "total"]
                      ["2026-03-01"; "ORD001"; "100.00"] = Ok p
    ∧ Payment_OrderID p = "".
Proof.
  eexists. split; [reflexivity|].
  eapply (missing_column_reads_empty sample.now ["date/time"; "Order ID"; "total"]
            ["2026-03-01"; "ORD001"; "100.00"]).
  - reflexivity.
  - apply (bool_decide_unpack
             ("order id" ∉ strings_TrimSpace <$> ["date/time"; "Order ID"; "total"])).
    vm_compute. exact I.
Defined.

End ingest_more.

(** ** The batch loader: batch counts, degenerate sizes, streaming *)
Module db_more.
Import models config db statements config_facts.

Lemma assignIDs_app (seq : Z) (a b : list RecordValues) :
  assignIDs seq (a ++ b) = assignIDs seq a ++ assignIDs (seq + Z.of_nat (length a)) b.
Proof.
  revert seq. induction a as [|v a IH]; intros seq; cbn [app length assignIDs].
  - f_equal. lia.
  - destruct v as [[[[src oid] d] total] raw]. cbn [app]. f_equal.
    rewrite IH. do 2 f_equal. lia.
Qed.

(** The records of batches that are full but for the last one. *)
Lemma full_batches_length (batchSize : Z) (batches : list (list BatchRecord)) :
  boundedBatches batchSize batches ->
  fullButLast batchSize batches ->
  batches ≠ [] ->
  exists l : Z,
    1 <= l <= batchSize
    ∧ Z.of_nat (length (concat batches))
      = (Z.of_nat (length batches) - 1) * batchSize + l.
Proof.
  induction batches as [|b batches IH]; intros Hbound Hfull Hne; [done|].
  inversion Hbound as [|? ? Hb Hbound']; subst.
  destruct batches as [|b' batches].
  - exists (Z.of_nat (length b)). cbn [concat length]. rewrite app_nil_r. lia.
  - destruct IH as (l & Hl & Hlen); [done| |done|].
    { intros k c Hk Hlt. apply (Hfull (S k) c); [done|]. cbn [length] in *. lia. }
    exists l. split; [done|].
    assert (Z.of_nat (length b) = batchSize) as Hfullb.
    { apply (Hfull 0%nat b); [done|]. cbn [length]. lia. }
    cbn [concat] in *. rewrite length_app. cbn [length] in *. lia.
Qed.

(** X6. The number of batches: [createBatches] cuts [n] records into
    [ceil(n / batchSize)] batches. *)
Theorem createBatches_count (bi : BatchInserter) (records : list BatchRecord) :
  1 <= BatchInserter_batchSize bi < 2 ^ 63 ->
  Z.of_nat (length records) <= 2 ^ 62 ->
  exists batches,
    BatchInserter_createBatches bi records = Returns batches
    ∧ Z.of_nat (length batches)
      = (Z.of_nat (length records) + BatchInserter_batchSize bi - 1)
        / BatchInserter_batchSize bi.
Proof.
  intros Hsize Hfit.
  destruct (db_facts.createBatchesLoop_from_start (BatchInserter_batchSize bi) records
              Hsize Hfit) as (batches & Hrun & Hcat & Hbound & Hfull).
  exists batches. split; [exact Hrun|].
  destruct batches as [|b batches].
  - cbn in Hcat. subst records. cbn [length]. symmetry. apply Z.div_small. lia.
  - destruct (full_batches_length _ _ Hbound Hfull) as (l & Hl & Hlen); [done|].
    rewrite Hcat in Hlen. rewrite Hlen.
    replace ((Z.of_nat (length (b :: batches)) - 1) * BatchInserter_batchSize bi + l
             + BatchInserter_batchSize bi - 1)
      with ((l - 1) + Z.of_nat (length (b :: batches)) * BatchInserter_batchSize bi) by lia.
    rewrite Z.div_add by lia. rewrite Z.div_small by lia. lia.
Qed.

(** X7. Whatever sizes are asked for, an inserter made by
    [NewBatchInserter] cuts every record list: the batches are returned,
    and concatenated they are the record list. *)
Theorem constructed_inserter_always_partitions (batchSize workers : Z)
    (records : list BatchRecord) :
  - 2 ^ 63 <= batchSize < 2 ^ 63 ->
  Z.of_nat (length records) <= 2 ^ 62 ->
  exists batches,
    BatchInserter_createBatches (NewBatchInserter batchSize workers) records
      = Returns batches
    ∧ concat batches = records
    ∧ Forall (fun b => b ≠ []) batches.
Proof.
  intros Hint Hfit.
  assert (1 <= BatchInserter_batchSize (NewBatchInserter batchSize workers) < 2 ^ 63)
    as Hsize.
  { unfold NewBatchInserter, DefaultBatchSize. cbn [BatchInserter_batchSize].
    destruct (batchSize <=? 0) eqn:Hle; [lia|]. apply Z.leb_gt in Hle. lia. }
  destruct (db_facts.createBatchesLoop_from_start _ records Hsize Hfit)
    as (batches & Hrun & Hcat & Hbound & _).
  exists batches. split; [exact Hrun|]. split; [exact Hcat|].
  eapply Forall_impl; [exact Hbound|]. intros b Hb ->. cbn in Hb. lia.
Qed.

(** The loop of [createBatches] with batch size 0 stays at index 0. *)
Lemma createBatchesLoop_zero (records : list BatchRecord) (fuel : nat) :
  records ≠ [] ->
  forall acc, createBatchesLoop fuel 0 records 0 acc = OutOfFuel.
Proof.
  intros Hne. induction fuel as [|fuel IH]; intros acc; [reflexivity|].
  cbn [createBatchesLoop].
  destruct (0 <? Z.of_nat (length records)) eqn:Hlt.
  2:{ apply Z.ltb_ge in Hlt. destruct records; [done|cbn [length] in Hlt; lia]. }
  replace (wrap64 (0 + 0)) with 0 by reflexivity.
  destruct (0 >? Z.of_nat (length records)) eqn:Hgt.
  { rewrite Z.gtb_ltb in Hgt. apply Z.ltb_lt in Hgt. lia. }
  apply Z.ltb_lt in Hlt. rewrite db_facts.slice_in_range by lia. apply IH.
Qed.

(** X8. Why the constructors replace the sizes: on a non-empty record
    list, the loop of [createBatches] with batch size 0 never ends
    (whatever the fuel), and with a negative batch size it panics on its
    first slice expression. *)
Theorem createBatches_degenerate_sizes (workers batchSize : Z) (records : list BatchRecord) :
  records ≠ [] ->
  (forall fuel : nat, createBatchesLoop fuel 0 records 0 [] = OutOfFuel)
  ∧ (- 2 ^ 63 <= batchSize < 0 ->
     BatchInserter_createBatches (mkBatchInserter batchSize workers) records = Panics).
Proof.
  intros Hne. split.
  - intros fuel. by apply createBatchesLoop_zero.
  - intros Hneg. unfold BatchInserter_createBatches. cbn [BatchInserter_batchSize createBatchesLoop].
    destruct (0 <? Z.of_nat (length records)) eqn:Hlt.
    2:{ apply Z.ltb_ge in Hlt. destruct records; [done|cbn [length] in Hlt; lia]. }
    rewrite db_facts.wrap64_small by lia. rewrite Z.add_0_l.
    destruct (batchSize >? Z.of_nat (length records)) eqn:Hgt.
    { rewrite Z.gtb_ltb in Hgt. apply Z.ltb_lt in Hgt. lia. }
    unfold slice. destruct (0 <=? batchSize) eqn:Hle; [apply Z.leb_le in Hle; lia|].
    reflexivity.
Qed.

(** *** Streaming inserts *)

(** When all the inserts of a transaction succeed, each has drawn one
    identifier. *)
Lemma execAll_seq (batch : list BatchRecord) :
  forall (tx : Tx) (db : DB),
    (execAll batch tx db).2 = None ->
    records_id_seq (execAll batch tx db).1.1
    = records_id_seq db + Z.of_nat (length batch).
Proof.
  induction batch as [|record batch IH]; intros tx db; cbn [execAll length].
  - intros _. cbn. lia.
  - unfold Tx_Exec.
    destruct (nextFault_tables db) as (_ & _ & Hseq & _).
    destruct (nextFault db) as [[e|] db1]; cbn [fst snd] in *; [done|].
    intros Hok. rewrite IH by exact Hok. cbn [records_id_seq]. lia.
Qed.

(** In a store without faults all the inserts of a transaction succeed. *)
Lemma execAll_noFaults (batch : list BatchRecord) :
  forall (tx : Tx) (db : DB),
    noFaults db ->
    (execAll batch tx db).2 = None ∧ noFaults (execAll batch tx db).1.1.
Proof.
  induction batch as [|record batch IH]; intros tx db Hno; cbn [execAll].
  - done.
  - unfold Tx_Exec. destruct (noFaults_next db Hno) as [Hfst Hno1].
    destruct (nextFault db) as [f db1]. cbn [fst snd] in *. subst f.
    by apply IH.
Qed.

(** What one streaming batch insert does to the table and to the
    sequence, and that it succeeds in a store without faults. *)
Lemma stream_insertBatch_outcome (sbi : StreamingBatchInserter)
    (batch : list BatchRecord) (db : DB) :
  match (StreamingBatchInserter_insertBatch sbi batch db).2 with
  | None =>
      records (StreamingBatchInserter_insertBatch sbi batch db).1
      = records db ++ assignIDs (records_id_seq db) (valuesOf <$> batch)
      ∧ records_id_seq (StreamingBatchInserter_insertBatch sbi batch db).1
        = records_id_seq db + Z.of_nat (length batch)
  | Some _ => records (StreamingBatchInserter_insertBatch sbi batch db).1 = records db
  end
  ∧ (noFaults db ->
     (StreamingBatchInserter_insertBatch sbi batch db).2 = None
     ∧ noFaults (StreamingBatchInserter_insertBatch sbi batch db).1).
Proof.
  unfold StreamingBatchInserter_insertBatch.
  destruct batch as [|record batch].
  { cbn. rewrite app_nil_r. repeat split; [lia|done]. }
  remember (record :: batch) as b eqn:Hb. clear Hb. unfold Beginx.
  destruct (nextFault_tables db) as (Hrec & _ & Hseq & _).
  pose proof (noFaults_next db) as Hnext.
  destruct (nextFault db) as [[e|] db1]; cbn [fst snd] in *.
  { split; [done|]. intros Hno. by destruct (Hnext Hno). }
  destruct (db_facts.execAll_pending b (mkTx [] false) db1) as (Hrec2 & Hdone & Hpend).
  pose proof (execAll_seq b (mkTx [] false) db1) as Hseq2.
  pose proof (execAll_noFaults b (mkTx [] false) db1) as Hno2.
  destruct (execAll b (mkTx [] false) db1) as [[db2 tx2] [e|]];
    cbn [fst snd Tx_done Tx_pending] in *.
  - unfold Tx_Rollback. rewrite Hdone. cbn [fst snd]. split; [congruence|].
    intros Hno. destruct (Hnext Hno) as [_ Hno1]. by destruct (Hno2 Hno1).
  - unfold Tx_Commit, Tx_Rollback. rewrite Hdone.
    destruct (nextFault_tables db2) as (Hrec3 & _ & Hseq3 & _).
    pose proof (noFaults_next db2) as Hnext2.
    destruct (nextFault db2) as [[e|] db3]; cbn [fst snd Tx_done records records_id_seq] in *.
    + split; [congruence|]. intros Hno. destruct (Hnext Hno) as [_ Hno1].
      destruct (Hno2 Hno1) as [_ Hno3]. by destruct (Hnext2 Hno3).
    + split.
      * split; [|rewrite Hseq3, (Hseq2 eq_refl); lia].
        rewrite Hrec3, Hrec2, Hrec, (Hpend eq_refl), Hseq. reflexivity.
      * intros Hno. split; [done|]. destruct (Hnext Hno) as [_ Hno1].
        destruct (Hno2 Hno1) as [_ Hno3]. by destruct (Hnext2 Hno3).
Qed.

(** The loop of [StreamInsertRecords], entered with a buffer that is
    not full: the table gains the first [n] of the buffered and coming
    records, all of them on a nil error, a whole number of batches on an
    error. *)
Lemma streamLoop_prefix (sbi : StreamingBatchInserter) (recordChan : list BatchRecord) :
  1 <= StreamingBatchInserter_batchSize sbi ->
  forall (batch : list BatchRecord) (db : DB),
    Z.of_nat (length batch) < StreamingBatchInserter_batchSize sbi ->
    exists n : nat,
      records (streamLoop sbi recordChan batch db).1
      = records db
        ++ assignIDs (records_id_seq db) (valuesOf <$> take n (batch ++ recordChan))
      ∧ match (streamLoop sbi recordChan batch db).2 with
        | None => n = length (batch ++ recordChan)
        | Some _ =>
            (n < length (batch ++ recordChan))%nat
            ∧ Z.of_nat n mod StreamingBatchInserter_batchSize sbi = 0
        end
      ∧ (noFaults db -> (streamLoop sbi recordChan batch db).2 = None).
Proof.
  intros Hsize.
  induction recordChan as [|record rest IH]; intros batch db Hroom; cbn [streamLoop].
  - rewrite app_nil_r.
    destruct (0 <? length batch)%nat eqn:Hsome.
    + destruct (stream_insertBatch_outcome sbi batch db) as [Hout Hno].
      destruct (StreamingBatchInserter_insertBatch sbi batch db) as [db' [e|]];
        cbn [fst snd] in *.
      * exists 0%nat. cbn [take fmap list_fmap assignIDs]. rewrite app_nil_r.
        split; [done|]. split; [|intros H; by destruct (Hno H)].
        apply Nat.ltb_lt in Hsome. split; [lia|]. by rewrite Z.mod_0_l by lia.
      * exists (length batch). rewrite firstn_all. destruct Hout as [Hrec _].
        split; [done|]. split; [done|]. intros H. by destruct (Hno H).
    + exists 0%nat. apply Nat.ltb_ge in Hsome.
      destruct batch; [|cbn [length] in Hsome; lia].
      cbn. rewrite app_nil_r. done.
  - destruct (Z.of_nat (length (batch ++ [record])) >=? StreamingBatchInserter_batchSize sbi)
      eqn:Hfull.
    + assert (Z.of_nat (length (batch ++ [record])) = StreamingBatchInserter_batchSize sbi)
        as Hlen.
      { rewrite Z.geb_leb in Hfull. apply Z.leb_le in Hfull.
        rewrite length_app in *. cbn [length] in *. lia. }
      destruct (stream_insertBatch_outcome sbi (batch ++ [record]) db) as [Hout Hno].
      destruct (StreamingBatchInserter_insertBatch sbi (batch ++ [record]) db)
        as [db' [e|]]; cbn [fst snd] in *.
      * exists 0%nat. cbn [take fmap list_fmap assignIDs]. rewrite app_nil_r.
        split; [done|]. split; [|intros H; by destruct (Hno H)].
        split; [rewrite length_app; cbn [length]; lia|]. by rewrite Z.mod_0_l by lia.
      * destruct Hout as [Hrec Hseq].
        destruct (IH [] db') as (n & Hrecs & Hres & Hnf); [cbn [length]; lia|].
        cbn [app] in Hrecs, Hres.
        exists (length (batch ++ [record]) + n)%nat.
        replace (batch ++ record :: rest) with ((batch ++ [record]) ++ rest)
          by (by rewrite <- app_assoc).
        split; [|split].
        -- rewrite Hrecs, Hrec, Hseq, <- app_assoc. f_equal.
           rewrite take_app_add, (fmap_app valuesOf (batch ++ [record]) (take n rest)).
           rewrite assignIDs_app, length_fmap. reflexivity.
        -- destruct ((streamLoop sbi rest [] db').2) as [e|].
           ++ destruct Hres as [Hlt Hmod].
              split; [rewrite (length_app (batch ++ [record]) rest); lia|].
              rewrite Nat2Z.inj_add, Hlen, <- Zplus_mod_idemp_l, Z_mod_same_full.
              exact Hmod.
           ++ rewrite (length_app (batch ++ [record]) rest). lia.
        -- intros H. destruct (Hno H) as [_ Hno']. by apply Hnf.
    + rewrite Z.geb_leb in Hfull. apply Z.leb_gt in Hfull.
      destruct (IH (batch ++ [record]) db) as (n & Hrecs & Hres & Hnf); [lia|].
      exists n. by rewrite <- app_assoc in Hrecs, Hres.
Qed.

(** X9. Streaming, when the runtime obtains the buffer and the store
    takes every call: for a batch size from 1 within the limit of [make],
    the call returns nil and the table gains the rows of all the records
    the channel delivered, in the order of delivery. *)
Theorem StreamInsertRecords_stores_all (sbi : StreamingBatchInserter)
    (recordChan : list BatchRecord) (db : DB) :
  1 <= StreamingBatchInserter_batchSize sbi ->
  StreamingBatchInserter_batchSize sbi * sizeofBatchRecord <= maxAlloc ->
  noFaults db ->
  exists db',
    StreamInsertRecords sbi true recordChan db = Ends (Returns (db', None))
    ∧ records db'
      = records db ++ assignIDs (records_id_seq db) (valuesOf <$> recordChan).
Proof.
  intros Hsize Hmem Hno. unfold StreamInsertRecords, makeslicePanics.
  destruct (StreamingBatchInserter_batchSize sbi <? 0) eqn:H0;
    [apply Z.ltb_lt in H0; lia|].
  destruct (maxAlloc <? StreamingBatchInserter_batchSize sbi * sizeofBatchRecord) eqn:H1;
    [apply Z.ltb_lt in H1; lia|].
  cbn [orb negb]. rewrite andb_false_r.
  destruct (streamLoop_prefix sbi recordChan Hsize [] db) as (n & Hrecs & Hres & Hnf);
    [cbn [length]; lia|].
  specialize (Hnf Hno).
  destruct (streamLoop sbi recordChan [] db) as [db' r]. cbn [fst snd app] in *.
  subst r. subst n. exists db'. split; [done|]. by rewrite firstn_all in Hrecs.
Qed.

(** X10. Streaming, whatever fails: when the call returns an error, the
    table has gained the rows of a whole number of batches from the front
    of the delivered records, and not all of them; no row of the batch
    that failed, nor of a later record, is in the table. *)
Theorem StreamInsertRecords_error_keeps_whole_batches (sbi : StreamingBatchInserter)
    (obtained : bool) (recordChan : list BatchRecord) (db db' : DB) (e : error) :
  1 <= StreamingBatchInserter_batchSize sbi ->
  StreamInsertRecords sbi obtained recordChan db = Ends (Returns (db', Some e)) ->
  exists j : nat,
    (Z.of_nat j * StreamingBatchInserter_batchSize sbi < Z.of_nat (length recordChan))
    ∧ records db'
      = records db
        ++ assignIDs (records_id_seq db)
             (valuesOf <$> take (j * Z.to_nat (StreamingBatchInserter_batchSize sbi))
                                recordChan).
Proof.
  intros Hsize. unfold StreamInsertRecords.
  destruct (makeslicePanics _); [done|]. destruct (_ && _); [done|]. intros [= Hrun].
  destruct (streamLoop_prefix sbi recordChan Hsize [] db) as (n & Hrecs & Hres & _);
    [cbn [length]; lia|].
  rewrite Hrun in Hrecs, Hres. cbn [fst snd app] in *. destruct Hres as [Hlt Hmod].
  apply Z.mod_divide in Hmod as [q Hq]; [|lia].
  assert (0 <= q) by nia.
  exists (Z.to_nat q). split; [nia|].
  rewrite Hrecs. do 3 f_equal.
  rewrite <- Z2Nat.inj_mul by lia. rewrite <- Hq. by rewrite Nat2Z.id.
Qed.

Lemma createBatches_count_witness :
  exists batches,
    BatchInserter_createBatches (mkBatchInserter 2 4) sample.fiveRecords = Returns batches
    ∧ Z.of_nat (length batches) = (Z.of_nat (length sample.fiveRecords) + 2 - 1) / 2.
Proof.
  apply (createBatches_count (mkBatchInserter 2 4) sample.fiveRecords).
  - cbn [BatchInserter_batchSize]. lia.
  - cbn [length sample.fiveRecords]. lia.
Defined.

Lemma constructed_inserter_always_partitions_witness :
  exists batches,
    BatchInserter_createBatches (NewBatchInserter (-3) 0) sample.fiveRecords
      = Returns batches
    ∧ concat batches = sample.fiveRecords
    ∧ Forall (fun b => b ≠ []) batches.
Proof.
  apply (constructed_inserter_always_partitions (-3) 0 sample.fiveRecords).
  - lia.
  - cbn [length sample.fiveRecords]. lia.
Defined.

Lemma createBatches_degenerate_sizes_witness :
  (forall fuel : nat, createBatchesLoop fuel 0 sample.fiveRecords 0 [] = OutOfFuel)
  ∧ BatchInserter_createBatches (mkBatchInserter (-1) 4) sample.fiveRecords = Panics.
Proof.
  destruct (createBatches_degenerate_sizes 4 (-1) sample.fiveRecords) as [Hloop Hpanic].
  - discriminate.
  - split; [exact Hloop|]. apply Hpanic. lia.
Defined.

Lemma StreamInsertRecords_stores_all_witness :
  exists db',
    StreamInsertRecords (mkStreamingBatchInserter 2 4 (mkStmt insertQuery)) true
                        sample.fiveRecords sample.emptyDB = Ends (Returns (db', None))
    ∧ records db'
      = records sample.emptyDB
        ++ assignIDs (records_id_seq sample.emptyDB) (valuesOf <$> sample.fiveRecords).
Proof.
  apply (StreamInsertRecords_stores_all (mkStreamingBatchInserter 2 4 (mkStmt insertQuery))
           sample.fiveRecords sample.emptyDB).
  - cbn [StreamingBatchInserter_batchSize]. lia.
  - vm_compute. discriminate.
  - constructor.
Defined.

Lemma StreamInsertRecords_error_keeps_whole_batches_witness :
  exists j : nat,
    (Z.of_nat j * 2 < Z.of_nat (length sample.fiveRecords))
    ∧ records (streamLoop (mkStreamingBatchInserter 2 4 (mkStmt insertQuery))
                 sample.fiveRecords [] sample.secondCommitFails).1
      = records sample.secondCommitFails
        ++ assignIDs (records_id_seq sample.secondCommitFails)
             (valuesOf <$> take (j * Z.to_nat 2) sample.fiveRecords).
Proof.
  apply (StreamInsertRecords_error_keeps_whole_batches
           (mkStreamingBatchInserter 2 4 (mkStmt insertQuery)) true
           sample.fiveRecords sample.secondCommitFails _ sample.storeDown).
  - cbn [StreamingBatchInserter_batchSize]. lia.
  - vm_compute. reflexivity.
Defined.

(** Five records streamed in batches of two while the second commit
    fails: the first two records are stored, the others are not. *)
Example stream_second_commit_fails :
  (fun res => (Record_OrderID <$> records res.1, res.2))
    (streamLoop (mkStreamingBatchInserter 2 4 (mkStmt insertQuery))
       sample.fiveRecords [] sample.secondCommitFails)
  = (["ORD001"; "ORD002"], Some sample.storeDown).
Proof. vm_compute. reflexivity. Qed.

(** A buffer of [2^40] records, 80 terabytes, passes the test of [make];
    when the runtime does not obtain it the process ends before a record
    is read; a buffer beyond the limit of [make] is a panic. *)
Example stream_buffer_not_obtained :
  StreamInsertRecords (mkStreamingBatchInserter (2 ^ 40) 4 (mkStmt insertQuery)) false
    sample.fiveRecords sample.emptyDB = OutOfMemory
  ∧ StreamInsertRecords (mkStreamingBatchInserter (2 ^ 42) 4 (mkStmt insertQuery)) false
      sample.fiveRecords sample.emptyDB = Ends Panics.
Proof. split; reflexivity. Qed.

End db_more.

(** ** The settlement ingestor *)
Module utils_more.
Import models config ingest utils statements config_facts.

(** [List.find] returns the first element that passes the test. *)
Lemma find_first {A : Type} (f : A -> bool) (l : list A) (x : A) :
  x ∈ l -> f x = true ->
  exists before first after,
    l = before ++ first :: after
    ∧ f first = true
    ∧ (forall y, y ∈ before -> f y = false)
    ∧ List.find f l = Some first.
Proof.
  induction l as [|a l IH]; intros Hin Hfx; [by apply elem_of_nil in Hin|].
  destruct (f a) eqn:Hfa.
  - exists [], a, l. cbn [List.find app]. rewrite Hfa.
    split; [reflexivity|]. split; [reflexivity|]. split; [|reflexivity].
    intros y Hy. by apply elem_of_nil in Hy.
  - apply elem_of_cons in Hin as [->|Hin]; [congruence|].
    destruct (IH Hin Hfx) as (before & first & after & -> & Hf & Hbefore & Hfind).
    exists (a :: before), first, after. cbn [List.find app]. rewrite Hfa.
    split; [reflexivity|]. split; [exact Hf|]. split; [|exact Hfind].
    intros y Hy. apply elem_of_cons in Hy as [->|Hy]; [done|by apply Hbefore].
Qed.

Lemma Record_OrderID_of_row (settlements : list Settlement) (l : list (string * float))
    (rows : list Record_) :
  Forall2 (settlementRowOf settlements) l rows -> Record_OrderID <$> rows = l.*1.
Proof.
  induction 1 as [|entry r l rows Hrow _ IH]; [reflexivity|].
  cbn [fmap list_fmap]. destruct Hrow as (_ & -> & _). by f_equal.
Qed.

Section SettlementsFacts.
Context `{rt : GoRuntime}.

(** The line items kept by the loop over the lines have an order key. *)
Lemma collectSettlements_keys (clock : nat -> Time) (headers : list string)
    (lines : list string) :
  forall (k : nat) (acc : list Settlement),
    (forall s, s ∈ acc -> Settlement_OrderID s ≠ "") ->
    forall s, s ∈ collectSettlements clock k headers lines acc ->
              Settlement_OrderID s ≠ "".
Proof.
  induction lines as [|line lines IH]; intros k acc Hacc; cbn [collectSettlements];
    [exact Hacc|].
  destruct (decide (line = "")); [by apply IH|].
  destruct (length (SplitTab line) <? length headers)%nat; [by apply IH|].
  destruct (SettlementFromTSVRow (clock k) headers (SplitTab line)) as [st|e];
    [|by apply IH].
  destruct (decide (Settlement_OrderID st = "")); [by apply IH|].
  apply IH. intros s Hs. apply elem_of_app in Hs as [Hs|Hs]; [by apply Hacc|].
  apply list_elem_of_singleton in Hs. by subst s.
Qed.

(** An entry of the order totals is an order key that is not empty, that
    some settlement bears, with the sum of the amounts of the order. *)
Lemma orderTotals_entry (settlements : list Settlement) (K : string) (total : float) :
  AggregateSettlementsByOrderID settlements !! K = Some total ->
  K ≠ "" ∧ K ∈ Settlement_OrderID <$> settlements
  ∧ total = sumFloat (amountsOf K settlements).
Proof.
  unfold AggregateSettlementsByOrderID. rewrite ingest_facts.aggregate_fold_lookup.
  case_decide as Hc; [|by rewrite lookup_empty].
  intros [= <-]. destruct Hc as [Hk Hin]. repeat split; try done.
Qed.

(** The loop over the order totals, in a store without faults: one row
    for each entry visited, in the order of the visit. *)
Lemma storeOrderTotals_rows (settlements : list Settlement) (l : list (string * float)) :
  (forall entry, entry ∈ l ->
     AggregateSettlementsByOrderID settlements !! entry.1 = Some entry.2) ->
  forall db : DB,
    noFaults db ->
    exists rows,
      records (fold_left (storeOrderTotal settlements) l db) = records db ++ rows
      ∧ Forall2 (settlementRowOf settlements) l rows.
Proof.
  induction l as [|[K total] l IH]; intros Hl db Hno; cbn [fold_left].
  - exists []. by rewrite app_nil_r.
  - destruct (orderTotals_entry settlements K total) as (Hk & Hin & _).
    { apply (Hl (K, total)). apply list_elem_of_here. }
    apply list_elem_of_fmap in Hin as (s & HsK & Hs).
    destruct (find_first (fun s => bool_decide (Settlement_OrderID s = K)) settlements s)
      as (before & first & after & Hsplit & Hfirst & Hbefore & Hfind);
      [done|by apply bool_decide_eq_true_2|].
    unfold storeOrderTotal at 2. rewrite Hfind. unfold Exec_insert_records.
    destruct (noFaults_next db Hno) as [Hfst Hno1].
    destruct (nextFault_tables db) as (Hrec & _ & Hseq & _).
    destruct (nextFault db) as [f db1]. cbn [fst snd] in *. subst f.
    match goal with
    | |- context [fold_left _ l ?d] => destruct (IH (fun e He => Hl e (list_elem_of_further _ _ _ He)) d)
                                       as (rows & Hrows & Hall); [exact Hno1|]
    end.
    exists (assignIDs (records_id_seq db1)
              [("settlements", K, Settlement_PostedDateTime first, total,
                Settlement_RawData first)] ++ rows).
    split; [rewrite Hrows; cbn [fst records]; by rewrite Hrec, <- app_assoc|].
    cbn [assignIDs app]. constructor; [|exact Hall].
    apply bool_decide_eq_true_1 in Hfirst.
    repeat split; cbn; try done.
    exists before, first, after. repeat split; try done.
    intros y Hy. specialize (Hbefore y Hy). by apply bool_decide_eq_false_1 in Hbefore.
Qed.

(** The rows a run adds, in a store without faults and for any order of
    the visit of the order totals. *)
Lemma ParseAndStoreSettlements_rows (clock : nat -> Time)
    (rangeOrder : gmap string float -> list (string * float))
    (first : string) (rest : list string) (db : DB) :
  (forall m, rangeOrder m ≡ₚ map_to_list m) ->
  noFaults db ->
  exists rows,
    records (ParseAndStoreSettlements clock rangeOrder (Ok (first :: rest)) db).1
    = records db ++ rows
    ∧ Forall2 (settlementRowOf (collectSettlements clock 0 (SplitTab first) rest []))
        (rangeOrder (AggregateSettlementsByOrderID
                       (collectSettlements clock 0 (SplitTab first) rest [])))
        rows.
Proof.
  intros Hperm Hno. cbn [ParseAndStoreSettlements fst].
  apply storeOrderTotals_rows; [|exact Hno].
  intros [K total] Hin. rewrite Hperm in Hin. by apply elem_of_map_to_list in Hin.
Qed.

(** X11. One row per settled order.  In a store that takes every insert
    and whatever the order in which the totals are visited, a settlement
    file adds to [records] as many rows as there are orders, no two of them
    for the same order key, and every line item kept has its order among
    them. *)
Theorem settlements_one_row_per_order (clock : nat -> Time)
    (rangeOrder : gmap string float -> list (string * float))
    (first : string) (rest : list string) (db : DB) :
  (forall m, rangeOrder m ≡ₚ map_to_list m) ->
  noFaults db ->
  exists rows,
    records (ParseAndStoreSettlements clock rangeOrder (Ok (first :: rest)) db).1
    = records db ++ rows
    ∧ (ParseAndStoreSettlements clock rangeOrder (Ok (first :: rest)) db).2
      = (None, Some (Z.of_nat (length (collectSettlements clock 0 (SplitTab first) rest [])),
                     Z.of_nat (length rows)))
    ∧ NoDup (Record_OrderID <$> rows)
    ∧ (forall s, s ∈ collectSettlements clock 0 (SplitTab first) rest [] ->
                 Settlement_OrderID s ∈ Record_OrderID <$> rows).
Proof.
  intros Hperm Hno.
  destruct (ParseAndStoreSettlements_rows clock rangeOrder first rest db Hperm Hno)
    as (rows & Hrecs & Hall).
  exists rows. split; [exact Hrecs|].
  pose proof (Record_OrderID_of_row _ _ _ Hall) as Hkeys.
  split; [|split].
  - cbn [ParseAndStoreSettlements snd]. do 4 f_equal.
    rewrite <- (Forall2_length _ _ _ Hall), Hperm. symmetry. apply length_map_to_list.
  - rewrite Hkeys, Hperm. apply NoDup_fst_map_to_list.
  - intros s Hs. rewrite Hkeys.
    assert (Settlement_OrderID s ≠ "") as Hk.
    { eapply collectSettlements_keys; [|exact Hs]. intros ? H. by apply elem_of_nil in H. }
    destruct (AggregateSettlementsByOrderID
                (collectSettlements clock 0 (SplitTab first) rest [])
                !! Settlement_OrderID s) as [total|] eqn:Hlook.
    + apply list_elem_of_fmap. exists (Settlement_OrderID s, total). split; [done|].
      rewrite Hperm. by apply elem_of_map_to_list.
    + unfold AggregateSettlementsByOrderID in Hlook.
      rewrite ingest_facts.aggregate_fold_lookup in Hlook.
      case_decide as Hc; [done|]. destruct Hc. split; [done|].
      by apply list_elem_of_fmap_2.
Qed.

(** X12. What a settlements row holds.  Every row a settlement file adds
    has source ["settlements"], a non-empty order key, as total the sum of
    the amounts of the line items of that order, and the date and raw data
    of the first line item of the order in the file. *)
Theorem settlements_row_content (clock : nat -> Time)
    (rangeOrder : gmap string float -> list (string * float))
    (first : string) (rest : list string) (db : DB) :
  (forall m, rangeOrder m ≡ₚ map_to_list m) ->
  noFaults db ->
  exists rows,
    records (ParseAndStoreSettlements clock rangeOrder (Ok (first :: rest)) db).1
    = records db ++ rows
    ∧ forall r, r ∈ rows ->
        Record_OrderID r ≠ ""
        ∧ settlementRowOf (collectSettlements clock 0 (SplitTab first) rest [])
            (Record_OrderID r,
             sumFloat (amountsOf (Record_OrderID r)
                         (collectSettlements clock 0 (SplitTab first) rest [])))
            r.
Proof.
  intros Hperm Hno.
  destruct (ParseAndStoreSettlements_rows clock rangeOrder first rest db Hperm Hno)
    as (rows & Hrecs & Hall).
  exists rows. split; [exact Hrecs|]. intros r Hr.
  apply list_elem_of_lookup in Hr as [i Hi].
  destruct (Forall2_lookup_r _ _ _ _ _ Hall Hi) as ([K total] & Hentry & Hrow).
  assert ((K, total) ∈ map_to_list
            (AggregateSettlementsByOrderID
               (collectSettlements clock 0 (SplitTab first) rest []))) as Hin.
  { rewrite <- Hperm. by eapply list_elem_of_lookup_2. }
  apply elem_of_map_to_list in Hin.
  destruct (orderTotals_entry _ _ _ Hin) as (Hk & _ & Htotal).
  pose proof Hrow as (_ & Hkey & _). cbn [fst] in Hkey.
  rewrite Hkey. split; [done|]. by rewrite <- Htotal.
Qed.

End SettlementsFacts.

Lemma SplitTab_cons (s : string) : exists field fields, SplitTab s = field :: fields.
Proof.
  destruct s as [|c s]; cbn [SplitTab]; [by eexists _, _|].
  destruct (Ascii.eqb c tab); [by eexists _, _|].
  destruct (SplitTab s); by eexists _, _.
Qed.

(** [SplitTab] loses nothing: joined with tabs, the pieces are the line. *)
Lemma SplitTab_concat (s : string) :
  String.concat (String tab EmptyString) (SplitTab s) = s.
Proof.
  induction s as [|c s IH]; [reflexivity|]. cbn [SplitTab].
  destruct (SplitTab_cons s) as (f & fs & Hs). rewrite Hs in *.
  destruct (Ascii.eqb c tab) eqn:Hc.
  - apply Ascii.eqb_eq in Hc. subst c.
    change (String.concat (String tab "") ("" :: f :: fs))
      with (String tab (String.concat (String tab "") (f :: fs))).
    by rewrite IH.
  - destruct fs as [|f' fs]; [cbn [String.concat] in *; by rewrite IH|].
    change (String.concat (String tab "") (String c f :: f' :: fs))
      with (String c (String.concat (String tab "") (f :: f' :: fs))).
    by rewrite IH.
Qed.

#[local] Existing Instance sample.runtime.

Lemma sample_rangeOrder_permutation (m : gmap string float) :
  sample.rangeOrder m ≡ₚ map_to_list m.
Proof. apply reverse_Permutation. Qed.

Lemma settlements_one_row_per_order_witness :
  exists rows,
    records (ParseAndStoreSettlements sample.clock sample.rangeOrder
               (Ok sample.settlementFile) sample.emptyDB).1
    = records sample.emptyDB ++ rows
    ∧ (ParseAndStoreSettlements sample.clock sample.rangeOrder
         (Ok sample.settlementFile) sample.emptyDB).2
      = (None,
         Some (Z.of_nat (length (collectSettlements sample.clock 0
                                   (SplitTab (hd "" sample.settlementFile))
                                   (tail sample.settlementFile) [])),
               Z.of_nat (length rows)))
    ∧ NoDup (Record_OrderID <$> rows)
    ∧ (forall s, s ∈ collectSettlements sample.clock 0
                       (SplitTab (hd "" sample.settlementFile))
                       (tail sample.settlementFile) [] ->
                 Settlement_OrderID s ∈ Record_OrderID <$> rows).
Proof.
  apply (settlements_one_row_per_order sample.clock sample.rangeOrder
           (hd "" sample.settlementFile) (tail sample.settlementFile) sample.emptyDB).
  - exact sample_rangeOrder_permutation.
  - constructor.
Defined.

Lemma settlements_row_content_witness :
  exists rows,
    records (ParseAndStoreSettlements sample.clock sample.rangeOrder
               (Ok sample.settlementFile) sample.emptyDB).1
    = records sample.emptyDB ++ rows
    ∧ forall r, r ∈ rows ->
        Record_OrderID r ≠ ""
        ∧ settlementRowOf (collectSettlements sample.clock 0
                             (SplitTab (hd "" sample.settlementFile))
                             (tail sample.settlementFile) [])
            (Record_OrderID r,
             sumFloat (amountsOf (Record_OrderID r)
                         (collectSettlements sample.clock 0
                            (SplitTab (hd "" sample.settlementFile))
                            (tail sample.settlementFile) [])))
            r.
Proof.
  apply (settlements_row_content sample.clock sample.rangeOrder
           (hd "" sample.settlementFile) (tail sample.settlementFile) sample.emptyDB).
  - exact sample_rangeOrder_permutation.
  - constructor.
Defined.

(** The sample file: three line items are kept, for two orders, and
    ORD001 is stored with the total 100.00. *)
Example settlementFile_stored :
  (fun res =>
     ((fun r => (Record_Source r, Record_OrderID r, Record_TotalAmount r))
        <$> records res.1, res.2))
    (ParseAndStoreSettlements sample.clock sample.rangeOrder
       (Ok sample.settlementFile) sample.emptyDB)
  = ([("settlements", "ORD002", 145%float); ("settlements", "ORD001", 100%float)],
     (None, Some (3, 2))).
Proof. vm_compute. reflexivity. Qed.

End utils_more.

(** ** Ingestion and reconciliation as a whole *)
Module controllers_more.
Import models config ingest utils controllers statements config_facts.

(** In a store without faults the next call succeeds and leaves the
    rest of the script. *)
Lemma nextFault_noFaults (db : DB) :
  noFaults db ->
  nextFault db
  = (None, mkDB (records db) (reconciled_records db) (records_id_seq db)
                (reconciled_records_id_seq db) (drop 1 (faults db))).
Proof.
  unfold noFaults, nextFault. destruct db as [rs rrs s1 s2 fs]. cbn.
  intros Hno. destruct fs as [|f fs]; [reflexivity|].
  inversion Hno; subst. reflexivity.
Qed.

Lemma noFaults_drop (db : DB) (vals : list RecordValues) (k : nat) :
  noFaults db -> noFaults (afterInserts vals k db).
Proof. unfold noFaults. cbn. apply Forall_drop. Qed.

Lemma afterInserts_nil (db : DB) : afterInserts [] 0 db = db.
Proof.
  destruct db as [rs rrs s1 s2 fs]. unfold afterInserts. cbn.
  rewrite app_nil_r, Z.add_0_r. reflexivity.
Qed.

Lemma afterInserts_twice (a b : list RecordValues) (j k : nat) (db : DB) :
  afterInserts b k (afterInserts a j db) = afterInserts (a ++ b) (j + k) db.
Proof.
  unfold afterInserts. cbn.
  rewrite db_more.assignIDs_app, <- app_assoc, length_app, drop_drop. f_equal. lia.
Qed.

Lemma Exec_insert_records_noFaults (vals : list RecordValues) (db : DB) :
  noFaults db ->
  Exec_insert_records vals db = (afterInserts vals 1 db, None).
Proof.
  intros Hno. unfold Exec_insert_records. by rewrite (nextFault_noFaults db Hno).
Qed.

Section IngestFacts.
Context `{rt : GoRuntime}.

(** The payment loop in a store without faults. *)
Lemma storePayments_exact (clock : nat -> Time) (headers : list string) (reader : Reader) :
  headers ≠ [] ->
  forall (k : nat) (db : DB) (n : Z),
    noFaults db ->
    (storePayments clock k headers reader db n).1
    = afterInserts (acceptedRows clock k headers (rowsRead reader))
                   (length (acceptedRows clock k headers (rowsRead reader))) db.
Proof.
  intros Hheaders.
  induction reader as [|[line|e] reader IH]; intros k db n Hno.
  - cbn. by rewrite afterInserts_nil.
  - rewrite utils_facts.storePayments_step by done. cbn [rowsRead acceptedRows].
    destruct (acceptedRow (clock k) headers line) as [v|];
      cbn [option_list option_rect app]; [|by apply IH].
    rewrite Exec_insert_records_noFaults by done. cbn [fst].
    rewrite IH by (by apply noFaults_drop).
    rewrite afterInserts_twice. reflexivity.
  - cbn. by rewrite afterInserts_nil.
Qed.

(** A payment file in a store without faults: the store gains the
    payment values of the file, and the report does not depend on the
    store. *)
Lemma ParseAndStorePayments_exact (clock : nat -> Time) (file : Result Reader) (db : DB) :
  noFaults db ->
  (ParseAndStorePayments clock file db).1
  = afterInserts (paymentValues clock file) (length (paymentValues clock file)) db
  ∧ (ParseAndStorePayments clock file db).2.1 = paymentError file.
Proof.
  intros Hno. unfold ParseAndStorePayments, paymentValues, paymentError.
  destruct file as [reader|e]; [|by rewrite afterInserts_nil].
  destruct (scanHeaders 20 reader) as [[headers|e] reader'];
    [|by rewrite afterInserts_nil].
  destruct (length headers =? 0)%nat eqn:Hlen; [by rewrite afterInserts_nil|].
  assert (headers ≠ []) as Hne by (intros ->; discriminate).
  pose proof (storePayments_exact clock headers reader' Hne 0%nat db 0 Hno) as Hdb.
  destruct (storePayments clock 0 headers reader' db 0) as [db' count].
  cbn [fst snd] in *. by subst db'.
Qed.

(** The loop over the order totals in a store without faults. *)
Lemma storeOrderTotals_exact (settlements : list Settlement) (l : list (string * float)) :
  forall db : DB,
    noFaults db ->
    fold_left (storeOrderTotal settlements) l db
    = afterInserts (omap (orderTotalValues settlements) l)
                   (length (omap (orderTotalValues settlements) l)) db.
Proof.
  assert (forall db entry,
            storeOrderTotal settlements db entry
            = match orderTotalValues settlements entry with
              | Some v => (Exec_insert_records [v] db).1
              | None => db
              end) as Hstep.
  { intros db [K total]. unfold storeOrderTotal, orderTotalValues. cbn [fst snd].
    by destruct (List.find _ settlements). }
  induction l as [|entry l IH]; intros db Hno; cbn [fold_left omap list_omap].
  - by rewrite afterInserts_nil.
  - rewrite Hstep. destruct (orderTotalValues settlements entry) as [v|]; [|by apply IH].
    rewrite Exec_insert_records_noFaults by done. cbn [fst].
    rewrite IH by (by apply noFaults_drop).
    rewrite afterInserts_twice. reflexivity.
Qed.

Lemma ParseAndStoreSettlements_exact (clock : nat -> Time)
    (rangeOrder : gmap string float -> list (string * float))
    (file : Result (list string)) (db : DB) :
  noFaults db ->
  (ParseAndStoreSettlements clock rangeOrder file db).1
  = afterInserts (settlementValues clock rangeOrder file)
                 (length (settlementValues clock rangeOrder file)) db
  ∧ (ParseAndStoreSettlements clock rangeOrder file db).2.1 = settlementError file.
Proof.
  intros Hno. unfold ParseAndStoreSettlements, settlementValues, settlementError.
  destruct file as [[|first rest]|e]; try by rewrite afterInserts_nil.
  cbn [fst snd]. split; [|reflexivity]. by apply storeOrderTotals_exact.
Qed.

(** [ClearExistingData] in a store without faults: empty tables and
    sequences that restart at 1. *)
Lemma ClearExistingData_noFaults (db : DB) :
  noFaults db ->
  ClearExistingData db = (mkDB [] [] 1 1 (drop 4 (faults db)), None).
Proof.
  intros Hno. unfold ClearExistingData, Exec_delete_reconciled, Exec_delete_records,
    Exec_restart_records_id_seq, Exec_restart_reconciled_records_id_seq.
  rewrite (nextFault_noFaults db Hno). cbn [records reconciled_records records_id_seq
    reconciled_records_id_seq faults].
  repeat (rewrite nextFault_noFaults by (unfold noFaults in *; cbn; by repeat apply Forall_drop);
          cbn [records reconciled_records records_id_seq reconciled_records_id_seq faults]).
  by rewrite !drop_drop.
Qed.

(** The whole ingestion in a store without faults. *)
Lemma IngestAllFiles_exact (paymentClock settlementClock : nat -> Time)
    (rangeOrder : gmap string float -> list (string * float))
    (paymentFile : Result Reader) (settlementFile : Result (list string)) (db : DB) :
  noFaults db ->
  exists k,
    IngestAllFiles paymentClock settlementClock rangeOrder paymentFile settlementFile db
    = match paymentError paymentFile with
      | Some e =>
          (mkDB (assignIDs 1 (paymentValues paymentClock paymentFile)) [] 
                (1 + Z.of_nat (length (paymentValues paymentClock paymentFile))) 1
                (drop k (faults db)), Some e)
      | None =>
          (mkDB (assignIDs 1 (paymentValues paymentClock paymentFile
                              ++ settlementValues settlementClock rangeOrder settlementFile))
                []
                (1 + Z.of_nat (length (paymentValues paymentClock paymentFile
                                       ++ settlementValues settlementClock rangeOrder
                                            settlementFile)))
                1 (drop k (faults db)),
           settlementError settlementFile)
      end.
Proof.
  intros Hno. unfold IngestAllFiles. rewrite (ClearExistingData_noFaults db Hno).
  set (db1 := mkDB [] [] 1 1 (drop 4 (faults db))).
  assert (noFaults db1) as Hno1 by (unfold noFaults; cbn; by apply Forall_drop).
  destruct (ParseAndStorePayments_exact paymentClock paymentFile db1 Hno1) as [Hdb2 Herr].
  destruct (ParseAndStorePayments paymentClock paymentFile db1) as [db2 [perr pcount]].
  cbn [fst snd] in Hdb2, Herr. subst db2 perr.
  destruct (paymentError paymentFile) as [e|].
  - eexists. unfold afterInserts. cbn. rewrite drop_drop. reflexivity.
  - set (db2 := afterInserts _ _ db1).
    assert (noFaults db2) as Hno2 by (by apply noFaults_drop).
    destruct (ParseAndStoreSettlements_exact settlementClock rangeOrder settlementFile
                db2 Hno2) as [Hdb3 Herr3].
    destruct (ParseAndStoreSettlements settlementClock rangeOrder settlementFile db2)
      as [db3 [serr scount]].
    cbn [fst snd] in Hdb3, Herr3. subst db3 serr.
    eexists. unfold db2. rewrite afterInserts_twice. unfold afterInserts. cbn.
    rewrite drop_drop. reflexivity.
Qed.

(** X13. Restart from the files alone.  In stores that take every call,
    what [IngestAllFiles] leaves is fixed by the files and by what the run
    reads from its surroundings (the clock, read for the rows whose date
    does not parse, and the order in which the map of order totals is
    visited), not by what the store held before.  For the same readings,
    any two stores are left with the same table [records] and the same
    sequence; and whatever the readings of the two runs, with the same
    returned error and the same table of results. *)
Theorem ingestion_forgets_previous_content
    (paymentClock settlementClock paymentClock' settlementClock' : nat -> Time)
    (rangeOrder rangeOrder' : gmap string float -> list (string * float))
    (paymentFile : Result Reader) (settlementFile : Result (list string))
    (db1 db2 : DB) :
  noFaults db1 ->
  noFaults db2 ->
  records (IngestAllFiles paymentClock settlementClock rangeOrder paymentFile
             settlementFile db1).1
  = records (IngestAllFiles paymentClock settlementClock rangeOrder paymentFile
               settlementFile db2).1
  ∧ records_id_seq (IngestAllFiles paymentClock settlementClock rangeOrder paymentFile
                      settlementFile db1).1
    = records_id_seq (IngestAllFiles paymentClock settlementClock rangeOrder paymentFile
                        settlementFile db2).1
  ∧ reconciled_records (IngestAllFiles paymentClock settlementClock rangeOrder paymentFile
                          settlementFile db1).1
    = reconciled_records (IngestAllFiles paymentClock' settlementClock' rangeOrder'
                            paymentFile settlementFile db2).1
  ∧ (IngestAllFiles paymentClock settlementClock rangeOrder paymentFile
       settlementFile db1).2
    = (IngestAllFiles paymentClock' settlementClock' rangeOrder' paymentFile
         settlementFile db2).2.
Proof.
  intros Hno1 Hno2.
  destruct (IngestAllFiles_exact paymentClock settlementClock rangeOrder paymentFile
              settlementFile db1 Hno1) as [k1 ->].
  destruct (IngestAllFiles_exact paymentClock settlementClock rangeOrder paymentFile
              settlementFile db2 Hno2) as [k2 ->].
  destruct (IngestAllFiles_exact paymentClock' settlementClock' rangeOrder' paymentFile
              settlementFile db2 Hno2) as [k3 ->].
  by destruct (paymentError paymentFile).
Qed.

Lemma Record_ID_assignIDs (vals : list RecordValues) :
  forall seq : Z, Record_ID <$> assignIDs seq vals = seqZ seq (Z.of_nat (length vals)).
Proof.
  induction vals as [|[[[[src oid] d] total] raw] vals IH]; intros seq;
    cbn [assignIDs length fmap list_fmap].
  - reflexivity.
  - rewrite Nat2Z.inj_succ, seqZ_cons by lia. f_equal.
    rewrite IH. f_equal; lia.
Qed.

(** Rows numbered from 1 carry the identifiers 1, 2, 3, ... *)
Lemma assignIDs_from_one (vals : list RecordValues) :
  Record_ID <$> assignIDs 1 vals = seqZ 1 (Z.of_nat (length (assignIDs 1 vals))).
Proof.
  rewrite Record_ID_assignIDs.
  by rewrite <- (length_fmap Record_ID (assignIDs 1 vals)), Record_ID_assignIDs, length_seqZ,
    Nat2Z.id.
Qed.

(** X14. Identifiers after an ingestion.  In a store that takes every
    call, the rows of [records] after [IngestAllFiles] are numbered 1, 2,
    3, ... in the order of their inserts; in particular no two rows share
    an identifier, and no reconciliation result is left. *)
Theorem ingestion_numbers_rows_from_one (paymentClock settlementClock : nat -> Time)
    (rangeOrder : gmap string float -> list (string * float))
    (paymentFile : Result Reader) (settlementFile : Result (list string)) (db : DB) :
  noFaults db ->
  Record_ID <$> records (IngestAllFiles paymentClock settlementClock rangeOrder
                           paymentFile settlementFile db).1
  = seqZ 1 (Z.of_nat (length (records (IngestAllFiles paymentClock settlementClock
                                         rangeOrder paymentFile settlementFile db).1)))
  ∧ NoDup (Record_ID <$> records (IngestAllFiles paymentClock settlementClock rangeOrder
                                    paymentFile settlementFile db).1)
  ∧ reconciled_records (IngestAllFiles paymentClock settlementClock rangeOrder
                          paymentFile settlementFile db).1 = [].
Proof.
  intros Hno.
  destruct (IngestAllFiles_exact paymentClock settlementClock rangeOrder paymentFile
              settlementFile db Hno) as [k ->].
  destruct (paymentError paymentFile); cbn [fst records reconciled_records];
    (split; [apply assignIDs_from_one
            |split; [rewrite assignIDs_from_one; apply NoDup_seqZ|reflexivity]]).
Qed.

Lemma ClearExistingData_returns_nil (db : DB) : (ClearExistingData db).2 = None.
Proof.
  unfold ClearExistingData.
  destruct (Exec_delete_reconciled db) as [db1 r1].
  destruct (Exec_delete_records db1) as [db2 r2].
  destruct (Exec_restart_records_id_seq db2) as [db3 r3].
  by destruct (Exec_restart_reconciled_records_id_seq db3) as [db4 r4].
Qed.

(** X15. A payment file without header stops the ingestion.  Whatever
    the store does, when the first 20 lines of the payment file hold no
    header line, [IngestAllFiles] returns the header-not-found error and
    leaves the store as [ClearExistingData] left it: the settlement file is
    not read. *)
Theorem ingestion_stops_without_header (paymentClock settlementClock : nat -> Time)
    (rangeOrder : gmap string float -> list (string * float))
    (lines : list (list string)) (rest : Reader) (settlementFile : Result (list string))
    (db : DB) :
  length lines = 20%nat ->
  Forall (fun line => isHeaderLine line = false) lines ->
  IngestAllFiles paymentClock settlementClock rangeOrder
    (Ok ((Ok <$> lines) ++ rest)) settlementFile db
  = ((ClearExistingData db).1, Some (Errorf "headers not found")).
Proof.
  intros Hlen Hnone. unfold IngestAllFiles.
  pose proof (ClearExistingData_returns_nil db) as Hnil.
  destruct (ClearExistingData db) as [db1 r]. cbn [fst snd] in *. subst r.
  unfold ParseAndStorePayments.
  replace 20%nat with (length lines + 0)%nat at 1 by lia.
  by rewrite utils_facts.scanHeaders_skip.
Qed.

End IngestFacts.

(** The loop of [RunReconciliation] reads one fault for each row of the
    join. *)
Lemma reconcile_fold_faults (rows : list JoinRow) :
  forall db : DB,
    faults (fold_left reconcileRow rows db) = drop (length rows) (faults db)
    ∧ reconciled_records_id_seq db
      <= reconciled_records_id_seq (fold_left reconcileRow rows db).
Proof.
  induction rows as [|row rows IH]; intros db; cbn [fold_left length].
  - split; [reflexivity|lia].
  - destruct (IH (reconcileRow db row)) as [Hf Hseq]. rewrite Hf.
    destruct row as [[[[paymentId orderId] paymentTotal] settlementId] settlementTotal].
    unfold reconcileRow, Exec_insert_reconciled, nextFault in *.
    destruct db as [rs rrs s1 s2 fs]. cbn in *.
    destruct fs as [|[e|] fs]; cbn in *; split; try done; try lia.
    by rewrite drop_nil.
Qed.

(** When no insert fails, the content of the results is the content of
    the rows of the join, whatever the identifiers. *)
Lemma insertedResults_keys (rows : list JoinRow) :
  forall (seq : Z) (fs : list (option error)),
    Forall (fun f => f = None) fs ->
    resultKey <$> insertedResults seq rows fs
    = (fun row : JoinRow => (row.1.1.1.1, row.1.2, PrimFloat.sub row.1.1.2 row.2)) <$> rows.
Proof.
  induction rows as [|[[[[paymentId orderId] paymentTotal] settlementId] settlementTotal]
                       rows IH]; intros seq fs Hno; [reflexivity|].
  assert (Forall (fun f => f = None) (tail fs)) as Hno'.
  { destruct fs; [done|]. by inversion Hno. }
  cbn [insertedResults fmap list_fmap].
  destruct fs as [|[e|] fs]; [| by inversion Hno |]; cbn [fmap list_fmap fst snd];
    f_equal; by apply IH.
Qed.

(** X16. Reconciliation never writes to [records]: whatever fails, the
    table [records] after [RunReconciliation] is the table before. *)
Theorem reconciliation_keeps_records (db : DB) :
  records (RunReconciliation db).1 = records db.
Proof.
  destruct (controllers_facts.RunReconciliation_steps db)
    as (db2 & Hrec2 & _ & _ & _ & Hrun).
  rewrite Hrun.
  destruct (controllers_facts.reconcile_fold (joinRows (records db)) db2) as [Hrecs _].
  destruct (faults db) as [|d [|[e|] fs]]; cbn [fst]; congruence.
Qed.

(** [RunReconciliation] is the run over the engine that returns the rows
    of the join as the nested scan finds them. *)
Lemma RunReconciliation_in_scan_order (db : DB) :
  RunReconciliation_in (fun rows => rows) db = RunReconciliation db.
Proof. reflexivity. Qed.

(** The run over any engine, step by step, as for [RunReconciliation]. *)
Lemma RunReconciliation_in_steps (engineOrder : list JoinRow -> list JoinRow) (db : DB) :
  exists db2,
    records db2 = records db
    ∧ reconciled_records_id_seq db2 = reconciled_records_id_seq db
    ∧ reconciled_records db2
      = match faults db with
        | Some _ :: _ => reconciled_records db
        | _ => []
        end
    ∧ faults db2 = drop 2 (faults db)
    ∧ RunReconciliation_in engineOrder db
      = match faults db with
        | _ :: Some e :: _ => (db2, Some e)
        | _ => (fold_left reconcileRow (engineOrder (joinRows (records db))) db2, None)
        end.
Proof.
  unfold RunReconciliation_in, Exec_delete_reconciled, Query_join_in, nextFault.
  destruct db as [rs rrs seq1 seq2 fs].
  destruct fs as [|[d|] [|[q|] fs]]; cbn; eexists; repeat split; reflexivity.
Qed.

(** A run in a store without faults: the store it leaves has no faults,
    the table [records] is as it was, and the results are those of the
    rows of the join, in the order the engine returned them. *)
Lemma RunReconciliation_in_noFaults (engineOrder : list JoinRow -> list JoinRow) (db : DB) :
  noFaults db ->
  noFaults (RunReconciliation_in engineOrder db).1
  ∧ (RunReconciliation_in engineOrder db).2 = None
  ∧ records (RunReconciliation_in engineOrder db).1 = records db
  ∧ reconciled_records (RunReconciliation_in engineOrder db).1
    = insertedResults (reconciled_records_id_seq db) (engineOrder (joinRows (records db)))
        (drop 2 (faults db)).
Proof.
  intros Hno.
  destruct (RunReconciliation_in_steps engineOrder db)
    as (db2 & Hrec2 & Hseq2 & Hres2 & Hf2 & Hrun).
  assert (RunReconciliation_in engineOrder db
          = (fold_left reconcileRow (engineOrder (joinRows (records db))) db2, None)) as ->.
  { rewrite Hrun. unfold noFaults in Hno.
    destruct (faults db) as [|f [|[e|] fs]]; try done.
    inversion Hno as [|? ? _ Hno']. by inversion Hno'. }
  assert (reconciled_records db2 = []) as Hempty.
  { rewrite Hres2. unfold noFaults in Hno.
    destruct (faults db) as [|[e|] fs]; try done. by inversion Hno. }
  destruct (controllers_facts.reconcile_fold (engineOrder (joinRows (records db))) db2)
    as [Hrecs Hresults].
  destruct (reconcile_fold_faults (engineOrder (joinRows (records db))) db2)
    as [Hfaults _].
  cbn [fst snd]. split; [|split; [done|split; [congruence|]]].
  - unfold noFaults. rewrite Hfaults, Hf2. by do 2 apply Forall_drop.
  - by rewrite Hresults, Hempty, Hseq2, Hf2.
Qed.

(** X17. Rebuilding is idempotent.  In a store that takes every call, and
    whatever the order in which the engine returns the rows of the join
    in the first run and in the second (the query has no [ORDER BY]), a
    second [RunReconciliation] leaves the results of the first: the same
    contents (payments row, settlements row, difference), each as often;
    their order and their identifiers may differ. *)
Theorem reconciliation_rebuild_is_idempotent (first second : list JoinRow -> list JoinRow)
    (db : DB) :
  (forall rows, first rows ≡ₚ rows) ->
  (forall rows, second rows ≡ₚ rows) ->
  noFaults db ->
  resultKey
    <$> reconciled_records (RunReconciliation_in second (RunReconciliation_in first db).1).1
  ≡ₚ resultKey <$> reconciled_records (RunReconciliation_in first db).1.
Proof.
  intros Hfirst Hsecond Hno.
  destruct (RunReconciliation_in_noFaults first db Hno) as (Hno1 & _ & Hrecs1 & Hres1).
  destruct (RunReconciliation_in_noFaults second _ Hno1) as (_ & _ & _ & Hres2).
  rewrite Hres2, Hres1, Hrecs1.
  rewrite !insertedResults_keys.
  - by rewrite Hsecond, Hfirst.
  - by apply Forall_drop.
  - by apply Forall_drop.
Qed.

(** *** From the files to the results *)

Lemma NoDup_fmap_same {A B : Type} (f : A -> B) (l : list A) (x y : A) :
  NoDup (f <$> l) -> x ∈ l -> y ∈ l -> f x = f y -> x = y.
Proof.
  induction l as [|a l IH]; intros Hnd Hx Hy Hf; [by apply elem_of_nil in Hx|].
  rewrite fmap_cons in Hnd. apply NoDup_cons in Hnd as [Hfresh Hnd].
  apply elem_of_cons in Hx as [->|Hx]; apply elem_of_cons in Hy as [->|Hy].
  - reflexivity.
  - destruct Hfresh. rewrite Hf. by apply list_elem_of_fmap_2.
  - destruct Hfresh. rewrite <- Hf. by apply list_elem_of_fmap_2.
  - by apply IH.
Qed.

(** The rows of the join that one payments row [p] takes part in. *)
Lemma joinRows_of_payment (p : Record_) :
  forall l : list Record_,
    NoDup l ->
    (forall s1 s2, s1 ∈ l -> s2 ∈ l ->
       Record_Source s1 = "settlements" -> Record_Source s2 = "settlements" ->
       Record_OrderID s1 = Record_OrderID s2 -> s1 = s2) ->
    (fun row : JoinRow => row.1.1.1.1) <$> (l ≫= joinPair p) = []
    ∨ (fun row : JoinRow => row.1.1.1.1) <$> (l ≫= joinPair p) = [Record_ID p].
Proof.
  induction l as [|a l IH]; intros Hnd Huniq; [by left|].
  apply NoDup_cons in Hnd as [Hfresh Hnd].
  rewrite bind_cons, fmap_app.
  assert (forall s1 s2, s1 ∈ l -> s2 ∈ l ->
            Record_Source s1 = "settlements" -> Record_Source s2 = "settlements" ->
            Record_OrderID s1 = Record_OrderID s2 -> s1 = s2) as Huniq'.
  { intros s1 s2 H1 H2. apply Huniq; by apply list_elem_of_further. }
  unfold joinPair at 1 3.
  destruct (decide (Record_OrderID p = Record_OrderID a
                    ∧ Record_Source p = "payments"
                    ∧ Record_Source a = "settlements")) as [(Hk & Hsp & Hsa)|Hno].
  - right. cbn [fmap list_fmap app]. f_equal.
    assert (l ≫= joinPair p = []) as ->; [|reflexivity].
    clear IH Hnd Huniq'. induction l as [|b l IHl]; [reflexivity|].
    rewrite bind_cons. unfold joinPair at 1.
    destruct (decide (Record_OrderID p = Record_OrderID b
                      ∧ Record_Source p = "payments"
                      ∧ Record_Source b = "settlements")) as [(Hkb & _ & Hsb)|_].
    + destruct Hfresh. assert (a = b) as ->; [|apply list_elem_of_here].
      apply Huniq; try done; [apply list_elem_of_here| |congruence].
      apply list_elem_of_further, list_elem_of_here.
    + cbn [app]. apply IHl.
      * intros Hin. apply Hfresh. by apply list_elem_of_further.
      * intros s1 s2 H1 H2. apply Huniq.
        -- apply elem_of_cons in H1 as [->|H1]; [apply list_elem_of_here|].
           by do 2 apply list_elem_of_further.
        -- apply elem_of_cons in H2 as [->|H2]; [apply list_elem_of_here|].
           by do 2 apply list_elem_of_further.
  - cbn [fmap list_fmap app]. by apply IH.
Qed.

(** When every order has at most one settlements row, no payments row
    is joined twice. *)
Lemma joinRows_payments_once (rs : list Record_) :
  NoDup (Record_ID <$> rs) ->
  (forall s1 s2, s1 ∈ rs -> s2 ∈ rs ->
     Record_Source s1 = "settlements" -> Record_Source s2 = "settlements" ->
     Record_OrderID s1 = Record_OrderID s2 -> s1 = s2) ->
  NoDup ((fun row : JoinRow => row.1.1.1.1) <$> joinRows rs).
Proof.
  intros Hids Huniq.
  assert (NoDup rs) as Hnd by (by eapply NoDup_fmap_1).
  enough ((fun row : JoinRow => row.1.1.1.1) <$> joinRows rs
          `sublist_of` Record_ID <$> rs) as Hsub
    by (by eapply sublist_NoDup).
  change (joinRows rs) with (rs ≫= (fun p => rs ≫= joinPair p)).
  assert (forall l : list Record_,
            (fun row : JoinRow => row.1.1.1.1) <$> (l ≫= (fun p => rs ≫= joinPair p))
            `sublist_of` Record_ID <$> l) as Hall; [|apply Hall].
  induction l as [|p l IH]; [reflexivity|].
  rewrite bind_cons, fmap_app, fmap_cons.
  destruct (joinRows_of_payment p rs Hnd Huniq) as [->| ->]; cbn [app].
  - by apply sublist_cons.
  - by apply sublist_skip.
Qed.

Section EndToEnd.
Context `{rt : GoRuntime}.

Lemma acceptedRows_source (clock : nat -> Time) (headers : list string)
    (lines : list (list string)) :
  forall (k : nat) (v : RecordValues),
    v ∈ acceptedRows clock k headers lines -> v.1.1.1.1 = "payments".
Proof.
  induction lines as [|line lines IH]; intros k v Hv; cbn [acceptedRows] in Hv;
    [by apply elem_of_nil in Hv|].
  apply elem_of_app in Hv as [Hv|Hv]; [|by eapply IH].
  unfold acceptedRow in Hv.
  destruct (PaymentFromCSVRow (clock k) headers line) as [p|e];
    [|by apply elem_of_nil in Hv].
  case_decide; [|by apply elem_of_nil in Hv].
  apply list_elem_of_singleton in Hv. by subst v.
Qed.

Lemma paymentValues_source (clock : nat -> Time) (file : Result Reader) (v : RecordValues) :
  v ∈ paymentValues clock file -> v.1.1.1.1 = "payments".
Proof.
  unfold paymentValues. destruct file as [reader|e]; [|by intros H; apply elem_of_nil in H].
  destruct (scanHeaders 20 reader) as [[headers|e] reader'];
    [|by intros H; apply elem_of_nil in H].
  destruct (length headers =? 0)%nat; [by intros H; apply elem_of_nil in H|].
  apply acceptedRows_source.
Qed.

Lemma orderTotalValues_keys (settlements : list Settlement) (l : list (string * float)) :
  (fun v : RecordValues => v.1.1.1.2) <$> omap (orderTotalValues settlements) l
  `sublist_of` l.*1.
Proof.
  induction l as [|entry l IH]; [reflexivity|]. cbn [omap list_omap fmap list_fmap].
  unfold orderTotalValues at 1.
  destruct (List.find _ settlements); cbn [fmap list_fmap fst snd].
  - by apply sublist_skip.
  - by apply sublist_cons.
Qed.

Lemma settlementValues_keys (clock : nat -> Time)
    (rangeOrder : gmap string float -> list (string * float))
    (file : Result (list string)) :
  (forall m, rangeOrder m ≡ₚ map_to_list m) ->
  NoDup ((fun v : RecordValues => v.1.1.1.2) <$> settlementValues clock rangeOrder file).
Proof.
  intros Hperm. unfold settlementValues.
  destruct file as [[|first rest]|e]; try apply NoDup_nil_2.
  eapply sublist_NoDup; [|apply orderTotalValues_keys].
  rewrite Hperm. apply NoDup_fst_map_to_list.
Qed.

Lemma elem_of_assignIDs (vals : list RecordValues) :
  forall (seq : Z) (r : Record_),
    r ∈ assignIDs seq vals ->
    (Record_Source r, Record_OrderID r, Record_Date r, Record_TotalAmount r,
     Record_RawData r) ∈ vals.
Proof.
  induction vals as [|[[[[src oid] d] total] raw] vals IH]; intros seq r Hr;
    cbn [assignIDs] in Hr; [by apply elem_of_nil in Hr|].
  apply elem_of_cons in Hr as [->|Hr]; [apply list_elem_of_here|].
  apply list_elem_of_further. by eapply IH.
Qed.

Lemma Record_OrderID_assignIDs (vals : list RecordValues) :
  forall seq : Z,
    Record_OrderID <$> assignIDs seq vals = (fun v : RecordValues => v.1.1.1.2) <$> vals.
Proof.
  induction vals as [|[[[[src oid] d] total] raw] vals IH]; intros seq;
    cbn [assignIDs fmap list_fmap]; [reflexivity|]. f_equal. apply IH.
Qed.

(** X18. From the files to the results: no payment is reconciled twice.
    After [IngestAllFiles] and [RunReconciliation] in a store that takes
    every call, whatever the order in which the order totals are visited,
    the results refer to pairwise distinct payments rows. *)
Theorem no_payment_is_reconciled_twice (paymentClock settlementClock : nat -> Time)
    (rangeOrder : gmap string float -> list (string * float))
    (paymentFile : Result Reader) (settlementFile : Result (list string)) (db : DB) :
  (forall m, rangeOrder m ≡ₚ map_to_list m) ->
  noFaults db ->
  NoDup (ReconciledRecord_PaymentsRecordID
           <$> reconciled_records
                 (RunReconciliation
                    (IngestAllFiles paymentClock settlementClock rangeOrder
                       paymentFile settlementFile db).1).1).
Proof.
  intros Hperm Hno.
  destruct (IngestAllFiles_exact paymentClock settlementClock rangeOrder paymentFile
              settlementFile db Hno) as [k Hrun].
  assert (NoDup (Record_ID <$> records (IngestAllFiles paymentClock settlementClock
                                          rangeOrder paymentFile settlementFile db).1)
          ∧ reconciled_records (IngestAllFiles paymentClock settlementClock rangeOrder
                                  paymentFile settlementFile db).1 = [])
    as (Hids & Hnone).
  { rewrite Hrun.
    destruct (paymentError paymentFile); cbn [fst records reconciled_records];
      (split; [rewrite assignIDs_from_one; apply NoDup_seqZ|reflexivity]). }
  set (db1 := (IngestAllFiles paymentClock settlementClock rangeOrder paymentFile
                 settlementFile db).1) in *.
  assert (noFaults db1) as Hno1.
  { unfold db1. rewrite Hrun. unfold noFaults in *.
    destruct (paymentError paymentFile); cbn; by apply Forall_drop. }
  assert (exists vals,
            records db1
            = assignIDs 1 (paymentValues paymentClock paymentFile)
              ++ assignIDs (1 + Z.of_nat (length (paymentValues paymentClock paymentFile)))
                   vals
            ∧ NoDup ((fun v : RecordValues => v.1.1.1.2) <$> vals)) as (vals & Hrecs & Hkeys).
  { unfold db1. rewrite Hrun. destruct (paymentError paymentFile); cbn [fst records].
    - exists []. rewrite app_nil_r. split; [done|apply NoDup_nil_2].
    - exists (settlementValues settlementClock rangeOrder settlementFile).
      split; [apply db_more.assignIDs_app|by apply settlementValues_keys]. }
  assert (forall s1 s2, s1 ∈ records db1 -> s2 ∈ records db1 ->
            Record_Source s1 = "settlements" -> Record_Source s2 = "settlements" ->
            Record_OrderID s1 = Record_OrderID s2 -> s1 = s2) as Huniq.
  { assert (forall s, s ∈ records db1 -> Record_Source s = "settlements" ->
              s ∈ assignIDs (1 + Z.of_nat (length (paymentValues paymentClock paymentFile)))
                    vals) as Hside.
    { intros s Hs Hsrc. rewrite Hrecs in Hs. apply elem_of_app in Hs as [Hs|Hs]; [|done].
      apply elem_of_assignIDs, paymentValues_source in Hs. cbn in Hs. congruence. }
    intros s1 s2 H1 H2 Hs1 Hs2 Hk.
    apply (NoDup_fmap_same Record_OrderID
             (assignIDs (1 + Z.of_nat (length (paymentValues paymentClock paymentFile)))
                vals)); try done; try by apply Hside.
    by rewrite Record_OrderID_assignIDs. }
  destruct (controllers_facts.RunReconciliation_steps db1)
    as (db2 & Hrec2 & Hseq2 & Hres2 & Hf2 & Hrun2).
  assert (RunReconciliation db1
          = (fold_left reconcileRow (joinRows (records db1)) db2, None)) as ->.
  { rewrite Hrun2. unfold noFaults in Hno1.
    destruct (faults db1) as [|f [|[e|] fs]]; try done.
    inversion Hno1 as [|? ? _ Hno']. by inversion Hno'. }
  assert (reconciled_records db2 = []) as Hempty.
  { rewrite Hres2. by destruct (faults db1) as [|[e|] fs]. }
  assert (Forall (fun f => f = None) (faults db2)) as Hno2.
  { rewrite Hf2. by apply Forall_drop. }
  destruct (controllers_facts.reconcile_fold (joinRows (records db1)) db2) as [_ Hresults].
  cbn [fst]. rewrite Hresults, Hempty. cbn [app].
  assert (ReconciledRecord_PaymentsRecordID
            <$> insertedResults (reconciled_records_id_seq db2) (joinRows (records db1))
                  (faults db2)
          = (fun row : JoinRow => row.1.1.1.1) <$> joinRows (records db1)) as ->.
  { pose proof (insertedResults_keys (joinRows (records db1))
                  (reconciled_records_id_seq db2) (faults db2) Hno2) as Hk.
    apply (f_equal (fmap (fun key : Z * Z * float => key.1.1))) in Hk.
    rewrite <- !list_fmap_compose in Hk. exact Hk. }
  by apply joinRows_payments_once.
Qed.

End EndToEnd.

#[local] Existing Instance sample.runtime.

Lemma ingestion_forgets_previous_content_witness :
  records (IngestAllFiles sample.clock sample.clock sample.rangeOrder
             (Ok sample.paymentFile) (Ok sample.settlementFile) sample.ledger).1
  = records (IngestAllFiles sample.clock sample.clock sample.rangeOrder
               (Ok sample.paymentFile) (Ok sample.settlementFile) sample.emptyDB).1.
Proof.
  apply (ingestion_forgets_previous_content sample.clock sample.clock
           sample.clock sample.clock sample.rangeOrder map_to_list
           (Ok sample.paymentFile) (Ok sample.settlementFile)
           sample.ledger sample.emptyDB).
  - constructor.
  - constructor.
Defined.

Lemma ingestion_numbers_rows_from_one_witness :
  NoDup (Record_ID <$> records (IngestAllFiles sample.clock sample.clock sample.rangeOrder
                                  (Ok sample.paymentFile) (Ok sample.settlementFile)
                                  sample.ledger).1).
Proof.
  apply (ingestion_numbers_rows_from_one sample.clock sample.clock sample.rangeOrder
           (Ok sample.paymentFile) (Ok sample.settlementFile) sample.ledger).
  constructor.
Defined.

Lemma ingestion_stops_without_header_witness :
  IngestAllFiles sample.clock sample.clock sample.rangeOrder
    (Ok ((Ok <$> replicate 20 ["Statement"; "March"]) ++ sample.paymentFile))
    (Ok sample.settlementFile) sample.ledger
  = ((ClearExistingData sample.ledger).1, Some (Errorf "headers not found")).
Proof.
  apply (ingestion_stops_without_header sample.clock sample.clock sample.rangeOrder
           (replicate 20 ["Statement"; "March"]) sample.paymentFile
           (Ok sample.settlementFile) sample.ledger).
  - reflexivity.
  - repeat constructor.
Defined.

Lemma reconciliation_rebuild_is_idempotent_witness :
  resultKey <$> reconciled_records
                  (RunReconciliation_in (fun rows => rows)
                     (RunReconciliation_in reverse sample.ledger).1).1
  ≡ₚ resultKey <$> reconciled_records (RunReconciliation_in reverse sample.ledger).1.
Proof.
  apply (reconciliation_rebuild_is_idempotent reverse (fun rows => rows) sample.ledger).
  - intros rows. apply reverse_Permutation.
  - reflexivity.
  - constructor.
Defined.

(** The sample store reconciled twice, by an engine that returns the rows
    of the join last to first and then by one that returns them first to
    last: the same results in another order, with new identifiers. *)
Example ledger_reconciled_twice :
  (fun rr => (ReconciledRecord_ID rr, resultKey rr))
    <$> reconciled_records (RunReconciliation_in reverse sample.ledger).1
  = [(2, (2, 5, 5%float)); (3, (1, 4, 0%float))]
  ∧ (fun rr => (ReconciledRecord_ID rr, resultKey rr))
      <$> reconciled_records
            (RunReconciliation_in (fun rows => rows)
               (RunReconciliation_in reverse sample.ledger).1).1
    = [(4, (1, 4, 0%float)); (5, (2, 5, 5%float))].
Proof. split; vm_compute; reflexivity. Qed.

Lemma no_payment_is_reconciled_twice_witness :
  NoDup (ReconciledRecord_PaymentsRecordID
           <$> reconciled_records
                 (RunReconciliation
                    (IngestAllFiles sample.clock sample.clock sample.rangeOrder
                       (Ok sample.paymentFile) (Ok sample.settlementFile)
                       sample.ledger).1).1).
Proof.
  apply (no_payment_is_reconciled_twice sample.clock sample.clock sample.rangeOrder
           (Ok sample.paymentFile) (Ok sample.settlementFile) sample.ledger).
  - exact utils_more.sample_rangeOrder_permutation.
  - constructor.
Defined.

(** The sample files from end to end: ORD001 is reconciled with
    difference 0 and ORD002 with difference 5. *)
Example sample_files_reconciled :
  resultKey <$> reconciled_records
                  (RunReconciliation
                     (IngestAllFiles sample.clock sample.clock sample.rangeOrder
                        (Ok sample.paymentFile) (Ok sample.settlementFile)
                        sample.ledger).1).1
  = [(1, 4, 0%float); (2, 3, 5%float)].
Proof. vm_compute. reflexivity. Qed.

End controllers_more.

(** ** The report *)
Module views_facts.
Import models config controllers views statements config_facts.

(** In a table with distinct identifiers, the rows with the identifier of
    a row [p0] of the table are [p0] alone. *)
Lemma bind_by_id {B : Type} (rs : list Record_) (p0 : Record_) (g : Record_ -> list B) :
  NoDup (Record_ID <$> rs) ->
  p0 ∈ rs ->
  rs ≫= (fun p => if decide (Record_ID p0 = Record_ID p) then g p else []) = g p0.
Proof.
  induction rs as [|a rs IH]; intros Hnd Hin; [by apply elem_of_nil in Hin|].
  rewrite fmap_cons in Hnd. apply NoDup_cons in Hnd as [Hfresh Hnd].
  rewrite bind_cons.
  apply elem_of_cons in Hin as [->|Hin].
  - rewrite decide_True by done.
    assert (rs ≫= (fun p => if decide (Record_ID a = Record_ID p) then g p else []) = [])
      as ->; [|by rewrite app_nil_r].
    clear IH Hnd. induction rs as [|b rs IHrs]; [reflexivity|].
    rewrite bind_cons. rewrite fmap_cons, not_elem_of_cons in Hfresh.
    destruct Hfresh as [Hab Hfresh]. rewrite decide_False by done. by apply IHrs.
  - rewrite decide_False; [by apply IH|].
    intros Heq. apply Hfresh. rewrite <- Heq. by apply list_elem_of_fmap_2.
Qed.

(** The rows of the report for results that were inserted, without
    failure, for rows of the join. *)
Lemma reportRows_of_results (rs : list Record_) (rows : list JoinRow) :
  NoDup (Record_ID <$> rs) ->
  (forall row, row ∈ rows -> row ∈ joinRows rs) ->
  forall (seq : Z) (fs : list (option error)),
    Forall (fun f => f = None) fs ->
    insertedResults seq rows fs
    ≫= (fun r =>
          rs ≫= (fun p =>
            if decide (ReconciledRecord_PaymentsRecordID r = Record_ID p)
            then rs ≫= (fun s =>
                   if decide (ReconciledRecord_SettlementsRecordID r = Record_ID s)
                   then [(Record_OrderID p, Record_TotalAmount p, Record_TotalAmount s,
                          ReconciledRecord_AmountDifference r)]
                   else [])
            else []))
    = (fun row : JoinRow =>
         (row.1.1.1.2, row.1.1.2, row.2, PrimFloat.sub row.1.1.2 row.2)) <$> rows.
Proof.
  intros Hnd. induction rows as [|row rows IH]; intros Hrows seq fs Hno; [reflexivity|].
  assert (Forall (fun f => f = None) (tail fs)) as Hno'.
  { destruct fs; [done|]. by inversion Hno. }
  destruct row as [[[[paymentId orderId] paymentTotal] settlementId] settlementTotal].
  assert ((paymentId, orderId, paymentTotal, settlementId, settlementTotal) ∈ joinRows rs)
    as Hrow by apply Hrows, list_elem_of_here.
  apply controllers_facts.elem_of_joinRows in Hrow
    as (p0 & s0 & Hp0 & Hs0 & _ & _ & _ & -> & -> & -> & -> & ->).
  assert (forall r, r ∈ rows -> r ∈ joinRows rs) as Hrows'.
  { intros r Hr. by apply Hrows, list_elem_of_further. }
  cbn [insertedResults].
  destruct fs as [|[e|] fs]; [| by inversion Hno |]; cbn [tail] in *;
    rewrite bind_cons, fmap_cons, (IH Hrows') by done; f_equal;
    cbn [ReconciledRecord_PaymentsRecordID ReconciledRecord_SettlementsRecordID
         ReconciledRecord_AmountDifference fst snd];
    rewrite (bind_by_id rs p0) by done; by rewrite (bind_by_id rs s0) by done.
Qed.

Section ReportFacts.
Variable FormatFloat : float -> string.
Variable Scan : ReportRow -> option error.

(** When every row can be scanned, the loop writes one record for each
    row, in the order of the rows, after what was written. *)
Lemma writeRows_all (rows : list ReportRow) :
  (forall row, Scan row = None) ->
  forall written : list (list string),
    writeRows FormatFloat Scan rows written
    = (written ++ (reportRecord FormatFloat <$> rows), None).
Proof.
  intros Hscan. induction rows as [|row rows IH]; intros written; cbn [writeRows].
  - by rewrite app_nil_r.
  - rewrite Hscan, IH, <- app_assoc. reflexivity.
Qed.

(** X19. The report after a reconciliation.  In a store that takes every
    call, with distinct identifiers in [records], a report file that can
    be created and rows that can be scanned, and whatever the order in
    which the engine returns the rows of the two queries (neither has an
    [ORDER BY]): [GenerateCSVReport] after [RunReconciliation] returns nil
    and writes the header and then, in some order, one record for each
    pair of a payments row and a settlements row with the same order key,
    and nothing else: an order present on one side only has no line. *)
Theorem report_has_one_line_per_matched_pair
    (joinOrder : list JoinRow -> list JoinRow)
    (reportOrder : list ReportRow -> list ReportRow) (file : ReportFile) (db : DB) :
  (forall rows, joinOrder rows ≡ₚ rows) ->
  (forall rows, reportOrder rows ≡ₚ rows) ->
  (forall row, Scan row = None) ->
  noFaults db ->
  NoDup (Record_ID <$> records db) ->
  exists lines : list (list string),
    (GenerateCSVReport FormatFloat Scan reportOrder None file
       (RunReconciliation_in joinOrder db).1).1.2
    = Some (reportHeader :: lines)
    ∧ lines ≡ₚ reportRecordOf FormatFloat <$> joinRows (records db)
    ∧ (GenerateCSVReport FormatFloat Scan reportOrder None file
         (RunReconciliation_in joinOrder db).1).2 = None.
Proof.
  intros Hjoin Hreport Hscan Hno Hnd.
  destruct (controllers_more.RunReconciliation_in_noFaults joinOrder db Hno)
    as (Hno3 & _ & Hrecs & Hresults).
  set (db3 := (RunReconciliation_in joinOrder db).1) in *.
  unfold GenerateCSVReport, Query_report.
  destruct (noFaults_next db3 Hno3) as [Hfst _].
  destruct (nextFault_tables db3) as (Hr & Hrr & _).
  destruct (nextFault db3) as [f db4]. cbn [fst snd] in *. subst f.
  rewrite (writeRows_all _ Hscan). cbn [fst snd app].
  exists (reportRecord FormatFloat <$> reportOrder (reportRows db4)).
  split; [reflexivity|]. split; [|reflexivity].
  rewrite Hreport. unfold reportRows. rewrite Hr, Hrr, Hresults, Hrecs.
  rewrite (reportRows_of_results (records db) (joinOrder (joinRows (records db))) Hnd).
  - rewrite <- list_fmap_compose, Hjoin. reflexivity.
  - intros row Hrow. by rewrite Hjoin in Hrow.
  - unfold noFaults in Hno. by apply Forall_drop.
Qed.

(** A row that cannot be scanned ends the report: the call returns the
    error of [rows.Scan] and the file holds the header and the records of
    the rows before it. *)
Lemma report_stops_at_unscanned_row (before after : list ReportRow) (row : ReportRow)
    (e : error) :
  (forall r, r ∈ before -> Scan r = None) ->
  Scan row = Some e ->
  writeRows FormatFloat Scan (before ++ row :: after) [reportHeader]
  = (reportHeader :: (reportRecord FormatFloat <$> before), Some e).
Proof.
  intros Hbefore Hrow.
  enough (forall written,
            writeRows FormatFloat Scan (before ++ row :: after) written
            = (written ++ (reportRecord FormatFloat <$> before), Some e)) as Hgen
    by apply Hgen.
  induction before as [|r before IH]; intros written; cbn [app writeRows].
  - by rewrite Hrow, app_nil_r.
  - rewrite (Hbefore r) by apply list_elem_of_here.
    rewrite IH, <- app_assoc; [reflexivity|].
    intros r' Hr'. by apply Hbefore, list_elem_of_further.
Qed.

End ReportFacts.

Lemma report_has_one_line_per_matched_pair_witness :
  exists lines : list (list string),
    (GenerateCSVReport sample.FormatFloat (fun _ => None) reverse None None
       (RunReconciliation_in reverse sample.ledger).1).1.2
    = Some (reportHeader :: lines)
    ∧ lines ≡ₚ reportRecordOf sample.FormatFloat <$> joinRows (records sample.ledger)
    ∧ (GenerateCSVReport sample.FormatFloat (fun _ => None) reverse None None
         (RunReconciliation_in reverse sample.ledger).1).2 = None.
Proof.
  apply (report_has_one_line_per_matched_pair sample.FormatFloat (fun _ => None)
           reverse reverse None sample.ledger).
  - intros rows. apply reverse_Permutation.
  - intros rows. apply reverse_Permutation.
  - reflexivity.
  - constructor.
  - apply (bool_decide_unpack (NoDup (Record_ID <$> records sample.ledger))).
    vm_compute. exact I.
Defined.

(** The report of the sample store, by an engine that returns the rows in
    the order of the tables, and by one that returns the rows of the
    report last to first. *)
Example ledger_report :
  (GenerateCSVReport sample.FormatFloat (fun _ => None) (fun rows => rows) None None
     (RunReconciliation sample.ledger).1).1.2
  = Some [reportHeader;
          ["ORD001"; "reconciled"; "100.00"; "100.00"; "0.00"];
          ["ORD002"; "unreconciled"; "150.00"; "145.00"; "5.00"]]
  ∧ (GenerateCSVReport sample.FormatFloat (fun _ => None) reverse None None
       (RunReconciliation sample.ledger).1).1.2
    = Some [reportHeader;
            ["ORD002"; "unreconciled"; "150.00"; "145.00"; "5.00"];
            ["ORD001"; "reconciled"; "100.00"; "100.00"; "0.00"]].
Proof. split; vm_compute; reflexivity. Qed.

End views_facts.

(** ** The worker pool of the batch inserter *)
Module pool_facts.
Import models config db statements config_facts.

(** A worker in the list of workers, and the list after its move. *)
Lemma workers_split (ws : list WorkerState) (w : nat) (st : WorkerState) :
  ws !! w = Some st ->
  exists l1 l2,
    ws = l1 ++ st :: l2
    ∧ forall st', <[w := st']> ws = l1 ++ st' :: l2.
Proof.
  intros Hw. exists (take w ws), (drop (S w) ws). split.
  - by rewrite take_drop_middle.
  - intros st'. apply insert_take_drop. by eapply lookup_lt_Some.
Qed.

Lemma heldBatches_app (l1 l2 : list WorkerState) (st : WorkerState) :
  heldBatches (l1 ++ st :: l2)
  = heldBatches l1
    ++ match st with Inserting batch => [batch] | _ => [] end
    ++ heldBatches l2.
Proof.
  unfold heldBatches. rewrite omap_app. f_equal. by destruct st.
Qed.

Lemma sendingCount_app (l1 l2 : list WorkerState) (st : WorkerState) :
  sendingCount (l1 ++ st :: l2)
  = (sendingCount l1 + (if isSending st then 1 else 0) + sendingCount l2)%nat.
Proof.
  unfold sendingCount. rewrite List.filter_app, length_app. cbn [List.filter].
  destruct (isSending st); cbn [length]; lia.
Qed.

Lemma finishedCount_app (l1 l2 : list WorkerState) (st : WorkerState) :
  finishedCount (l1 ++ st :: l2)
  = (finishedCount l1 + (if isFinished st then 1 else 0) + finishedCount l2)%nat.
Proof.
  unfold finishedCount. rewrite List.filter_app, length_app. cbn [List.filter].
  destruct (isFinished st); cbn [length]; lia.
Qed.

Lemma finishedCount_le (ws : list WorkerState) : (finishedCount ws <= length ws)%nat.
Proof. apply List.filter_length_le. Qed.

(** Workers that all wait at the head of their loop. *)
Lemma receiving_workers (n : nat) :
  heldBatches (replicate n Receiving) = []
  ∧ sendingCount (replicate n Receiving) = 0%nat
  ∧ finishedCount (replicate n Receiving) = 0%nat.
Proof.
  induction n as [|n (IH1 & IH2 & IH3)]; [done|]. by split; [|split].
Qed.

(** Workers that have all returned. *)
Lemma finished_workers (ws : list WorkerState) :
  forallb isFinished ws = true ->
  heldBatches ws = []
  ∧ sendingCount ws = 0%nat
  ∧ finishedCount ws = length ws.
Proof.
  induction ws as [|st ws IH]; [done|]. cbn [forallb]. intros [Hst Hws]%andb_prop.
  destruct (IH Hws) as (IH1 & IH2 & IH3). destruct st; try discriminate.
  unfold finishedCount in *. cbn [List.filter isFinished length].
  split; [done|]. split; [done|]. by rewrite IH3.
Qed.

(** [insertBatch] stores the rows of the batch after the rows that were
    there, or nothing. *)
Lemma insertBatch_outcome (bi : BatchInserter) (batch : list BatchRecord) (db : DB) :
  match BatchInserter_insertBatch bi batch db with
  | (db', None) =>
      records db' = records db ++ assignIDs (records_id_seq db) (valuesOf <$> batch)
      ∧ records_id_seq db' = records_id_seq db + Z.of_nat (length batch)
  | (db', Some _) =>
      records db' = records db ∧ records_id_seq db' = records_id_seq db
  end.
Proof.
  destruct batch as [|record batch].
  - cbn. rewrite app_nil_r. split; [done|lia].
  - unfold BatchInserter_insertBatch, Exec_insert_records, nextFault.
    destruct (faults db) as [|[e|] rest]; cbn [records records_id_seq];
      rewrite ?length_fmap; done.
Qed.

(** Every action of a worker keeps the invariant of the pool. *)
Lemma workerStep_invariant (bi : BatchInserter) (batches : list (list BatchRecord))
    (db0 : DB) (pool : Pool) (w : nat) :
  poolInvariant bi batches db0 pool ->
  poolInvariant bi batches db0 (workerStep bi pool w).
Proof.
  destruct pool as [chan errs ws db].
  intros (Hlen & Hcap & Hopen & stored & failed & Hrecs & Hseq & Hperm & Hfailed).
  cbn [Pool_batchChan Pool_errorChan Pool_workers Pool_db] in *.
  unfold workerStep. cbn [Pool_batchChan Pool_errorChan Pool_workers Pool_db].
  destruct (ws !! w) as [st|] eqn:Hw;
    [|by split; [|split; [|split; [|exists stored, failed]]]].
  destruct (workers_split ws w st Hw) as (l1 & l2 & -> & Hins).
  rewrite heldBatches_app in Hperm.
  rewrite sendingCount_app in Hfailed.
  rewrite finishedCount_app in Hcap, Hopen.
  rewrite length_app in Hlen. cbn [length] in Hlen.
  destruct st as [|batch|err|].
  - (* a receive *)
    cbn [isSending isFinished] in *.
    destruct chan as [|batch rest]; unfold poolInvariant;
      cbn [Pool_batchChan Pool_errorChan Pool_workers Pool_db];
      rewrite Hins, heldBatches_app, sendingCount_app, finishedCount_app, length_app;
      cbn [isSending isFinished length].
    + split; [done|]. split; [lia|]. split; [done|].
      exists stored, failed. by split; [|split; [|split]].
    + split; [done|]. split; [lia|]. split; [intros _; apply Hopen; done|].
      exists stored, failed. split; [done|]. split; [done|]. split; [|done].
      rewrite <- Hperm. solve_Permutation.
  - (* the insert *)
    cbn [isSending isFinished] in *.
    pose proof (insertBatch_outcome bi batch db) as Hout.
    destruct (BatchInserter_insertBatch bi batch db) as [db' [err|]];
      destruct Hout as [Hrecs' Hseq']; unfold poolInvariant;
      cbn [Pool_batchChan Pool_errorChan Pool_workers Pool_db];
      rewrite Hins, heldBatches_app, sendingCount_app, finishedCount_app, length_app;
      cbn [isSending isFinished length].
    + split; [done|]. split; [lia|]. split; [done|].
      exists stored, (batch :: failed). split; [congruence|]. split; [congruence|].
      split; [rewrite <- Hperm; solve_Permutation|]. cbn [length]. lia.
    + split; [done|]. split; [lia|]. split; [done|].
      exists (stored ++ [batch]), failed.
      rewrite concat_app, fmap_app, length_app. cbn [concat]. rewrite app_nil_r.
      split; [|split; [|split]].
      * rewrite db_more.assignIDs_app, length_fmap, app_assoc, <- Hrecs, <- Hseq. done.
      * lia.
      * rewrite <- Hperm. solve_Permutation.
      * done.
  - (* the send *)
    cbn [isSending isFinished] in *.
    pose proof (finishedCount_le l1). pose proof (finishedCount_le l2).
    destruct (Z.of_nat (length errs) <? BatchInserter_workers bi) eqn:Hroom;
      [|apply Z.ltb_ge in Hroom; lia].
    unfold poolInvariant; cbn [Pool_batchChan Pool_errorChan Pool_workers Pool_db].
    rewrite Hins, heldBatches_app, sendingCount_app, finishedCount_app, !length_app.
    cbn [isSending isFinished length].
    split; [done|]. split; [lia|]. split; [intros Hc; specialize (Hopen Hc); lia|].
    exists stored, failed. split; [done|]. split; [done|]. split; [done|]. lia.
  - (* returned *)
    unfold poolInvariant; cbn [Pool_batchChan Pool_errorChan Pool_workers Pool_db].
    rewrite heldBatches_app, sendingCount_app, finishedCount_app, length_app.
    cbn [length]. split; [done|]. split; [done|]. split; [done|].
    by exists stored, failed.
Qed.

(** Every schedule keeps the invariant of the pool. *)
Lemma schedule_invariant (bi : BatchInserter) (batches : list (list BatchRecord))
    (db0 : DB) (schedule : list nat) :
  forall pool : Pool,
    poolInvariant bi batches db0 pool ->
    poolInvariant bi batches db0 (fold_left (workerStep bi) schedule pool).
Proof.
  induction schedule as [|w schedule IH]; intros pool Hinv; [done|].
  cbn [fold_left]. apply IH. by apply workerStep_invariant.
Qed.

(** The pool that [BatchInsertRecords] starts. *)
Lemma initial_invariant (bi : BatchInserter) (batches : list (list BatchRecord)) (db : DB) :
  0 <= BatchInserter_workers bi ->
  poolInvariant bi batches db
    (mkPool batches [] (replicate (Z.to_nat (BatchInserter_workers bi)) Receiving) db).
Proof.
  intros Hworkers. unfold poolInvariant.
  cbn [Pool_batchChan Pool_errorChan Pool_workers Pool_db].
  destruct (receiving_workers (Z.to_nat (BatchInserter_workers bi))) as (-> & -> & ->).
  rewrite length_replicate. split; [lia|]. split; [done|]. split; [done|].
  exists [], []. cbn. rewrite app_nil_r. split; [done|]. split; [lia|done].
Qed.

(** An action of a worker takes one from its own bound and adds nothing
    to the bound of another worker. *)
Lemma workerStep_stepsLeft (bi : BatchInserter) (batches : list (list BatchRecord))
    (db0 : DB) (pool : Pool) (w v : nat) :
  poolInvariant bi batches db0 pool ->
  (stepsLeft (workerStep bi pool w) v
   <= stepsLeft pool v - (if decide (w = v) then 1 else 0))%nat.
Proof.
  destruct pool as [chan errs ws db]. intros (Hlen & Hcap & _).
  cbn [Pool_batchChan Pool_errorChan Pool_workers Pool_db] in *.
  unfold workerStep, stepsLeft. cbn [Pool_batchChan Pool_errorChan Pool_workers Pool_db].
  destruct (ws !! w) as [st|] eqn:Hw.
  2:{ cbn [Pool_workers Pool_batchChan].
      destruct (decide (w = v)) as [->|Hne]; [rewrite Hw|]; lia. }
  assert (w < length ws)%nat as Hlt by (by eapply lookup_lt_Some).
  destruct (decide (w = v)) as [<-|Hne].
  - rewrite Hw. destruct st as [|batch|err|].
    + destruct chan as [|batch rest]; cbn [Pool_workers Pool_batchChan length];
        rewrite list_lookup_insert_eq by done; lia.
    + destruct (BatchInserter_insertBatch bi batch db) as [db' [err|]];
        cbn [Pool_workers Pool_batchChan]; rewrite list_lookup_insert_eq by done; lia.
    + destruct (workers_split ws w _ Hw) as (l1 & l2 & Hws & _).
      rewrite Hws, finishedCount_app in Hcap. rewrite Hws, length_app in Hlen.
      cbn [isFinished length] in *.
      pose proof (finishedCount_le l1). pose proof (finishedCount_le l2).
      destruct (Z.of_nat (length errs) <? BatchInserter_workers bi) eqn:Hroom;
        [|apply Z.ltb_ge in Hroom; lia].
      cbn [Pool_workers Pool_batchChan]. rewrite list_lookup_insert_eq by done. lia.
    + cbn [Pool_workers]. rewrite Hw. lia.
  - rewrite Nat.sub_0_r. destruct st as [|batch|err|].
    + destruct chan as [|batch rest]; cbn [Pool_workers Pool_batchChan length];
        rewrite list_lookup_insert_ne by done; destruct (ws !! v) as [[| | |]|]; lia.
    + destruct (BatchInserter_insertBatch bi batch db) as [db' [err|]];
        cbn [Pool_workers Pool_batchChan]; by rewrite list_lookup_insert_ne.
    + destruct (Z.of_nat (length errs) <? BatchInserter_workers bi);
        cbn [Pool_workers Pool_batchChan]; by rewrite ?list_lookup_insert_ne.
    + done.
Qed.

(** After a schedule, the bound of a worker is lower by the number of its
    turns. *)
Lemma schedule_stepsLeft (bi : BatchInserter) (batches : list (list BatchRecord))
    (db0 : DB) (v : nat) (schedule : list nat) :
  forall pool : Pool,
    poolInvariant bi batches db0 pool ->
    (stepsLeft (fold_left (workerStep bi) schedule pool) v
     <= stepsLeft pool v - count_occ Nat.eq_dec schedule v)%nat.
Proof.
  induction schedule as [|w schedule IH]; intros pool Hinv; cbn [fold_left].
  - cbn [count_occ]. lia.
  - pose proof (IH _ (workerStep_invariant bi batches db0 pool w Hinv)) as Hrest.
    pose proof (workerStep_stepsLeft bi batches db0 pool w v Hinv) as Hstep.
    destruct (decide (w = v)) as [->|Hne].
    + rewrite count_occ_cons_eq by done. lia.
    + rewrite count_occ_cons_neq by done. lia.
Qed.

(** The workers whose bound is zero have returned. *)
Lemma stepsLeft_zero (pool : Pool) :
  (forall v, (v < length (Pool_workers pool))%nat -> stepsLeft pool v = 0%nat) ->
  forallb isFinished (Pool_workers pool) = true.
Proof.
  intros Hzero. apply Is_true_eq_true, forallb_True, Forall_lookup. intros v st Hv.
  specialize (Hzero v (lookup_lt_Some _ _ _ Hv)). unfold stepsLeft in Hzero.
  rewrite Hv in Hzero. destruct st; done || lia.
Qed.

(** There are no more batches than records. *)
Lemma batches_count_le (batchSize : Z) (batches : list (list BatchRecord)) :
  boundedBatches batchSize batches ->
  (length batches <= length (concat batches))%nat.
Proof.
  induction 1 as [|b batches Hb _ IH]; [done|].
  cbn [concat length]. rewrite length_app. lia.
Qed.

(** A schedule that gives every worker two turns for each record, and
    one more, lets all workers return. *)
Lemma fair_schedule_finishes (bi : BatchInserter) (batches : list (list BatchRecord))
    (db : DB) (schedule : list nat) (n : nat) :
  0 <= BatchInserter_workers bi ->
  (length batches <= n)%nat ->
  (forall w, (w < Z.to_nat (BatchInserter_workers bi))%nat ->
             (2 * n + 1 <= count_occ Nat.eq_dec schedule w)%nat) ->
  forallb isFinished
    (Pool_workers
       (fold_left (workerStep bi) schedule
          (mkPool batches [] (replicate (Z.to_nat (BatchInserter_workers bi)) Receiving) db)))
  = true.
Proof.
  intros Hworkers Hn Hfair. apply stepsLeft_zero. intros v Hv.
  pose proof (initial_invariant bi batches db Hworkers) as Hinit.
  destruct (schedule_invariant bi batches db schedule _ Hinit) as (Hlen & _).
  pose proof (schedule_stepsLeft bi batches db v schedule _ Hinit) as Hsteps.
  assert (v < Z.to_nat (BatchInserter_workers bi))%nat as Hv' by lia.
  specialize (Hfair v Hv'). unfold stepsLeft at 2 in Hsteps.
  cbn [Pool_workers Pool_batchChan] in Hsteps.
  rewrite lookup_replicate_2 in Hsteps by done. lia.
Qed.

(** In a store without faults no worker meets an error. *)
Lemma workerStep_quiet (bi : BatchInserter) (pool : Pool) (w : nat) :
  quietPool pool -> quietPool (workerStep bi pool w).
Proof.
  destruct pool as [chan errs ws db]. unfold quietPool.
  cbn [Pool_batchChan Pool_errorChan Pool_workers Pool_db].
  intros (Hno & -> & Hsend). unfold workerStep.
  cbn [Pool_batchChan Pool_errorChan Pool_workers Pool_db].
  destruct (ws !! w) as [st|] eqn:Hw; [|done].
  destruct (workers_split ws w st Hw) as (l1 & l2 & -> & Hins).
  rewrite sendingCount_app in Hsend.
  destruct st as [|batch|err|]; cbn [isSending] in Hsend; [| |lia|].
  - destruct chan as [|batch rest];
      cbn [Pool_batchChan Pool_errorChan Pool_workers Pool_db];
      rewrite Hins, sendingCount_app; cbn [isSending]; by split; [|split; [|lia]].
  - assert (exists db', BatchInserter_insertBatch bi batch db = (db', None) ∧ noFaults db')
      as (db' & -> & Hno').
    { destruct batch as [|record batch]; [by exists db|].
      unfold BatchInserter_insertBatch.
      rewrite (controllers_more.Exec_insert_records_noFaults _ db Hno).
      eexists. split; [done|]. by apply controllers_more.noFaults_drop. }
    cbn [Pool_batchChan Pool_errorChan Pool_workers Pool_db].
    rewrite Hins, sendingCount_app. cbn [isSending]. by split; [|split; [|lia]].
  - cbn [Pool_batchChan Pool_errorChan Pool_workers Pool_db].
    rewrite sendingCount_app. cbn [isSending]. by split; [|split; [|lia]].
Qed.

Lemma schedule_quiet (bi : BatchInserter) (schedule : list nat) :
  forall pool : Pool, quietPool pool -> quietPool (fold_left (workerStep bi) schedule pool).
Proof.
  induction schedule as [|w schedule IH]; intros pool Hq; [done|].
  cbn [fold_left]. apply IH. by apply workerStep_quiet.
Qed.

(** Without workers, no action changes the pool. *)
Lemma schedule_without_workers (bi : BatchInserter) (schedule : list nat) :
  forall pool : Pool,
    Pool_workers pool = [] -> fold_left (workerStep bi) schedule pool = pool.
Proof.
  induction schedule as [|w schedule IH]; intros pool Hws; [done|].
  cbn [fold_left]. assert (workerStep bi pool w = pool) as ->; [|by apply IH].
  unfold workerStep. by rewrite Hws, lookup_nil.
Qed.

(** What a call that returns has gone through: the batches were cut, the
    pool ran from its start to the return of all workers. *)
Lemma BatchInsertRecords_returned (bi : BatchInserter) (obtained : bool)
    (schedule : list nat) (records : list BatchRecord) (db db' : DB) (r : option error) :
  records ≠ [] ->
  BatchInserter_BatchInsertRecords bi obtained schedule records db
  = Ends (Returns (db', r)) ->
  exists (batches : list (list BatchRecord)) (pool : Pool),
    BatchInserter_createBatches bi records = Returns batches
    ∧ 0 <= BatchInserter_workers bi
    ∧ pool = fold_left (workerStep bi) schedule
               (mkPool batches []
                  (replicate (Z.to_nat (BatchInserter_workers bi)) Receiving) db)
    ∧ forallb isFinished (Pool_workers pool) = true
    ∧ Pool_db pool = db'
    ∧ head (Pool_errorChan pool) = r.
Proof.
  intros Hsome. unfold BatchInserter_BatchInsertRecords.
  destruct records as [|record records]; [done|].
  destruct (BatchInserter_createBatches bi (record :: records)) as [batches| |];
    [|done|done].
  unfold makechanPanics.
  destruct (BatchInserter_workers bi <? 0) eqn:Hneg; [done|]. apply Z.ltb_ge in Hneg.
  destruct (maxAlloc - hchanSize <? _); [done|]. cbn [orb].
  destruct (_ && negb obtained); [done|].
  destruct (forallb isFinished _) eqn:Hfin; [|done]. intros [= Hdb Hr].
  by exists batches, (fold_left (workerStep bi) schedule
                      (mkPool batches []
                         (replicate (Z.to_nat (BatchInserter_workers bi)) Receiving) db)).
Qed.

(** The pool when all workers have returned: the table holds the rows of
    the stored batches; as many batches failed as errors were sent; the
    other batches were left in the channel. *)
Lemma returned_pool (bi : BatchInserter) (batches : list (list BatchRecord))
    (db0 : DB) (pool : Pool) :
  poolInvariant bi batches db0 pool ->
  forallb isFinished (Pool_workers pool) = true ->
  exists stored failed : list (list BatchRecord),
    records (Pool_db pool)
    = records db0 ++ assignIDs (records_id_seq db0) (valuesOf <$> concat stored)
    ∧ stored ++ failed ++ Pool_batchChan pool ≡ₚ batches
    ∧ length failed = length (Pool_errorChan pool)
    ∧ (1 <= BatchInserter_workers bi -> Pool_errorChan pool = [] ->
       Pool_batchChan pool = []).
Proof.
  intros (Hlen & Hcap & Hopen & stored & failed & Hrecs & Hseq & Hperm & Hfailed) Hfin.
  destruct (finished_workers _ Hfin) as (Hheld & Hsend & Hcount).
  rewrite Hheld in Hperm. rewrite Hsend in Hfailed. rewrite Hcount in Hopen.
  exists stored, failed. split; [done|]. split; [done|]. split; [lia|].
  intros Hworkers Herrs. destruct (Pool_batchChan pool) as [|batch rest]; [done|].
  rewrite Herrs in Hopen. cbn [length] in Hopen. specialize (Hopen ltac:(done)). lia.
Qed.

(** X20. The worker pool, under every interleaving of its workers and
    whatever the store does: when [BatchInsertRecords] of an inserter with
    at least one worker returns nil, every batch that [createBatches] cut
    has been stored, whole and once; the table has gained the rows of the
    batches in the order of the inserts, which is some order of the
    batches. *)
Theorem BatchInsertRecords_nil_stores_every_batch (bi : BatchInserter)
    (obtained : bool) (schedule : list nat) (records : list BatchRecord) (db db' : DB) :
  1 <= BatchInserter_workers bi ->
  BatchInserter_BatchInsertRecords bi obtained schedule records db
  = Ends (Returns (db', None)) ->
  exists batches order : list (list BatchRecord),
    BatchInserter_createBatches bi records = Returns batches
    ∧ order ≡ₚ batches
    ∧ config.records db'
      = config.records db ++ assignIDs (records_id_seq db) (valuesOf <$> concat order).
Proof.
  intros Hworkers Hrun. destruct (decide (records = [])) as [->|Hsome].
  - injection Hrun as <-. exists [], []. cbn. by rewrite app_nil_r.
  - destruct (BatchInsertRecords_returned bi obtained schedule records db db' None
                Hsome Hrun)
      as (batches & pool & Hcut & Hpos & Hpool & Hfin & Hdb & Herr).
    assert (poolInvariant bi batches db pool) as Hinv.
    { rewrite Hpool. by apply schedule_invariant, initial_invariant. }
    destruct (returned_pool bi batches db pool Hinv Hfin)
      as (stored & failed & Hrecs & Hperm & Hfailed & Hclosed).
    assert (Pool_errorChan pool = []) as Herrs.
    { by destruct (Pool_errorChan pool). }
    rewrite (Hclosed Hworkers Herrs) in Hperm. rewrite Herrs in Hfailed.
    destruct failed; [|done]. cbn [app] in Hperm. rewrite app_nil_r in Hperm.
    exists batches, stored. rewrite <- Hdb. done.
Qed.

(** X21. The worker pool, under every interleaving: when
    [BatchInsertRecords] returns an error, the table has gained the rows
    of some of the batches, each of them whole, and not of all of them. *)
Theorem BatchInsertRecords_error_stores_whole_batches (bi : BatchInserter)
    (obtained : bool) (schedule : list nat) (records : list BatchRecord) (db db' : DB)
    (e : error) :
  BatchInserter_BatchInsertRecords bi obtained schedule records db
  = Ends (Returns (db', Some e)) ->
  exists batches stored : list (list BatchRecord),
    BatchInserter_createBatches bi records = Returns batches
    ∧ stored ⊆+ batches
    ∧ (length stored < length batches)%nat
    ∧ config.records db'
      = config.records db ++ assignIDs (records_id_seq db) (valuesOf <$> concat stored).
Proof.
  intros Hrun. destruct (decide (records = [])) as [->|Hsome]; [done|].
  destruct (BatchInsertRecords_returned bi obtained schedule records db db' (Some e)
              Hsome Hrun)
    as (batches & pool & Hcut & Hpos & Hpool & Hfin & Hdb & Herr).
  assert (poolInvariant bi batches db pool) as Hinv.
  { rewrite Hpool. by apply schedule_invariant, initial_invariant. }
  destruct (returned_pool bi batches db pool Hinv Hfin)
    as (stored & failed & Hrecs & Hperm & Hfailed & _).
  exists batches, stored. split; [done|]. split; [|split].
  - rewrite <- Hperm. by apply submseteq_inserts_r.
  - apply Permutation_length in Hperm. rewrite !length_app in Hperm.
    destruct (Pool_errorChan pool); [done|]. cbn [length] in Hfailed. lia.
  - by rewrite <- Hdb.
Qed.

(** X22. The worker pool cannot block.  For an inserter with a batch
    size from 1 and a number of workers that is not negative and within
    the limit of [make(chan error, bi.workers)], when the runtime obtains
    the memory of the buffer of [errorChan] and of the workers, every
    schedule that gives each worker two turns for each record, and one
    more, lets [BatchInsertRecords] return, whatever the store does.  (A
    worker that fails always finds room for its error in [errorChan].) *)
Theorem BatchInsertRecords_returns (bi : BatchInserter) (schedule : list nat)
    (records : list BatchRecord) (db : DB) :
  1 <= BatchInserter_batchSize bi < 2 ^ 63 ->
  Z.of_nat (length records) <= 2 ^ 62 ->
  0 <= BatchInserter_workers bi ->
  sizeofError * BatchInserter_workers bi <= maxAlloc - hchanSize ->
  (forall w, (w < Z.to_nat (BatchInserter_workers bi))%nat ->
             (2 * length records + 1 <= count_occ Nat.eq_dec schedule w)%nat) ->
  exists (db' : DB) (r : option error),
    BatchInserter_BatchInsertRecords bi true schedule records db = Ends (Returns (db', r)).
Proof.
  intros Hsize Hfit Hworkers Hlimit Hfair. unfold BatchInserter_BatchInsertRecords.
  destruct records as [|record records]; [by eexists _, _|].
  destruct (db_facts.createBatchesLoop_from_start _ (record :: records) Hsize Hfit)
    as (batches & Hcut & Hcat & Hbound & _).
  unfold BatchInserter_createBatches. rewrite Hcut. unfold makechanPanics.
  destruct (BatchInserter_workers bi <? 0) eqn:Hneg; [apply Z.ltb_lt in Hneg; lia|].
  destruct (maxAlloc - hchanSize <? _) eqn:Hbig; [apply Z.ltb_lt in Hbig; lia|].
  cbn [orb negb]. rewrite andb_false_r.
  rewrite (fair_schedule_finishes bi batches db schedule (length (record :: records)));
    [by eexists _, _|done| |done].
  rewrite <- Hcat. by eapply batches_count_le.
Qed.

(** X23. The worker pool over a store in which no call fails.  For an
    inserter with a batch size from 1 and at least one worker, within the
    limit of [make(chan error, bi.workers)], when the runtime obtains the
    memory of the buffer of [errorChan] and of the workers: under every
    schedule that gives each worker two turns for each record, and one
    more, [BatchInsertRecords] returns nil and the table has gained the
    rows of the batches that [createBatches] cut, each batch whole and
    once, in some order of the batches. *)
Theorem BatchInsertRecords_stores_all (bi : BatchInserter) (schedule : list nat)
    (records : list BatchRecord) (db : DB) :
  1 <= BatchInserter_batchSize bi < 2 ^ 63 ->
  Z.of_nat (length records) <= 2 ^ 62 ->
  1 <= BatchInserter_workers bi ->
  sizeofError * BatchInserter_workers bi <= maxAlloc - hchanSize ->
  (forall w, (w < Z.to_nat (BatchInserter_workers bi))%nat ->
             (2 * length records + 1 <= count_occ Nat.eq_dec schedule w)%nat) ->
  noFaults db ->
  exists (db' : DB) (batches order : list (list BatchRecord)),
    BatchInserter_BatchInsertRecords bi true schedule records db
    = Ends (Returns (db', None))
    ∧ BatchInserter_createBatches bi records = Returns batches
    ∧ order ≡ₚ batches
    ∧ config.records db'
      = config.records db ++ assignIDs (records_id_seq db) (valuesOf <$> concat order).
Proof.
  intros Hsize Hfit Hworkers Hlimit Hfair Hno. unfold BatchInserter_BatchInsertRecords.
  destruct records as [|record records].
  { exists db, [], []. cbn. by rewrite app_nil_r. }
  destruct (db_facts.createBatchesLoop_from_start _ (record :: records) Hsize Hfit)
    as (batches & Hcut & Hcat & Hbound & _).
  unfold BatchInserter_createBatches. rewrite Hcut. unfold makechanPanics.
  destruct (BatchInserter_workers bi <? 0) eqn:Hneg; [apply Z.ltb_lt in Hneg; lia|].
  destruct (maxAlloc - hchanSize <? _) eqn:Hbig; [apply Z.ltb_lt in Hbig; lia|].
  cbn [orb negb]. rewrite andb_false_r.
  set (pool := fold_left (workerStep bi) schedule _).
  assert (forallb isFinished (Pool_workers pool) = true) as Hfin.
  { apply (fair_schedule_finishes bi batches db schedule (length (record :: records)));
      [lia| |done].
    rewrite <- Hcat. by eapply batches_count_le. }
  assert (poolInvariant bi batches db pool) as Hinv.
  { apply schedule_invariant, initial_invariant. lia. }
  assert (quietPool pool) as (_ & Herrs & _).
  { apply schedule_quiet. by split; [|split; [|apply receiving_workers]]. }
  destruct (returned_pool bi batches db pool Hinv Hfin)
    as (stored & failed & Hrecs & Hperm & Hfailed & Hclosed).
  rewrite (Hclosed Hworkers Herrs) in Hperm. rewrite Herrs in Hfailed.
  destruct failed; [|done]. cbn [app] in Hperm. rewrite app_nil_r in Hperm.
  rewrite Hfin, Herrs. by exists (Pool_db pool), batches, stored.
Qed.

(** X24. An inserter without workers, which [NewBatchInserter] never
    builds: [BatchInsertRecords] of records returns nil although it has
    stored nothing, under every schedule; with a negative number of
    workers it panics. *)
Theorem BatchInsertRecords_without_workers (bi : BatchInserter) (obtained : bool)
    (schedule : list nat) (records : list BatchRecord) (db : DB) :
  1 <= BatchInserter_batchSize bi < 2 ^ 63 ->
  Z.of_nat (length records) <= 2 ^ 62 ->
  records ≠ [] ->
  (BatchInserter_workers bi = 0 ->
   BatchInserter_BatchInsertRecords bi obtained schedule records db
   = Ends (Returns (db, None)))
  ∧ (BatchInserter_workers bi < 0 ->
     BatchInserter_BatchInsertRecords bi obtained schedule records db = Ends Panics).
Proof.
  intros Hsize Hfit Hsome. unfold BatchInserter_BatchInsertRecords.
  destruct records as [|record records]; [done|].
  destruct (db_facts.createBatchesLoop_from_start _ (record :: records) Hsize Hfit)
    as (batches & Hcut & _).
  unfold BatchInserter_createBatches. rewrite Hcut. split.
  - intros ->. change (makechanPanics sizeofError 0) with false.
    cbn [Z.ltb Z.compare andb Z.to_nat replicate].
    by rewrite schedule_without_workers.
  - intros Hneg. apply Z.ltb_lt in Hneg. unfold makechanPanics. by rewrite Hneg.
Qed.

(** Every action keeps the invariant of the pool of one worker. *)
Lemma workerStep_sequential (bi : BatchInserter) (batches : list (list BatchRecord))
    (db0 : DB) (pool : Pool) (w : nat) :
  1 <= BatchInserter_workers bi ->
  sequentialPool batches db0 pool ->
  sequentialPool batches db0 (workerStep bi pool w).
Proof.
  intros Hworkers. destruct pool as [chan errs ws db].
  intros (stored & rest & Hcut & Hrecs & Hseq & Hws).
  cbn [Pool_batchChan Pool_errorChan Pool_workers Pool_db] in *.
  destruct ws as [|st [|st' ws]]; [done| |by destruct st].
  unfold workerStep. cbn [Pool_batchChan Pool_errorChan Pool_workers Pool_db].
  destruct w as [|w]; [|by exists stored, rest]. cbn [lookup list_lookup].
  destruct st as [|batch|err|].
  - destruct Hws as [-> ->]. destruct chan as [|batch chan]; unfold sequentialPool;
      cbn [Pool_batchChan Pool_errorChan Pool_workers Pool_db insert list_insert].
    + exists stored, []. by repeat split.
    + exists stored, (batch :: chan). by repeat split.
  - destruct Hws as [-> ->].
    pose proof (insertBatch_outcome bi batch db) as Hout.
    destruct (BatchInserter_insertBatch bi batch db) as [db' [err|]];
      destruct Hout as [Hrecs' Hseq']; unfold sequentialPool;
      cbn [Pool_batchChan Pool_errorChan Pool_workers Pool_db insert list_insert].
    + exists stored, (batch :: chan). split; [done|]. split; [congruence|].
      split; [congruence|]. by split.
    + exists (stored ++ [batch]), chan. rewrite <- app_assoc. split; [done|].
      rewrite concat_app, fmap_app, length_app. cbn [concat]. rewrite app_nil_r.
      split; [|split; [lia|by split]].
      rewrite db_more.assignIDs_app, length_fmap, app_assoc, <- Hrecs, <- Hseq. done.
  - destruct Hws as [-> Hrest].
    destruct (_ <? BatchInserter_workers bi) eqn:Hroom;
      [|apply Z.ltb_ge in Hroom; cbn [length] in Hroom; lia].
    unfold sequentialPool.
    cbn [Pool_batchChan Pool_errorChan Pool_workers Pool_db insert list_insert app].
    exists stored, rest. split; [done|]. split; [done|]. split; [done|]. by split.
  - by exists stored, rest.
Qed.

Lemma schedule_sequential (bi : BatchInserter) (batches : list (list BatchRecord))
    (db0 : DB) (schedule : list nat) :
  1 <= BatchInserter_workers bi ->
  forall pool : Pool,
    sequentialPool batches db0 pool ->
    sequentialPool batches db0 (fold_left (workerStep bi) schedule pool).
Proof.
  intros Hworkers. induction schedule as [|w schedule IH]; intros pool Hinv; [done|].
  cbn [fold_left]. apply IH. by apply workerStep_sequential.
Qed.

(** X25. One worker, whatever the store does and under every schedule:
    when [BatchInsertRecords] returns, the table has gained the rows of a
    prefix of the records, in the order of the records: of all records
    when the result is nil, and not of all when it is an error. *)
Theorem single_worker_stores_in_order (bi : BatchInserter) (obtained : bool)
    (schedule : list nat) (records : list BatchRecord) (db db' : DB) (r : option error) :
  1 <= BatchInserter_batchSize bi < 2 ^ 63 ->
  Z.of_nat (length records) <= 2 ^ 62 ->
  BatchInserter_workers bi = 1 ->
  BatchInserter_BatchInsertRecords bi obtained schedule records db
  = Ends (Returns (db', r)) ->
  exists k : nat,
    config.records db'
    = config.records db
      ++ assignIDs (records_id_seq db) (valuesOf <$> take k records)
    ∧ (r = None -> k = length records)
    ∧ (r ≠ None -> (k < length records)%nat).
Proof.
  intros Hsize Hfit Hone Hrun. destruct (decide (records = [])) as [->|Hsome].
  { injection Hrun as <- <-. exists 0%nat. cbn. by rewrite app_nil_r. }
  destruct (BatchInsertRecords_returned bi obtained schedule records db db' r Hsome Hrun)
    as (batches & pool & Hcut & Hpos & Hpool & Hfin & Hdb & Herr).
  destruct (db_facts.createBatchesLoop_from_start _ records Hsize Hfit)
    as (batches' & Hcut' & Hcat & Hbound & _).
  unfold BatchInserter_createBatches in Hcut. rewrite Hcut' in Hcut.
  injection Hcut as ->.
  assert (sequentialPool batches db pool) as (stored & rest & Hsplit & Hrecs & _ & Hws).
  { rewrite Hpool. apply schedule_sequential; [lia|]. rewrite Hone.
    exists [], batches. cbn. rewrite app_nil_r. split; [done|]. split; [done|].
    split; [lia|done]. }
  destruct (Pool_workers pool) as [|st [|st' ws]]; [done| |by destruct st].
  destruct st; try discriminate.
  exists (length (concat stored)).
  assert (records = concat stored ++ concat rest) as Hrecords.
  { by rewrite <- Hcat, <- Hsplit, concat_app. }
  rewrite Hrecords, take_app_length, <- Hdb. split; [done|]. rewrite length_app, <- Herr.
  split.
  - intros Hnone. assert (rest = []) as ->; [|cbn; lia].
    apply Hws. by destruct (Pool_errorChan pool).
  - intros Hsomeerr. destruct rest as [|batch rest].
    + destruct Hws as [_ Hws]. rewrite (Hws eq_refl) in Hsomeerr. done.
    + assert (1 <= Z.of_nat (length batch)) as Hbatch.
      { unfold boundedBatches in Hbound. rewrite <- Hsplit in Hbound.
        apply Forall_app in Hbound as [_ Hbound]. by inversion Hbound as [|? ? [? ?]]. }
      cbn [concat]. rewrite length_app. lia.
Qed.

#[local] Existing Instance sample.runtime.

Lemma single_worker_stores_in_order_witness :
  exists k : nat,
    config.records (storeAfter (BatchInserter_BatchInsertRecords (mkBatchInserter 2 1)
                                  true (sample.roundRobin 1 11) sample.fiveRecords
                                  sample.secondCallFails)
                               sample.secondCallFails)
    = config.records sample.secondCallFails
      ++ assignIDs (records_id_seq sample.secondCallFails)
           (valuesOf <$> take k sample.fiveRecords)
    ∧ (Some sample.storeDown = None -> k = length sample.fiveRecords)
    ∧ (Some sample.storeDown ≠ None -> (k < length sample.fiveRecords)%nat).
Proof.
  apply (single_worker_stores_in_order (mkBatchInserter 2 1) true (sample.roundRobin 1 11)
           sample.fiveRecords sample.secondCallFails).
  - cbn [BatchInserter_batchSize]. lia.
  - cbn [length sample.fiveRecords]. lia.
  - reflexivity.
  - vm_compute. reflexivity.
Defined.

Lemma BatchInsertRecords_nil_stores_every_batch_witness :
  exists batches order : list (list BatchRecord),
    BatchInserter_createBatches (mkBatchInserter 2 2) sample.fiveRecords = Returns batches
    ∧ order ≡ₚ batches
    ∧ records (storeAfter (BatchInserter_BatchInsertRecords (mkBatchInserter 2 2) true
                             (sample.roundRobin 2 11) sample.fiveRecords sample.emptyDB)
                          sample.emptyDB)
      = records sample.emptyDB
        ++ assignIDs (records_id_seq sample.emptyDB) (valuesOf <$> concat order).
Proof.
  apply (BatchInsertRecords_nil_stores_every_batch (mkBatchInserter 2 2) true
           (sample.roundRobin 2 11) sample.fiveRecords sample.emptyDB).
  - cbn [BatchInserter_workers]. lia.
  - vm_compute. reflexivity.
Defined.

Lemma BatchInsertRecords_error_stores_whole_batches_witness :
  exists batches stored : list (list BatchRecord),
    BatchInserter_createBatches (mkBatchInserter 2 2) sample.fiveRecords = Returns batches
    ∧ stored ⊆+ batches
    ∧ (length stored < length batches)%nat
    ∧ records (storeAfter (BatchInserter_BatchInsertRecords (mkBatchInserter 2 2) true
                             (sample.roundRobin 2 11) sample.fiveRecords
                             sample.nextCallFails)
                          sample.nextCallFails)
      = records sample.nextCallFails
        ++ assignIDs (records_id_seq sample.nextCallFails) (valuesOf <$> concat stored).
Proof.
  apply (BatchInsertRecords_error_stores_whole_batches (mkBatchInserter 2 2) true
           (sample.roundRobin 2 11) sample.fiveRecords sample.nextCallFails _
           sample.storeDown).
  vm_compute. reflexivity.
Defined.

Lemma BatchInsertRecords_returns_witness :
  exists (db' : DB) (r : option error),
    BatchInserter_BatchInsertRecords (mkBatchInserter 2 2) true (sample.roundRobin 2 11)
      sample.fiveRecords sample.nextCallFails
    = Ends (Returns (db', r)).
Proof.
  apply (BatchInsertRecords_returns (mkBatchInserter 2 2) (sample.roundRobin 2 11)
           sample.fiveRecords sample.nextCallFails).
  - cbn [BatchInserter_batchSize]. lia.
  - cbn [length sample.fiveRecords]. lia.
  - cbn [BatchInserter_workers]. lia.
  - vm_compute. discriminate.
  - intros [|[|w]] Hw; [vm_compute; lia|vm_compute; lia|].
    cbn [BatchInserter_workers] in Hw. lia.
Defined.

Lemma BatchInsertRecords_stores_all_witness :
  exists (db' : DB) (batches order : list (list BatchRecord)),
    BatchInserter_BatchInsertRecords (mkBatchInserter 2 2) true (sample.roundRobin 2 11)
      sample.fiveRecords sample.emptyDB
    = Ends (Returns (db', None))
    ∧ BatchInserter_createBatches (mkBatchInserter 2 2) sample.fiveRecords
      = Returns batches
    ∧ order ≡ₚ batches
    ∧ records db'
      = records sample.emptyDB
        ++ assignIDs (records_id_seq sample.emptyDB) (valuesOf <$> concat order).
Proof.
  apply (BatchInsertRecords_stores_all (mkBatchInserter 2 2) (sample.roundRobin 2 11)
           sample.fiveRecords sample.emptyDB).
  - cbn [BatchInserter_batchSize]. lia.
  - cbn [length sample.fiveRecords]. lia.
  - cbn [BatchInserter_workers]. lia.
  - vm_compute. discriminate.
  - intros [|[|w]] Hw; [vm_compute; lia|vm_compute; lia|].
    cbn [BatchInserter_workers] in Hw. lia.
  - constructor.
Defined.

Lemma BatchInsertRecords_without_workers_witness :
  BatchInserter_BatchInsertRecords (mkBatchInserter 2 0) true (sample.roundRobin 2 11)
    sample.fiveRecords sample.emptyDB
  = Ends (Returns (sample.emptyDB, None))
  ∧ BatchInserter_BatchInsertRecords (mkBatchInserter 2 (-1)) true
      (sample.roundRobin 2 11) sample.fiveRecords sample.emptyDB
    = Ends Panics.
Proof.
  split.
  - apply (BatchInsertRecords_without_workers (mkBatchInserter 2 0) true
             (sample.roundRobin 2 11) sample.fiveRecords sample.emptyDB);
      [cbn [BatchInserter_batchSize]; lia|cbn [length sample.fiveRecords]; lia
      |discriminate|reflexivity].
  - apply (BatchInsertRecords_without_workers (mkBatchInserter 2 (-1)) true
             (sample.roundRobin 2 11) sample.fiveRecords sample.emptyDB);
      [cbn [BatchInserter_batchSize]; lia|cbn [length sample.fiveRecords]; lia
      |discriminate|cbn [BatchInserter_workers]; lia].
Defined.

(** Five records in batches of two, two workers in turn, the first call
    to the store fails: the worker that held the first batch returns with
    the error, the other one stores the second and the third batch. *)
Example pool_first_insert_fails :
  (fun res => (Record_OrderID <$> records res.1, res.2)) <$>
    (match BatchInserter_BatchInsertRecords (mkBatchInserter 2 2) true
             (sample.roundRobin 2 11) sample.fiveRecords sample.nextCallFails with
     | Ends (Returns res) => Some res
     | _ => None
     end)
  = Some (["ORD003"; "ORD004"; "ORD005"], Some sample.storeDown).
Proof. vm_compute. reflexivity. Qed.

(** The same call over a store without faults, the second worker moving
    first: the batches are stored in the order of the inserts. *)
Example pool_interleaved :
  (fun res => (Record_OrderID <$> records res.1, res.2)) <$>
    (match BatchInserter_BatchInsertRecords (mkBatchInserter 2 2) true
             ([0; 1; 1; 0; 1; 1; 0]%nat ++ sample.roundRobin 2 11)
             sample.fiveRecords sample.emptyDB with
     | Ends (Returns res) => Some res
     | _ => None
     end)
  = Some (["ORD003"; "ORD004"; "ORD001"; "ORD002"; "ORD005"], None).
Proof. vm_compute. reflexivity. Qed.

(** A number of workers beyond the limit of [make(chan error, n)] is a
    panic; within it, [2^40] workers ask for 16 terabytes for the buffer
    of [errorChan] alone, and when the runtime does not obtain the memory
    the process ends. *)
Example pool_too_many_workers :
  BatchInserter_BatchInsertRecords (mkBatchInserter 2 (2 ^ 44)) true
    (sample.roundRobin 2 11) sample.fiveRecords sample.emptyDB = Ends Panics
  ∧ BatchInserter_BatchInsertRecords (mkBatchInserter 2 (2 ^ 40)) false
      (sample.roundRobin 2 11) sample.fiveRecords sample.emptyDB = OutOfMemory.
Proof. split; reflexivity. Qed.

End pool_facts.
